(** * Rolling rate limiter: a shallow embedding of [lib/index.js]

    The development follows the layout of the source file: the numeric
    helpers at its bottom, the abstract class [RateLimiter] with its
    decision procedure [calculateInfo], the two storage back ends
    [InMemoryRateLimiter] and [RedisRateLimiter], and the facade methods
    [limitWithInfo], [wouldLimitWithInfo], [limit], [wouldLimit].

    Modelling conventions.
    - A JavaScript number is an integer of [Z] or NaN; [num] is [option Z]
      with [None] for NaN.  All clock readings are integers (microseconds),
      and every quantity the code derives from them stays far below 2^53, so
      [Math.ceil (x / 1000)] is the exact ceiling of the quotient.  The two
      zeros of JavaScript are identified.
    - [microtime.now ()] is an input: every method that reads the clock takes
      the reading as an argument.  [uuid.v4 ()] is an input in the same way.
    - An object used as a dictionary is a [gmap] over the string form of the
      identifier, holding the properties the object has itself.  The two
      dictionaries of the in-memory store are plain objects, so reading a
      property they do not have finds the member of [Object.prototype] of
      that name, if there is one.
    - A promise is its eventual outcome: [Return v] when it resolves, [Throw
      msg] when it rejects.  State is passed explicitly: a method returns
      the limiter after the call next to its result.
    - The Redis server behind [client] is modelled by the commands the
      limiter sends, after the Redis command reference.  It is reachable and
      answers every transaction; connection errors are not modelled.
    - The timers of the in-memory store run by the clock that
      [microtime.now ()] reads.  A timer is a pending entry of [ttls] with the
      reading at which it was set and its delay, as [setTimeout] of Node.js
      keeps it; its callback [onTimeout] runs when the event loop comes to
      it, at any reading from its due time on.  The runs of the event loop are
      events of their own between the public calls.  The expiry set by
      [EXPIRE] is kept as an entry of [expires]; the passing of real time on
      the Redis server is not modelled. *)

From Stdlib Require Import ZArith Lia DecimalString DecimalZ DecimalPos.
From stdpp Require Import gmap strings list sorting.

Local Open Scope Z_scope.
Set Warnings "-clear-no-such-hyp".

(** ** JavaScript values *)

(** A number: an integer, or NaN ([None]). *)
Definition num := option Z.

(** [a[i]] for an arbitrary integer index: [None] is [undefined]. *)
Definition index {A : Type} (a : list A) (i : Z) : option A :=
  if decide (0 <= i) then a !! Z.to_nat i else None.

(** Conversion of a possibly [undefined] array element to a number. *)
Definition toNumber (v : option num) : num := mjoin v.

Definition num_add (a b : num) : num := x ← a; y ← b; Some (x + y).
Definition num_sub (a b : num) : num := x ← a; y ← b; Some (x - y).
Definition num_max (a b : num) : num := x ← a; y ← b; Some (Z.max x y).

(** [a < b]; every comparison with NaN is false. *)
Definition num_lt (a b : num) : bool :=
  match a, b with
  | Some x, Some y => bool_decide (x < y)
  | _, _ => false
  end.

(** Outcome of a call that may throw or of a promise that may reject. *)
Inductive completion (A : Type) : Type :=
| Return (v : A)
| Throw (msg : string).
Arguments Return {A} v.
Arguments Throw {A} msg.

Global Instance completion_ret : MRet completion := λ A v, Return v.
Global Instance completion_bind : MBind completion := λ A B k c,
  match c with
  | Return v => k v
  | Throw msg => Throw msg
  end.
Global Instance completion_fmap : FMap completion := λ A B f c,
  match c with
  | Return v => Return (f v)
  | Throw msg => Throw msg
  end.

(** [String(n)] for an integer. *)
Definition String_of (n : Z) : string := NilZero.string_of_int (Z.to_int n).

(** [Number(s)] on decimal integer literals; every other string is NaN in
    the model (Redis prints an integral score as such a literal). *)
Definition Number (s : string) : num := Z.of_int <$> NilZero.int_of_string s.

(** ** Unit conversions (the functions at the end of the file) *)

Definition millisecondsToMicroseconds (milliseconds : Z) : Z := 1000 * milliseconds.

(** [Math.ceil (x / 1000)]. *)
Definition microsecondsToMilliseconds (microseconds : Z) : Z := - ((- microseconds) / 1000).

(** [Math.ceil (x / 1000 / 1000)]. *)
Definition microsecondsToSeconds (microseconds : Z) : Z := - ((- microseconds) / 1000000).

(** ** Identifiers *)

(** [type Id = number | string]. *)
Inductive Id : Type :=
| IdNum (n : Z)
| IdStr (s : string).

(** The property key, and the text a template literal inserts, for an [Id]. *)
Definition keyOf (id : Id) : string :=
  match id with
  | IdNum n => String_of n
  | IdStr s => s
  end.

(** ** The abstract class [RateLimiter] *)

(** [RateLimiterOptions]; [None] is a missing (undefined) property. *)
Record RateLimiterOptions : Type := {
  opt_interval : option Z;
  opt_maxInInterval : option Z;
  opt_minDifference : option Z
}.

(** The fields the base constructor sets: [interval] and [minDifference] in
    microseconds. *)
Record RateLimiter : Type := {
  interval : Z;
  maxInInterval : Z;
  minDifference : Z
}.

Record RateLimitInfo : Type := {
  blocked : bool;
  blockedDueToCount : bool;
  blockedDueToMinDifference : bool;
  millisecondsUntilAllowed : num;
  actionsRemaining : Z
}.

(** [assert (cond, msg)]: continue when [cond] holds, throw otherwise. *)
Definition assert {A : Type} (cond : bool) (msg : string) (k : completion A) : completion A :=
  if cond then k else Throw msg.

(** [assert (x > 0, msg)] for a property [x] that may be missing: the
    comparison of [undefined] with 0 is false; past the assertion [x] is a
    number. *)
Definition assert_positive {A : Type} (x : option Z) (msg : string) (k : Z → completion A)
  : completion A :=
  match x with
  | Some v => assert (bool_decide (0 < v)) msg (k v)
  | None => Throw msg
  end.

Module Base.

(** [constructor ({ interval, maxInInterval, minDifference = 0 })]. *)
Definition constructor (options : RateLimiterOptions) : completion RateLimiter :=
  let minDifference := default 0 (opt_minDifference options) in
  assert_positive (opt_interval options)
    "Must pass a positive integer for `options.interval`" (λ interval,
  assert_positive (opt_maxInInterval options)
    "Must pass a positive integer for `options.maxInInterval`" (λ maxInInterval,
  assert (bool_decide (0 <= minDifference))
    "`options.minDifference` cannot be negative"
    (Return {| interval := millisecondsToMicroseconds interval;
               maxInInterval := maxInInterval;
               minDifference := millisecondsToMicroseconds minDifference |}))).

(** [calculateInfo (timestamps, isWould = false)]. *)
Definition calculateInfo (self : RateLimiter) (timestamps : list num) (isWould : bool)
  : RateLimitInfo :=
  let numTimestamps := Z.of_nat (length timestamps) in
  let currentTimestamp := index timestamps (numTimestamps - 1) in
  let previousTimestamp := index timestamps (numTimestamps - 2) in
  let blockedDueToCount := bool_decide (maxInInterval self < numTimestamps) in
  let blockedDueToMinDifference :=
    bool_decide (is_Some previousTimestamp)
    && bool_decide (0 < minDifference self)
    && num_lt (num_sub (toNumber currentTimestamp) (toNumber previousTimestamp))
              (Some (minDifference self)) in
  let blocked := blockedDueToCount || blockedDueToMinDifference in
  let microsecondsUntilUnblocked :=
    if bool_decide (maxInInterval self <= numTimestamps)
    then num_add
           (num_sub
              (toNumber (index timestamps (Z.max 0 (numTimestamps - maxInInterval self))))
              (toNumber currentTimestamp))
           (Some (interval self))
    else Some 0 in
  let microsecondsUntilAllowed :=
    num_max (Some (minDifference self)) microsecondsUntilUnblocked in
  if isWould then
    {| blocked := blocked;
       blockedDueToCount := blockedDueToCount;
       blockedDueToMinDifference := blockedDueToMinDifference;
       millisecondsUntilAllowed :=
         microsecondsToMilliseconds
           <$> num_add
                 (num_sub
                    (toNumber
                       (index timestamps (Z.max 0 (numTimestamps - maxInInterval self))))
                    (toNumber currentTimestamp))
                 (Some (interval self));
       actionsRemaining := Z.max 0 (maxInInterval self - numTimestamps) |}
  else
    {| blocked := blocked;
       blockedDueToCount := blockedDueToCount;
       blockedDueToMinDifference := blockedDueToMinDifference;
       millisecondsUntilAllowed := microsecondsToMilliseconds <$> microsecondsUntilAllowed;
       actionsRemaining := Z.max 0 (maxInInterval self - numTimestamps) |}.

End Base.

(** ** The storage interface *)

(** What one call of [getTimestamps] takes from the environment: the reading
    of the microsecond clock and, for the Redis back end, the fresh value
    [uuid.v4 ()]. *)
Record Tick : Type := {
  now : Z;
  uuid : string
}.

(** A concrete limiter: the fields of the base class and the two methods a
    subclass overrides.  Methods are asynchronous; a method returns its
    result together with the limiter after the call. *)
Class Limiter (L : Type) : Type := {
  super : L → RateLimiter;
  getTimestamps : L → Tick → Id → bool → completion (list num * L);
  clear : L → Id → completion L
}.

(** The base class is itself a limiter whose two primitives reject. *)
Global Instance RateLimiter_Limiter : Limiter RateLimiter := {|
  super self := self;
  getTimestamps _ _ _ _ := Throw "Not implemented";
  clear _ _ := Throw "Not implemented"
|}.

(** ** The facade methods of [RateLimiter] *)

Section Facade.
Context {L : Type} `{Limiter L}.

(** [limitWithInfo (id)]. *)
Definition limitWithInfo (self : L) (tick : Tick) (id : Id)
  : completion (RateLimitInfo * L) :=
  '(timestamps, self') ← getTimestamps self tick id true;
  mret (Base.calculateInfo (super self) timestamps false, self').

(** [wouldLimitWithInfo (id)]; [currentTimestamp] is the clock reading
    taken after [getTimestamps] has resolved. *)
Definition wouldLimitWithInfo (self : L) (tick : Tick) (currentTimestamp : Z) (id : Id)
  : completion (RateLimitInfo * L) :=
  '(existingTimestamps, self') ← getTimestamps self tick id false;
  mret (Base.calculateInfo (super self)
          (existingTimestamps ++ [Some currentTimestamp]) true, self').

(** [limit (id)]. *)
Definition limit (self : L) (tick : Tick) (id : Id) : completion (bool * L) :=
  '(info, self') ← limitWithInfo self tick id;
  mret (blocked info, self').

(** [wouldLimit (id)]. *)
Definition wouldLimit (self : L) (tick : Tick) (currentTimestamp : Z) (id : Id)
  : completion (bool * L) :=
  '(info, self') ← wouldLimitWithInfo self tick currentTimestamp id;
  mret (blocked info, self').

End Facade.

(** ** [InMemoryRateLimiter] *)

Module InMemory.

(** The names [Object.prototype] defines.  Read on a plain object that has no
    property of its own under such a name, they yield the inherited member: a
    function, or [Object.prototype] itself for [__proto__]. *)
Definition Object_prototype : list string :=
  ["constructor"; "__defineGetter__"; "__defineSetter__"; "hasOwnProperty";
   "__lookupGetter__"; "__lookupSetter__"; "isPrototypeOf"; "propertyIsEnumerable";
   "toString"; "valueOf"; "__proto__"; "toLocaleString"].

(** A pending timer, as the [Timeout] object of Node.js keeps it: the clock
    reading at which it was set and its delay in milliseconds. *)
Record Timeout : Type := {
  idleStart : Z;
  idleTimeout : Z
}.

Definition TIMEOUT_MAX : Z := 2147483647.

(** [setTimeout (callback, delay)] at the reading [currentTimestamp], after
    the documentation of Node.js: a delay larger than [TIMEOUT_MAX] or less
    than 1 is set to 1. *)
Definition setTimeout (currentTimestamp delay : Z) : Timeout :=
  {| idleStart := currentTimestamp;
     idleTimeout := if bool_decide (1 <= delay <= TIMEOUT_MAX) then delay else 1 |}.

(** [storage] maps an identifier to its array of timestamps; [ttls] maps
    it to its pending timer. *)
Record InMemoryRateLimiter : Type := {
  base : RateLimiter;
  storage : gmap string (list Z);
  ttls : gmap string Timeout
}.

Definition constructor (options : RateLimiterOptions) : completion InMemoryRateLimiter :=
  base ← Base.constructor options;
  mret {| base := base; storage := ∅; ttls := ∅ |}.

(** [clear (id)].  For an identifier that names a member of
    [Object.prototype] and has no timer, [ttl] is that member; [clearTimeout]
    ignores it and the two [delete]s find nothing to remove. *)
Definition clear (self : InMemoryRateLimiter) (id : Id) : InMemoryRateLimiter :=
  let storage := delete (keyOf id) (storage self) in
  match ttls self !! keyOf id with
  | Some ttl =>
      {| base := base self; storage := storage; ttls := delete (keyOf id) (ttls self) |}
  | None =>
      {| base := base self; storage := storage; ttls := ttls self |}
  end.

(** The callback handed to [setTimeout] in [getTimestamps]. *)
Definition onTimeout (self : InMemoryRateLimiter) (id : Id) : InMemoryRateLimiter :=
  {| base := base self;
     storage := delete (keyOf id) (storage self);
     ttls := delete (keyOf id) (ttls self) |}.

(** The body of [getTimestamps] when [this.storage[id] || []] is an array:
    the array stored for the identifier, or the empty one when there is
    none. *)
Definition refresh (self : InMemoryRateLimiter) (currentTimestamp : Z) (id : Id)
    (addNewTimestamp : bool) : list Z * InMemoryRateLimiter :=
  let clearBefore := currentTimestamp - interval (base self) in
  let storedTimestamps :=
    filter (λ t, clearBefore < t) (default [] (storage self !! keyOf id)) in
  if addNewTimestamp then
    let storedTimestamps := storedTimestamps ++ [currentTimestamp] in
    (storedTimestamps,
     {| base := base self;
        storage := <[keyOf id := storedTimestamps]> (storage self);
        ttls := <[keyOf id := setTimeout currentTimestamp
                                (microsecondsToMilliseconds (interval (base self)))]>
                  (ttls self) |})
  else
    (storedTimestamps,
     {| base := base self;
        storage := <[keyOf id := storedTimestamps]> (storage self);
        ttls := ttls self |}).

(** [getTimestamps (id, addNewTimestamp)].  When the store has no array for
    the identifier and the identifier names a member of [Object.prototype],
    [this.storage[id]] is that member, which has no method [filter]: the call
    throws the TypeError "(this.storage[id] || []).filter is not a function"
    before anything is stored. *)
Definition getTimestamps (self : InMemoryRateLimiter) (currentTimestamp : Z) (id : Id)
    (addNewTimestamp : bool) : completion (list Z * InMemoryRateLimiter) :=
  match storage self !! keyOf id with
  | Some _ => Return (refresh self currentTimestamp id addNewTimestamp)
  | None =>
      if bool_decide (keyOf id ∈ Object_prototype)
      then Throw "TypeError"
      else Return (refresh self currentTimestamp id addNewTimestamp)
  end.

(** A timer is due at the reading [reading] when its delay has passed since
    it was set. *)
Definition due (reading : Z) (timer : Timeout) : Prop :=
  idleStart timer + millisecondsToMicroseconds (idleTimeout timer) <= reading.

Global Instance due_dec (reading : Z) (timer : Timeout) : Decision (due reading timer) :=
  decide (idleStart timer + millisecondsToMicroseconds (idleTimeout timer) <= reading).

(** The event loop comes to the timers at the reading [reading]: the timer
    of the identifier, when there is one and it is due, runs its callback. *)
Definition expire (self : InMemoryRateLimiter) (reading : Z) (id : Id)
  : InMemoryRateLimiter :=
  match ttls self !! keyOf id with
  | Some timer => if bool_decide (due reading timer) then onTimeout self id else self
  | None => self
  end.

End InMemory.

Global Instance InMemory_Limiter : Limiter InMemory.InMemoryRateLimiter := {|
  super := InMemory.base;
  getTimestamps self tick id addNewTimestamp :=
    match InMemory.getTimestamps self (now tick) id addNewTimestamp with
    | Return (timestamps, self') => Return (Some <$> timestamps, self')
    | Throw msg => Throw msg
    end;
  clear self id := Return (InMemory.clear self id)
|}.

(** ** The Redis server, as far as the limiter talks to it

    The sorted-set commands below follow the Redis command reference; they
    stand for the server at the other end of [client], which is not part of
    the repository.  The server is reachable: [exec] never reports an
    error. *)

Module Server.

(** A sorted set: members with their scores, kept ordered by score and,
    among equal scores, by member. *)
Definition zset := list (string * Z).

Record t : Type := {
  sets : gmap string zset;
  expires : gmap string Z
}.

Definition empty : t := {| sets := ∅; expires := ∅ |}.

Inductive Command : Type :=
| DEL (key : string)
| ZREMRANGEBYSCORE (key : string) (min max : Z)
| ZADD (key : string) (score : string) (member : string)
| ZRANGE_ALL_WITHSCORES (key : string)
| EXPIRE (key : string) (seconds : Z).

#[warnings="-register-all"]
Inductive Reply : Type :=
| Int (n : Z)
| Bulk (s : string)
| Null
| Multi (l : list Reply).

Definition entry_leb (a b : string * Z) : bool :=
  bool_decide (a.2 < b.2) || (bool_decide (a.2 = b.2) && String.leb a.1 b.1).

Fixpoint place (e : string * Z) (z : zset) : zset :=
  match z with
  | [] => [e]
  | x :: z' => if entry_leb e x then e :: z else x :: place e z'
  end.

Definition lookup_set (key : string) (s : t) : zset := default [] (sets s !! key).

(** A key whose set has become empty no longer exists. *)
Definition store_set (key : string) (z : zset) (s : t) : t :=
  match z with
  | [] => {| sets := delete key (sets s); expires := delete key (expires s) |}
  | _ => {| sets := <[key := z]> (sets s); expires := expires s |}
  end.

Definition run (c : Command) (s : t) : Reply * t :=
  match c with
  | DEL key =>
      (Int (if decide (is_Some (sets s !! key)) then 1 else 0),
       {| sets := delete key (sets s); expires := delete key (expires s) |})
  | ZREMRANGEBYSCORE key min max =>
      let z := lookup_set key s in
      let kept := filter (λ e, ¬ (min <= e.2 <= max)) z in
      (Int (Z.of_nat (length z) - Z.of_nat (length kept)), store_set key kept s)
  | ZADD key score member =>
      match Number score with
      | Some sc =>
          let z := lookup_set key s in
          let others := filter (λ e, e.1 ≠ member) z in
          (Int (Z.of_nat (S (length others)) - Z.of_nat (length z)),
           store_set key (place (member, sc) others) s)
      | None => (Bulk "ERR value is not a valid float", s)
      end
  | ZRANGE_ALL_WITHSCORES key =>
      (Multi (lookup_set key s ≫= λ e, [Bulk e.1; Bulk (String_of e.2)]), s)
  | EXPIRE key seconds =>
      if decide (is_Some (sets s !! key))
      then (Int 1, {| sets := sets s; expires := <[key := seconds]> (expires s) |})
      else (Int 0, s)
  end.

(** A transaction: the queued commands run in order, with nothing in
    between; the replies come back in the same order. *)
Fixpoint exec (batch : list Command) (s : t) : list Reply * t :=
  match batch with
  | [] => ([], s)
  | c :: batch' =>
      let '(r, s') := run c s in
      let '(rs, s'') := exec batch' s' in
      (r :: rs, s'')
  end.

End Server.

(** ** [RedisRateLimiter] *)

Module Redis.
Import Server.

(** The two client libraries differ in the shape of the result of [exec]:
    [redis] hands back the replies, [ioredis] pairs each reply with its
    error slot. *)
Inductive Library : Type := NodeRedis | IORedis.

Record RedisClient : Type := {
  library : Library;
  server : Server.t
}.

Record RedisRateLimiter : Type := {
  base : RateLimiter;
  ttl : Z;
  client : RedisClient;
  namespace : string
}.

Definition constructor (client : RedisClient) (namespace : string)
    (baseOptions : RateLimiterOptions) : completion RedisRateLimiter :=
  base ← Base.constructor baseOptions;
  mret {| base := base;
          ttl := microsecondsToSeconds (interval base);
          client := client;
          namespace := namespace |}.

(** [batch.exec (cb)]: the result array the callback receives. *)
Definition client_exec (c : RedisClient) (batch : list Command)
  : list Reply * RedisClient :=
  let '(replies, s) := Server.exec batch (server c) in
  (match library c with
   | NodeRedis => replies
   | IORedis => (λ r, Multi [Null; r]) <$> replies
   end,
   {| library := library c; server := s |}).

Definition with_client (self : RedisRateLimiter) (c : RedisClient) : RedisRateLimiter :=
  {| base := base self; ttl := ttl self; client := c; namespace := namespace self |}.

(** [makeKey (id)]. *)
Definition makeKey (self : RedisRateLimiter) (id : Id) : string :=
  namespace self +:+ keyOf id.

(** [clear (id)]. *)
Definition clear (self : RedisRateLimiter) (id : Id) : RedisRateLimiter :=
  let key := makeKey self id in
  with_client self (client_exec (client self) [DEL key]).2.

(** [getZRangeResult (zRangeOutput)]. *)
Definition getZRangeResult (zRangeOutput : list Reply) : list Reply :=
  match zRangeOutput !! 1%nat with
  | Some (Multi inner) => inner
  | _ => zRangeOutput
  end.

(** [Number (e)] for an element of a reply; an array never occurs there and
    is NaN in the model. *)
Definition Number_of (e : Reply) : num :=
  match e with
  | Int n => Some n
  | Bulk s => Number s
  | Null => Some 0
  | Multi _ => None
  end.

(** [a.filter ((e, i) => p (i))], from position [i]. *)
Fixpoint filter_index {A : Type} (p : nat → bool) (i : nat) (a : list A) : list A :=
  match a with
  | [] => []
  | e :: a' => if p i then e :: filter_index p (S i) a' else filter_index p (S i) a'
  end.

(** [extractTimestampsFromZRangeResult (zRangeResult)]. *)
Definition extractTimestampsFromZRangeResult (zRangeResult : list Reply) : list num :=
  Number_of <$> filter_index (λ i, negb (i mod 2 =? 0)%nat) 0 zRangeResult.

(** [getTimestamps (id, addNewTimestamp)]. *)
Definition getTimestamps (self : RedisRateLimiter) (tick : Tick) (id : Id)
    (addNewTimestamp : bool) : completion (list num * RedisRateLimiter) :=
  let now := now tick in
  let key := makeKey self id in
  let clearBefore := now - interval (base self) in
  let batch :=
    [ZREMRANGEBYSCORE key 0 clearBefore]
    ++ (if addNewTimestamp then [ZADD key (String_of now) (uuid tick)] else [])
    ++ [ZRANGE_ALL_WITHSCORES key; EXPIRE key (ttl self)] in
  let '(result, client') := client_exec (client self) batch in
  match result !! (if addNewTimestamp then 2 else 1)%nat with
  | Some (Multi zRangeOutput) =>
      let zRangeResult := getZRangeResult zRangeOutput in
      let timestamps := extractTimestampsFromZRangeResult zRangeResult in
      Return (timestamps, with_client self client')
  | _ => Throw "TypeError"
  end.

End Redis.

Global Instance Redis_Limiter : Limiter Redis.RedisRateLimiter := {|
  super := Redis.base;
  getTimestamps := Redis.getTimestamps;
  clear self id := Return (Redis.clear self id)
|}.

(** ** Sequences of public calls *)

(** A public call; a "would" call carries the second clock reading, the one
    [wouldLimitWithInfo] takes for the candidate timestamp. *)
Inductive Call : Type :=
| Limit (id : Id)
| WouldLimit (id : Id) (currentTimestamp : Z)
| LimitWithInfo (id : Id)
| WouldLimitWithInfo (id : Id) (currentTimestamp : Z)
| Clear (id : Id).

(** What the caller sees. *)
Inductive Outcome : Type :=
| Verdict (blocked : bool)
| Info (info : RateLimitInfo)
| Done
| Rejected (msg : string).

Section Calls.
Context {L : Type} `{Limiter L}.

Definition settle {A : Type} (self : L) (f : A → Outcome) (c : completion (A * L))
  : Outcome * L :=
  match c with
  | Return (v, self') => (f v, self')
  | Throw msg => (Rejected msg, self)
  end.

Definition perform (self : L) (tick : Tick) (c : Call) : Outcome * L :=
  match c with
  | Limit id => settle self Verdict (limit self tick id)
  | WouldLimit id currentTimestamp =>
      settle self Verdict (wouldLimit self tick currentTimestamp id)
  | LimitWithInfo id => settle self Info (limitWithInfo self tick id)
  | WouldLimitWithInfo id currentTimestamp =>
      settle self Info (wouldLimitWithInfo self tick currentTimestamp id)
  | Clear id => settle self (λ _ : unit, Done) (pair () <$> clear self id)
  end.

Fixpoint run (self : L) (calls : list (Tick * Call)) : list Outcome * L :=
  match calls with
  | [] => ([], self)
  | (tick, c) :: calls' =>
      let '(o, self') := perform self tick c in
      let '(os, self'') := run self' calls' in
      (o :: os, self'')
  end.

End Calls.

(** ** The event loop of the in-memory limiter *)

(** What happens to an in-memory limiter: a public call, or a run of the
    event loop that looks at the timer of an identifier while the clock reads
    [reading]. *)
Inductive Event : Type :=
| Invoke (tick : Tick) (c : Call)
| Elapse (reading : Z) (id : Id).

Definition step (self : InMemory.InMemoryRateLimiter) (e : Event)
  : list Outcome * InMemory.InMemoryRateLimiter :=
  match e with
  | Invoke tick c => let '(o, self') := perform self tick c in ([o], self')
  | Elapse reading id => ([], InMemory.expire self reading id)
  end.

(** The outcomes of the public calls of a sequence of events, and the limiter
    after it. *)
Fixpoint play (self : InMemory.InMemoryRateLimiter) (events : list Event)
  : list Outcome * InMemory.InMemoryRateLimiter :=
  match events with
  | [] => ([], self)
  | e :: events' =>
      let '(os, self') := step self e in
      let '(os', self'') := play self' events' in
      (os ++ os', self'')
  end.

(** ** Notions used in the statements *)

(** The timestamps stored for an identifier; an identifier without an entry
    has none. *)
Definition stored (self : InMemory.InMemoryRateLimiter) (id : Id) : list Z :=
  default [] (InMemory.storage self !! keyOf id).

(** The identifier does not name a member of [Object.prototype]. *)
Definition plain (id : Id) : Prop := keyOf id ∉ InMemory.Object_prototype.

(** The store has no array for the identifier, and [this.storage[id]] finds
    a member of [Object.prototype] in its place. *)
Definition inherited (self : InMemory.InMemoryRateLimiter) (id : Id) : Prop :=
  InMemory.storage self !! keyOf id = None ∧ keyOf id ∈ InMemory.Object_prototype.

Global Instance inherited_dec (self : InMemory.InMemoryRateLimiter) (id : Id)
  : Decision (inherited self id) :=
  and_dec (decide (InMemory.storage self !! keyOf id = None))
          (decide (keyOf id ∈ InMemory.Object_prototype)).

(** The timestamps of [ts] inside the trailing window of length [interval]
    that ends at the clock reading [now]. *)
Definition inWindow (interval now : Z) (ts : list Z) : list Z :=
  filter (λ t, now - interval < t) ts.

(** All readings of [ts] lie less than [interval] apart. *)
Definition within (interval : Z) (ts : list Z) : Prop :=
  ∀ t t', t ∈ ts → t' ∈ ts → t' - t < interval.

(** The readings of [ts] never decrease. *)
Definition nondecreasing (ts : list Z) : Prop := StronglySorted Z.le ts.

(** The clock readings and the tokens a sequence of calls hands to
    [getTimestamps]. *)
Definition clock (calls : list (Tick * Call)) : list Z := (λ c, now c.1) <$> calls.

Definition tokens (calls : list (Tick * Call)) : list string := (λ c, uuid c.1) <$> calls.

(** The clock readings of a sequence of events, and its public calls. *)
Definition readings (events : list Event) : list Z :=
  (λ e, match e with Invoke tick _ => now tick | Elapse reading _ => reading end) <$> events.

Definition calls_of (events : list Event) : list (Tick * Call) :=
  omap (λ e, match e with Invoke tick c => Some (tick, c) | Elapse _ _ => None end) events.

(** Calls of [limit] for one identifier, one per tick. *)
Definition attempts (id : Id) (ticks : list Tick) : list (Tick * Call) :=
  (λ tick, (tick, Limit id)) <$> ticks.

(** The identifier a call is about, whether it records a timestamp, and what
    the caller sees once the store has handed back [timestamps]. *)
Definition call_id (c : Call) : Id :=
  match c with
  | Limit id | WouldLimit id _ | LimitWithInfo id | WouldLimitWithInfo id _ | Clear id => id
  end.

Definition call_adds (c : Call) : bool :=
  match c with
  | Limit _ | LimitWithInfo _ => true
  | _ => false
  end.

Definition call_outcome (base : RateLimiter) (timestamps : list num) (c : Call) : Outcome :=
  match c with
  | Limit _ => Verdict (blocked (Base.calculateInfo base timestamps false))
  | LimitWithInfo _ => Info (Base.calculateInfo base timestamps false)
  | WouldLimit _ currentTimestamp =>
      Verdict (blocked (Base.calculateInfo base (timestamps ++ [Some currentTimestamp]) true))
  | WouldLimitWithInfo _ currentTimestamp =>
      Info (Base.calculateInfo base (timestamps ++ [Some currentTimestamp]) true)
  | Clear _ => Done
  end.

(** The call reads the store for an identifier that names a member of
    [Object.prototype] and has no array of its own. *)
Definition reads (c : Call) : bool :=
  match c with
  | Clear _ => false
  | _ => true
  end.

Definition rejects (self : InMemory.InMemoryRateLimiter) (c : Call) : Prop :=
  inherited self (call_id c) ∧ reads c = true.

Global Instance rejects_dec (self : InMemory.InMemoryRateLimiter) (c : Call)
  : Decision (rejects self c) :=
  and_dec (decide (inherited self (call_id c))) (decide (reads c = true)).

(** The public calls of a sequence, as events with no run of the event loop
    in between. *)
Definition invocations (calls : list (Tick * Call)) : list Event :=
  (λ c, Invoke c.1 c.2) <$> calls.

(** A call that was answered: the promise resolved, and a verdict carries a
    number as its wait. *)
Definition answered (o : Outcome) : Prop :=
  match o with
  | Rejected _ => False
  | Info info => is_Some (millisecondsUntilAllowed info)
  | _ => True
  end.

(** Every stored list is ascending and holds no timestamp later than the
    reading [now]. *)
Definition tidy (now : Z) (self : InMemory.InMemoryRateLimiter) : Prop :=
  ∀ key ts, InMemory.storage self !! key = Some ts →
    StronglySorted Z.le ts ∧ ∀ t, t ∈ ts → t <= now.

(** No array is stored under a name of [Object.prototype]. *)
Definition clean (self : InMemory.InMemoryRateLimiter) : Prop :=
  ∀ key, key ∈ InMemory.Object_prototype → InMemory.storage self !! key = None.

(** Every pending timer waits at least as long as the window, and was set no
    earlier than any timestamp stored for its identifier. *)
Definition covered (self : InMemory.InMemoryRateLimiter) : Prop :=
  ∀ key timer, InMemory.ttls self !! key = Some timer →
    interval (InMemory.base self) <= millisecondsToMicroseconds (InMemory.idleTimeout timer)
    ∧ ∀ t, t ∈ default [] (InMemory.storage self !! key) → t <= InMemory.idleStart timer.

(** Two in-memory limiters with the same configuration that hold, for every
    identifier, the same timestamps inside the window ending at [reading],
    and that reject the same reads: they differ at most in timestamps that
    have expired by then. *)
Definition agree (reading : Z) (a b : InMemory.InMemoryRateLimiter) : Prop :=
  InMemory.base a = InMemory.base b
  ∧ (∀ id, inWindow (interval (InMemory.base a)) reading (stored a id)
           = inWindow (interval (InMemory.base a)) reading (stored b id))
  ∧ ∀ id, inherited a id ↔ inherited b id.

(** The sorted set Redis holds for an identifier. *)
Definition members (self : Redis.RedisRateLimiter) (id : Id) : Server.zset :=
  Server.lookup_set (Redis.makeKey self id) (Redis.server (Redis.client self)).

(** The entries a [ZREMRANGEBYSCORE key 0 clearBefore] leaves in place. *)
Definition survivors (clearBefore : Z) (z : Server.zset) : Server.zset :=
  filter (λ e, ¬ (0 <= e.2 <= clearBefore)) z.

(** The Redis limiter [r] holds what the in-memory limiter [m] holds: the
    same configuration and, for every identifier, the same timestamps in the
    same order.  The lists are ascending, the timestamps lie between 0 and
    the reading [reading], and the members of the sets are among the tokens
    [used]. *)
Definition mirrors (reading : Z) (used : list string)
    (m : InMemory.InMemoryRateLimiter) (r : Redis.RedisRateLimiter) : Prop :=
  InMemory.base m = Redis.base r
  ∧ 0 <= reading
  ∧ ∀ id, (members r id).*2 = stored m id
          ∧ StronglySorted Z.le (stored m id)
          ∧ (∀ t, t ∈ stored m id → 0 <= t <= reading)
          ∧ (∀ e, e ∈ members r id → e.1 ∈ used).

(** ** Sample limiters

    The options of the test suite: a window of 10 ms, limits of 2 and of 3
    actions, without and with a minimal distance of 2 ms; the limiters the
    constructors build from them; the identifier of the tests; and a tick
    whose clock reading is given in milliseconds. *)

Definition options_10_2 : RateLimiterOptions :=
  {| opt_interval := Some 10; opt_maxInInterval := Some 2; opt_minDifference := None |}.

Definition options_10_3 : RateLimiterOptions :=
  {| opt_interval := Some 10; opt_maxInInterval := Some 3; opt_minDifference := None |}.

Definition options_10_3_2 : RateLimiterOptions :=
  {| opt_interval := Some 10; opt_maxInInterval := Some 3; opt_minDifference := Some 2 |}.

Definition limiter_10_2 : RateLimiter :=
  {| interval := 10000; maxInInterval := 2; minDifference := 0 |}.

Definition limiter_10_3 : RateLimiter :=
  {| interval := 10000; maxInInterval := 3; minDifference := 0 |}.

Definition limiter_10_3_2 : RateLimiter :=
  {| interval := 10000; maxInInterval := 3; minDifference := 2000 |}.

Definition id1 : Id := IdNum 1.

Definition at_ms (milliseconds : Z) (uuid : string) : Tick :=
  {| now := millisecondsToMicroseconds milliseconds; uuid := uuid |}.

Definition memory_10_2 : InMemory.InMemoryRateLimiter :=
  {| InMemory.base := limiter_10_2; InMemory.storage := ∅; InMemory.ttls := ∅ |}.

Definition memory_10_3 : InMemory.InMemoryRateLimiter :=
  {| InMemory.base := limiter_10_3; InMemory.storage := ∅; InMemory.ttls := ∅ |}.

Definition memory_10_3_2 : InMemory.InMemoryRateLimiter :=
  {| InMemory.base := limiter_10_3_2; InMemory.storage := ∅; InMemory.ttls := ∅ |}.

Definition node_redis : Redis.RedisClient :=
  {| Redis.library := Redis.NodeRedis; Redis.server := Server.empty |}.

Definition redis_10_3_2 : Redis.RedisRateLimiter :=
  {| Redis.base := limiter_10_3_2;
     Redis.ttl := 1;
     Redis.client := node_redis;
     Redis.namespace := "limiter:" |}.

(** An in-memory limiter that holds one attempt, made at 8 ms. *)
Definition memory_8000 : InMemory.InMemoryRateLimiter :=
  {| InMemory.base := limiter_10_3_2;
     InMemory.storage := {[ "1" := [8000] ]};
     InMemory.ttls := {[ "1" := InMemory.setTimeout 8000 10 ]} |}.

(** A window of 2^31 ms, one millisecond more than the longest delay a timer
    of Node.js keeps, with a limit of one action. *)
Definition options_long : RateLimiterOptions :=
  {| opt_interval := Some 2147483648; opt_maxInInterval := Some 1;
     opt_minDifference := None |}.

Definition limiter_long : RateLimiter :=
  {| interval := 2147483648000; maxInInterval := 1; minDifference := 0 |}.

Definition memory_long : InMemory.InMemoryRateLimiter :=
  {| InMemory.base := limiter_long; InMemory.storage := ∅; InMemory.ttls := ∅ |}.

Definition redis_long : Redis.RedisRateLimiter :=
  {| Redis.base := limiter_long;
     Redis.ttl := 2147484;
     Redis.client := node_redis;
     Redis.namespace := "limiter:" |}.

(** Five attempts within one window of 10 ms. *)
Definition five_ticks : list Tick :=
  [at_ms 0 "a"; at_ms 0 "b"; at_ms 0 "c"; at_ms 9 "d"; at_ms 9 "e"].

(** The in-memory limiter after two attempts at the start of the epoch. *)
Definition memory_two_attempts : InMemory.InMemoryRateLimiter :=
  (run memory_10_2 [(at_ms 0 "a", Limit id1); (at_ms 0 "b", Limit id1)]).2.

(** A Redis limiter, reached through [ioredis], whose set for [id1] holds an
    entry at the start of the epoch and one at 4 ms. *)
Definition redis_10_3 : Redis.RedisRateLimiter :=
  {| Redis.base := limiter_10_3;
     Redis.ttl := 1;
     Redis.client :=
       {| Redis.library := Redis.IORedis;
          Redis.server :=
            {| Server.sets := {[ "limiter:1" := [("a", 0); ("b", 4000)] ]};
               Server.expires := {[ "limiter:1" := 1 ]} |} |};
     Redis.namespace := "limiter:" |}.

(** Two attempts, the second one made while the clock reads 2 ms less than
    at the first. *)
Definition clock_runs_backwards : list (Tick * Call) :=
  [(at_ms 5 "a", Limit id1); (at_ms 3 "b", Limit id1)].

(** The attempts of the scenario "prevents actions less than minDistance
    apart" of the test suite (which runs them against a limit of 4). *)
Definition attempts_too_close : list (Tick * Call) :=
  [(at_ms 0 "a", Limit id1); (at_ms 0 "b", Limit id1); (at_ms 1 "c", Limit id1);
   (at_ms 3 "d", Limit id1); (at_ms 3 "e", Limit id1)].

(** ** Notions used in the further properties *)

(** A call that only asks: [wouldLimit] or [wouldLimitWithInfo]. *)
Definition speculative (c : Call) : Prop :=
  match c with
  | WouldLimit _ _ | WouldLimitWithInfo _ _ => True
  | _ => False
  end.

(** The messages of the three assertions of the constructor. *)
Definition interval_message : string :=
  "Must pass a positive integer for `options.interval`".

Definition maxInInterval_message : string :=
  "Must pass a positive integer for `options.maxInInterval`".

Definition minDifference_message : string :=
  "`options.minDifference` cannot be negative".

(** [x > 0] for an option that may be missing. *)
Definition positive_option (x : option Z) : Prop := ∃ v, x = Some v ∧ 0 < v.

(** The expiry Redis holds for the key of an identifier, in seconds. *)
Definition expiry (self : Redis.RedisRateLimiter) (id : Id) : option Z :=
  Server.expires (Redis.server (Redis.client self)) !! Redis.makeKey self id.

(** The same limiter talking to the server in the state [other] has left
    it in: two processes that share one Redis. *)
Definition sharing (self other : Redis.RedisRateLimiter) : Redis.RedisRateLimiter :=
  Redis.with_client self
    {| Redis.library := Redis.library (Redis.client self);
       Redis.server := Redis.server (Redis.client other) |}.

(** A second Redis limiter of the same server whose namespace continues the
    namespace of [redis_10_3_2]. *)
Definition redis_users : Redis.RedisRateLimiter :=
  {| Redis.base := limiter_10_3;
     Redis.ttl := 1;
     Redis.client := node_redis;
     Redis.namespace := "limiter:user" |}.

(** The identifier an event is about. *)
Definition event_id (e : Event) : Id :=
  match e with
  | Invoke _ c => call_id c
  | Elapse _ id => id
  end.

(** None of the events is about the identifier [id], nor about one with the
    same key. *)
Definition elsewhere (id : Id) (events : list Event) : Prop :=
  ∀ e, e ∈ events → keyOf (event_id e) ≠ keyOf id.

(** The set Redis holds for an identifier after a read: the survivors of the
    pruning and, when a timestamp is added, the new entry in its place. *)
Definition set_after (self : Redis.RedisRateLimiter) (tick : Tick) (id : Id)
    (addNew : bool) : Server.zset :=
  let kept := survivors (now tick - interval (Redis.base self)) (members self id) in
  if addNew
  then Server.place (uuid tick, now tick) (filter (λ e, e.1 ≠ uuid tick) kept)
  else kept.

(** The limiter [self] talking to the same server through the client
    library [lib]. *)
Definition through (lib : Redis.Library) (self : Redis.RedisRateLimiter)
  : Redis.RedisRateLimiter :=
  Redis.with_client self
    {| Redis.library := lib; Redis.server := Redis.server (Redis.client self) |}.

(** Every set of the limiter is in the order of its scores and holds each
    member once. *)
Definition well_kept (self : Redis.RedisRateLimiter) : Prop :=
  ∀ id, StronglySorted Z.le (members self id).*2 ∧ NoDup (members self id).*1.

(** * Properties *)

(** Evaluate the steps of a promise chain whose first outcome is known. *)
Ltac settle_completion :=
  cbn [mbind completion_bind fmap completion_fmap] in *;
  unfold mret, completion_ret in *.

(** ** Unit conversions *)

Lemma microsecondsToMilliseconds_ceiling (x : Z) :
  x <= 1000 * microsecondsToMilliseconds x < x + 1000.
Proof.
  unfold microsecondsToMilliseconds.
  pose proof (Z.div_mod (- x) 1000 ltac:(lia)) as Hdm.
  pose proof (Z.mod_pos_bound (- x) 1000 ltac:(lia)) as Hb.
  lia.
Qed.

Lemma microsecondsToMilliseconds_exact (k : Z) :
  microsecondsToMilliseconds (millisecondsToMicroseconds k) = k.
Proof.
  pose proof (microsecondsToMilliseconds_ceiling (millisecondsToMicroseconds k)) as Hc.
  unfold millisecondsToMicroseconds in *. lia.
Qed.

Lemma microsecondsToMilliseconds_mono (x y : Z) :
  x <= y → microsecondsToMilliseconds x <= microsecondsToMilliseconds y.
Proof.
  intros Hxy. pose proof (microsecondsToMilliseconds_ceiling x).
  pose proof (microsecondsToMilliseconds_ceiling y). lia.
Qed.

(** ** The constructor *)

Lemma constructor_Return (options : RateLimiterOptions) (self : RateLimiter) :
  Base.constructor options = Return self ↔
  ∃ i m, opt_interval options = Some i ∧ 0 < i
       ∧ opt_maxInInterval options = Some m ∧ 0 < m
       ∧ 0 <= default 0 (opt_minDifference options)
       ∧ self = {| interval := millisecondsToMicroseconds i;
                   maxInInterval := m;
                   minDifference :=
                     millisecondsToMicroseconds (default 0 (opt_minDifference options)) |}.
Proof.
  unfold Base.constructor, assert_positive, assert. cbv zeta.
  destruct (opt_interval options) as [i|], (opt_maxInInterval options) as [m|];
    repeat case_bool_decide; split;
    try (intros [= <-]; exists i, m; done);
    try done;
    try (intros (?&?&?&?&?&?&?&?); simplify_eq; (done || lia)).
Qed.

(** A constructed limiter has a positive window, a positive limit and a
    minimal distance that is not negative. *)
Lemma constructor_valid (options : RateLimiterOptions) (self : RateLimiter) :
  Base.constructor options = Return self →
  0 < interval self ∧ 0 < maxInInterval self ∧ 0 <= minDifference self.
Proof.
  intros (i & m & _ & Hi & _ & Hm & Hd & ->)%constructor_Return.
  unfold millisecondsToMicroseconds. simpl. lia.
Qed.

(** ** Array indexing *)

Lemma index_fmap {A B : Type} (f : A → B) (a : list A) (i : Z) :
  index (f <$> a) i = f <$> index a i.
Proof. unfold index. case_decide; [|done]. apply list_lookup_fmap. Qed.

Lemma toNumber_Some (v : option Z) : toNumber (Some <$> v) = v.
Proof. by destruct v. Qed.

Lemma index_last {A : Type} (a : list A) (x : A) :
  index (a ++ [x]) (Z.of_nat (length (a ++ [x])) - 1) = Some x.
Proof.
  unfold index. rewrite length_app. simpl. case_decide; [|lia].
  replace (Z.to_nat _) with (length a + 0)%nat by lia.
  by rewrite lookup_app_r, Nat.add_comm, Nat.add_sub by lia.
Qed.

Lemma index_in_range {A : Type} (a : list A) (i : Z) :
  0 <= i < Z.of_nat (length a) → ∃ x, index a i = Some x ∧ a !! Z.to_nat i = Some x.
Proof.
  intros Hi. unfold index. case_decide; [|lia].
  destruct (lookup_lt_is_Some_2 a (Z.to_nat i)) as [x Hx]; [lia|]. eauto.
Qed.

Lemma index_out_of_range {A : Type} (a : list A) (i : Z) :
  i < 0 ∨ Z.of_nat (length a) <= i → index a i = None.
Proof.
  intros Hi. unfold index. case_decide; [|done].
  apply lookup_ge_None_2. lia.
Qed.

(** ** The decision procedure *)

Section CalculateInfo.
Variable self : RateLimiter.

Lemma calculateInfo_blockedDueToCount (timestamps : list num) (isWould : bool) :
  blockedDueToCount (Base.calculateInfo self timestamps isWould)
  = bool_decide (maxInInterval self < Z.of_nat (length timestamps)).
Proof. by destruct isWould. Qed.

Lemma calculateInfo_blocked (timestamps : list num) (isWould : bool) :
  blocked (Base.calculateInfo self timestamps isWould)
  = blockedDueToCount (Base.calculateInfo self timestamps isWould)
    || blockedDueToMinDifference (Base.calculateInfo self timestamps isWould).
Proof. by destruct isWould. Qed.

Lemma calculateInfo_actionsRemaining (timestamps : list num) (isWould : bool) :
  actionsRemaining (Base.calculateInfo self timestamps isWould)
  = Z.max 0 (maxInInterval self - Z.of_nat (length timestamps)).
Proof. by destruct isWould. Qed.

(** With at least two integer timestamps the distance check compares the
    last two; the comparison is signed. *)
Lemma calculateInfo_blockedDueToMinDifference
    (ts : list Z) (previous current : Z) (isWould : bool) :
  blockedDueToMinDifference
    (Base.calculateInfo self (Some <$> ts ++ [previous; current]) isWould)
  = bool_decide (0 < minDifference self)
    && bool_decide (current - previous < minDifference self).
Proof.
  assert (blockedDueToMinDifference
            (Base.calculateInfo self (Some <$> ts ++ [previous; current]) isWould)
          = bool_decide (is_Some (index (Some <$> ts ++ [previous; current])
                                    (Z.of_nat (length (Some <$> ts ++ [previous; current])) - 2)))
            && bool_decide (0 < minDifference self)
            && num_lt (num_sub
                 (toNumber (index (Some <$> ts ++ [previous; current])
                    (Z.of_nat (length (Some <$> ts ++ [previous; current])) - 1)))
                 (toNumber (index (Some <$> ts ++ [previous; current])
                    (Z.of_nat (length (Some <$> ts ++ [previous; current])) - 2))))
                 (Some (minDifference self))) as -> by (by destruct isWould).
  rewrite !index_fmap, !toNumber_Some, length_fmap.
  replace (ts ++ [previous; current]) with ((ts ++ [previous]) ++ [current])
    by (by rewrite <- app_assoc).
  rewrite index_last.
  assert (index ((ts ++ [previous]) ++ [current])
            (Z.of_nat (length ((ts ++ [previous]) ++ [current])) - 2) = Some previous) as ->.
  { unfold index. rewrite !length_app. simpl. case_decide; [|lia].
    replace (Z.to_nat _) with (length ts) by lia.
    rewrite <- app_assoc. simpl. by apply list_lookup_middle. }
  rewrite bool_decide_eq_true_2 by (apply fmap_is_Some; eauto). done.
Qed.

(** Without a minimal distance the distance check is switched off. *)
Lemma calculateInfo_no_minDifference (timestamps : list num) (isWould : bool) :
  minDifference self = 0 →
  blockedDueToMinDifference (Base.calculateInfo self timestamps isWould) = false.
Proof.
  intros Hmd.
  assert (bool_decide (0 < minDifference self) = false) as Hguard
    by (apply bool_decide_eq_false_2; lia).
  destruct isWould; cbv beta iota zeta delta [Base.calculateInfo blockedDueToMinDifference];
    rewrite Hguard; by rewrite andb_false_r.
Qed.

(** The wait reported for a list of integer timestamps that ends with the
    current one, in both modes. *)
Lemma calculateInfo_millisecondsUntilAllowed (ts : list Z) (current : Z) :
  0 < maxInInterval self →
  let timestamps := ts ++ [current] in
  let count := Z.of_nat (length timestamps) in
  ∃ t, timestamps !! Z.to_nat (Z.max 0 (count - maxInInterval self)) = Some t
     ∧ ∀ isWould,
         millisecondsUntilAllowed (Base.calculateInfo self (Some <$> timestamps) isWould)
         = Some (microsecondsToMilliseconds
                   (if isWould then t - current + interval self
                    else Z.max (minDifference self)
                           (if bool_decide (maxInInterval self <= count)
                            then t - current + interval self else 0))).
Proof.
  intros Hmax timestamps count.
  destruct (index_in_range timestamps (Z.max 0 (count - maxInInterval self)))
    as (t & Hidx & Ht).
  { subst count timestamps. rewrite length_app. simpl. lia. }
  exists t. split; [done|]. intros isWould.
  destruct isWould;
    cbv beta iota zeta delta [Base.calculateInfo millisecondsUntilAllowed];
    match goal with
    | |- context [num_add ?a ?b] =>
        assert (num_add a b = Some (t - current + interval self)) as ->
    end;
    try (rewrite !index_fmap, !toNumber_Some, length_fmap; fold count;
         rewrite Hidx; subst count timestamps; by rewrite index_last);
    [done|].
  rewrite length_fmap. fold count. by case_bool_decide.
Qed.

End CalculateInfo.

(** ** The in-memory store *)

Section InMemoryStore.
Variable self : InMemory.InMemoryRateLimiter.

Lemma InMemory_refresh_result (currentTimestamp : Z) (id : Id) (addNew : bool) :
  (InMemory.refresh self currentTimestamp id addNew).1
  = inWindow (interval (InMemory.base self)) currentTimestamp (stored self id)
    ++ (if addNew then [currentTimestamp] else []).
Proof.
  unfold InMemory.refresh, inWindow, stored.
  destruct addNew; simpl; [done|]. by rewrite app_nil_r.
Qed.

Lemma InMemory_refresh_base (currentTimestamp : Z) (id : Id) (addNew : bool) :
  InMemory.base (InMemory.refresh self currentTimestamp id addNew).2
  = InMemory.base self.
Proof. unfold InMemory.refresh. by destruct addNew. Qed.

Lemma InMemory_refresh_storage (currentTimestamp : Z) (id : Id) (addNew : bool) :
  InMemory.storage (InMemory.refresh self currentTimestamp id addNew).2
  = <[keyOf id := (InMemory.refresh self currentTimestamp id addNew).1]>
      (InMemory.storage self).
Proof. unfold InMemory.refresh. by destruct addNew. Qed.

Lemma InMemory_refresh_stored (currentTimestamp : Z) (id : Id) (addNew : bool) :
  stored (InMemory.refresh self currentTimestamp id addNew).2 id
  = (InMemory.refresh self currentTimestamp id addNew).1.
Proof.
  unfold stored. by rewrite InMemory_refresh_storage, lookup_insert_eq.
Qed.

Lemma InMemory_refresh_stored_ne
    (currentTimestamp : Z) (id id' : Id) (addNew : bool) :
  keyOf id ≠ keyOf id' →
  stored (InMemory.refresh self currentTimestamp id addNew).2 id' = stored self id'.
Proof.
  intros Hne. unfold stored.
  by rewrite InMemory_refresh_storage, lookup_insert_ne.
Qed.

(** A read throws exactly when it finds an inherited member; otherwise it
    returns what [refresh] computes. *)
Lemma InMemory_getTimestamps_inherited (currentTimestamp : Z) (id : Id) (addNew : bool) :
  inherited self id →
  InMemory.getTimestamps self currentTimestamp id addNew = Throw "TypeError".
Proof.
  intros [Hnone Hproto]. unfold InMemory.getTimestamps.
  by rewrite Hnone, bool_decide_eq_true_2.
Qed.

Lemma InMemory_getTimestamps_own (currentTimestamp : Z) (id : Id) (addNew : bool) :
  ¬ inherited self id →
  InMemory.getTimestamps self currentTimestamp id addNew
  = Return (InMemory.refresh self currentTimestamp id addNew).
Proof.
  intros Hown. unfold InMemory.getTimestamps.
  destruct (InMemory.storage self !! keyOf id) eqn:Hkey; [done|].
  case_bool_decide; [|done]. by destruct Hown.
Qed.

Lemma InMemory_getTimestamps_Return (currentTimestamp : Z) (id : Id) (addNew : bool)
    (result : list Z * InMemory.InMemoryRateLimiter) :
  InMemory.getTimestamps self currentTimestamp id addNew = Return result ↔
  ¬ inherited self id ∧ result = InMemory.refresh self currentTimestamp id addNew.
Proof.
  destruct (decide (inherited self id)) as [Hin|Hown].
  - rewrite InMemory_getTimestamps_inherited by done. naive_solver.
  - rewrite InMemory_getTimestamps_own by done. naive_solver.
Qed.

Lemma plain_own (id : Id) : plain id → ¬ inherited self id.
Proof. intros Hplain [_ Hproto]. by apply Hplain. Qed.

Lemma getTimestamps_own (tick : Tick) (id : Id) (addNew : bool) :
  ¬ inherited self id →
  getTimestamps self tick id addNew
  = Return (Some <$> (InMemory.refresh self (now tick) id addNew).1,
            (InMemory.refresh self (now tick) id addNew).2).
Proof.
  intros Hown. cbn [getTimestamps InMemory_Limiter].
  rewrite InMemory_getTimestamps_own by done.
  by destruct (InMemory.refresh self (now tick) id addNew).
Qed.

Lemma getTimestamps_inherited (tick : Tick) (id : Id) (addNew : bool) :
  inherited self id → getTimestamps self tick id addNew = Throw "TypeError".
Proof.
  intros Hin. cbn [getTimestamps InMemory_Limiter].
  by rewrite InMemory_getTimestamps_inherited.
Qed.

Lemma InMemory_limitWithInfo (tick : Tick) (id : Id) :
  ¬ inherited self id →
  limitWithInfo self tick id
  = Return (Base.calculateInfo (InMemory.base self)
              (Some <$> (InMemory.refresh self (now tick) id true).1) false,
            (InMemory.refresh self (now tick) id true).2).
Proof. intros Hown. unfold limitWithInfo. by rewrite getTimestamps_own. Qed.

Lemma InMemory_wouldLimitWithInfo (tick : Tick) (currentTimestamp : Z) (id : Id) :
  ¬ inherited self id →
  wouldLimitWithInfo self tick currentTimestamp id
  = Return (Base.calculateInfo (InMemory.base self)
              (Some <$> (InMemory.refresh self (now tick) id false).1
                          ++ [currentTimestamp]) true,
            (InMemory.refresh self (now tick) id false).2).
Proof.
  intros Hown. unfold wouldLimitWithInfo. rewrite getTimestamps_own by done.
  settle_completion. by rewrite fmap_app.
Qed.

End InMemoryStore.

(** Clearing removes the two entries of the identifier, as the callback of
    the timer does. *)
Lemma InMemory_clear_onTimeout (self : InMemory.InMemoryRateLimiter) (id : Id) :
  InMemory.clear self id = InMemory.onTimeout self id.
Proof.
  unfold InMemory.clear, InMemory.onTimeout.
  destruct (InMemory.ttls self !! keyOf id) eqn:Httl; [done|].
  by rewrite (delete_id (InMemory.ttls self)).
Qed.

Lemma InMemory_refresh_ttls
    (self : InMemory.InMemoryRateLimiter) (currentTimestamp : Z) (id : Id) (addNew : bool) :
  InMemory.ttls (InMemory.refresh self currentTimestamp id addNew).2
  = if addNew
    then <[keyOf id := InMemory.setTimeout currentTimestamp
                         (microsecondsToMilliseconds (interval (InMemory.base self)))]>
           (InMemory.ttls self)
    else InMemory.ttls self.
Proof. unfold InMemory.refresh. by destruct addNew. Qed.

Lemma InMemory_clear_storage (self : InMemory.InMemoryRateLimiter) (id : Id) :
  InMemory.storage (InMemory.clear self id) = delete (keyOf id) (InMemory.storage self).
Proof. unfold InMemory.clear. by case_match. Qed.


(** ** Strings and numbers *)

(** A score sent as [String (now)] is read back as [now]. *)
Lemma Number_String_of (n : Z) : Number (String_of n) = Some n.
Proof.
  unfold Number, String_of.
  rewrite NilZero.isi.
  - simpl. by rewrite DecimalZ.of_to.
  - destruct n; simpl; try done. intros [= Hp]. by apply Unsigned.to_uint_nonnil in Hp.
  - destruct n; simpl; try done. intros [= Hp]. by apply Unsigned.to_uint_nonnil in Hp.
Qed.

(** No number reads as a name of [Object.prototype]. *)
Lemma IdNum_plain (n : Z) : plain (IdNum n).
Proof.
  unfold plain. cbn [keyOf]. intros Hin.
  assert (Number (String_of n) = None) as Hnone; [|by rewrite Number_String_of in Hnone].
  revert Hin. generalize (String_of n). intros s Hs.
  unfold InMemory.Object_prototype in Hs.
  repeat (apply elem_of_cons in Hs as [->|Hs]; [vm_compute; reflexivity|]).
  by apply elem_of_nil in Hs.
Qed.

(** ** The Redis server *)

Section ServerFacts.
Import Server.

Lemma lookup_store_set (key : string) (z : zset) (s : Server.t) :
  lookup_set key (store_set key z s) = z.
Proof.
  unfold lookup_set, store_set. destruct z; simpl.
  - by rewrite lookup_delete_eq.
  - by rewrite lookup_insert_eq.
Qed.

Lemma lookup_store_set_ne (key key' : string) (z : zset) (s : Server.t) :
  key ≠ key' → lookup_set key' (store_set key z s) = lookup_set key' s.
Proof.
  intros Hne. unfold lookup_set, store_set. destruct z; simpl.
  - by rewrite lookup_delete_ne.
  - by rewrite lookup_insert_ne.
Qed.

Lemma run_EXPIRE_sets (key : string) (seconds : Z) (s : Server.t) :
  sets (run (EXPIRE key seconds) s).2 = sets s.
Proof. simpl. by case_decide. Qed.

Lemma lookup_run_EXPIRE (key key' : string) (seconds : Z) (s : Server.t) :
  lookup_set key' (run (EXPIRE key seconds) s).2 = lookup_set key' s.
Proof. unfold lookup_set. by rewrite run_EXPIRE_sets. Qed.

Lemma exec_cons (c : Command) (batch : list Command) (s : Server.t) :
  exec (c :: batch) s
  = ((run c s).1 :: (exec batch (run c s).2).1, (exec batch (run c s).2).2).
Proof.
  change (exec (c :: batch) s)
    with (let '(r, s') := run c s in let '(rs, s'') := exec batch s' in (r :: rs, s'')).
  destruct (run c s) as [r s']. cbn [fst snd]. by destruct (exec batch s').
Qed.

Lemma run_ZREMRANGEBYSCORE_state (key : string) (min max : Z) (s : Server.t) :
  (run (ZREMRANGEBYSCORE key min max) s).2
  = store_set key (filter (λ e, ¬ (min <= e.2 <= max)) (lookup_set key s)) s.
Proof. done. Qed.

Lemma run_ZADD_state (key member : string) (score : Z) (s : Server.t) :
  (run (ZADD key (String_of score) member) s).2
  = store_set key
      (place (member, score) (filter (λ e, e.1 ≠ member) (lookup_set key s))) s.
Proof. simpl. by rewrite Number_String_of. Qed.

Lemma run_ZRANGE (key : string) (s : Server.t) :
  run (ZRANGE_ALL_WITHSCORES key) s
  = (Multi (lookup_set key s ≫= λ e, [Bulk e.1; Bulk (String_of e.2)]), s).
Proof. done. Qed.

End ServerFacts.

(** ** Reading the reply of [ZRANGE ... WITHSCORES] *)

Lemma filter_index_odd_pairs {A B : Type} (f g : A → B) (l : list A) (i : nat) :
  (i mod 2 = 0)%nat →
  Redis.filter_index (λ i, negb (i mod 2 =? 0)%nat) i (l ≫= λ e, [f e; g e]) = g <$> l.
Proof.
  revert i. induction l as [|e l IH]; intros i Hi; [done|].
  cbn [mbind list_bind]. change (Redis.filter_index ?p i ([f e; g e] ++ ?r))
    with (if p i then f e :: (if p (S i) then g e :: Redis.filter_index p (S (S i)) r
                              else Redis.filter_index p (S (S i)) r)
          else (if p (S i) then g e :: Redis.filter_index p (S (S i)) r
                else Redis.filter_index p (S (S i)) r)).
  cbv beta.
  assert (S i mod 2 = 1)%nat as HS.
  { replace (S i) with (1 + i)%nat by lia. rewrite <- Nat.Div0.add_mod_idemp_r, Hi. done. }
  assert (S (S i) mod 2 = 0)%nat as HSS.
  { replace (S (S i)) with (1 + S i)%nat by lia. rewrite <- Nat.Div0.add_mod_idemp_r, HS. done. }
  rewrite Hi, HS. simpl. f_equal. by apply IH.
Qed.

(** Whatever the client library, the timestamps extracted from the reply to
    the range read are the scores of the set, in its order. *)
Lemma extractTimestamps_reply (z : Server.zset) :
  let flat := z ≫= λ e, [Server.Bulk e.1; Server.Bulk (String_of e.2)] in
  Redis.extractTimestampsFromZRangeResult (Redis.getZRangeResult flat) = Some <$> z.*2
  ∧ Redis.extractTimestampsFromZRangeResult
      (Redis.getZRangeResult [Server.Null; Server.Multi flat]) = Some <$> z.*2.
Proof.
  intros flat.
  assert (Redis.extractTimestampsFromZRangeResult flat = Some <$> z.*2) as Hflat.
  { unfold Redis.extractTimestampsFromZRangeResult. subst flat.
    rewrite filter_index_odd_pairs by done.
    rewrite <- !list_fmap_compose. apply list_fmap_ext. intros _ e _. simpl.
    apply Number_String_of. }
  split; [|done].
  unfold Redis.getZRangeResult.
  destruct z as [|e z]; [done|]. subst flat. simpl. exact Hflat.
Qed.

(** ** The Redis store *)

Section RedisStore.
Variable self : Redis.RedisRateLimiter.

(** What one [getTimestamps] does: the expired entries go, the new entry is
    placed, the scores of the resulting set come back, and every other key is
    left alone. *)
Lemma Redis_getTimestamps_spec (tick : Tick) (id : Id) (addNew : bool) :
  let kept := survivors (now tick - interval (Redis.base self)) (members self id) in
  let set' :=
    if addNew
    then Server.place (uuid tick, now tick) (filter (λ e, e.1 ≠ uuid tick) kept)
    else kept in
  ∃ self',
    Redis.getTimestamps self tick id addNew = Return (Some <$> set'.*2, self')
    ∧ Redis.base self' = Redis.base self
    ∧ Redis.namespace self' = Redis.namespace self
    ∧ Redis.ttl self' = Redis.ttl self
    ∧ Redis.library (Redis.client self') = Redis.library (Redis.client self)
    ∧ members self' id = set'
    ∧ ∀ id', keyOf id' ≠ keyOf id → members self' id' = members self id'.
Proof.
  intros kept set'.
  set (key := Redis.makeKey self id).
  set (s0 := Redis.server (Redis.client self)).
  set (s1 := Server.store_set key kept s0).
  assert (Server.lookup_set key s1 = kept) as Hkept by apply lookup_store_set.
  set (s2 := if addNew then Server.store_set key set' s1 else s1).
  assert (Server.lookup_set key s2 = set') as Hset.
  { subst s2 set'. destruct addNew; [apply lookup_store_set|done]. }
  set (s3 := (Server.run (Server.EXPIRE key (Redis.ttl self)) s2).2).
  assert (∀ key', Server.lookup_set key' s3 = Server.lookup_set key' s2) as Hs3
    by (intros; apply lookup_run_EXPIRE).
  assert (∀ key', key' ≠ key → Server.lookup_set key' s2 = Server.lookup_set key' s0)
    as Hother.
  { intros key' Hne. subst s2 s1.
    destruct addNew; rewrite ?lookup_store_set_ne by done; done. }
  destruct (extractTimestamps_reply set') as [Hnode Hio].
  exists (Redis.with_client self
            {| Redis.library := Redis.library (Redis.client self); Redis.server := s3 |}).
  split.
  - assert ((Server.run (Server.ZREMRANGEBYSCORE key 0
                 (now tick - interval (Redis.base self))) s0).2 = s1) as Hrem by done.
    assert (addNew = true →
            (Server.run (Server.ZADD key (String_of (now tick)) (uuid tick)) s1).2 = s2)
      as Hadd.
    { intros ->. by rewrite run_ZADD_state, Hkept. }
    unfold Redis.getTimestamps, Redis.client_exec. fold key s0.
    destruct addNew; cbn [app]; rewrite !exec_cons; cbn [Server.exec fst snd];
      rewrite Hrem, ?Hadd by done;
      [|change s1 with s2];
      rewrite run_ZRANGE, Hset; cbn [fst snd]; fold s3;
      destruct (Redis.library (Redis.client self)); cbn [fmap list_fmap lookup list_lookup];
      by rewrite ?Hnode, ?Hio.
  - repeat split; try done.
    + unfold members. simpl. change (Redis.makeKey _ id) with key. by rewrite Hs3.
    + intros id' Hne. unfold members. simpl.
      change (Redis.makeKey (Redis.with_client self _) id') with (Redis.makeKey self id').
      rewrite Hs3. apply Hother. unfold key, Redis.makeKey.
      intros Heq. apply Hne. by apply (inj (String.app (Redis.namespace self))) in Heq.
Qed.

End RedisStore.

(** * The claims about the decision procedure *)

(** C2. Committed mode, on a list of timestamps that ends with the current
    one: below the limit the wait is the minimal distance alone (0 when there
    is none); at or above the limit it is the larger of the minimal distance
    and the time until the timestamp at position [count - maxInInterval]
    leaves the window; the conversion to milliseconds rounds up, never
    down. *)
Theorem committed_wait
    (options : RateLimiterOptions) (self : RateLimiter) (ts : list Z) (current : Z) :
  Base.constructor options = Return self →
  let timestamps := ts ++ [current] in
  let count := Z.of_nat (length timestamps) in
  let wait :=
    millisecondsUntilAllowed (Base.calculateInfo self (Some <$> timestamps) false) in
  (count < maxInInterval self →
     wait = Some (microsecondsToMilliseconds (minDifference self))
     ∧ wait = Some (default 0 (opt_minDifference options)))
  ∧ (maxInInterval self <= count →
     ∃ t, timestamps !! Z.to_nat (count - maxInInterval self) = Some t
        ∧ wait = Some (microsecondsToMilliseconds
                         (Z.max (minDifference self) (t - current + interval self))))
  ∧ (∀ microseconds,
       microseconds <= 1000 * microsecondsToMilliseconds microseconds < microseconds + 1000).
Proof.
  intros Hnew timestamps count wait.
  pose proof (constructor_valid _ _ Hnew) as (HI & Hmax & Hmd).
  destruct (calculateInfo_millisecondsUntilAllowed self ts current Hmax)
    as (t & Ht & Hwait).
  fold timestamps count in Ht, Hwait. specialize (Hwait false). fold wait in Hwait.
  cbv beta iota in Hwait.
  split; [|split].
  - intros Hlt. rewrite bool_decide_eq_false_2 in Hwait by lia.
    rewrite Z.max_l in Hwait by lia. split; [done|].
    rewrite Hwait. f_equal.
    apply constructor_Return in Hnew as (i & m & _ & _ & _ & _ & _ & ->).
    apply microsecondsToMilliseconds_exact.
  - intros Hge. rewrite bool_decide_eq_true_2 in Hwait by done.
    exists t. split; [|done]. by rewrite Z.max_r in Ht by lia.
  - apply microsecondsToMilliseconds_ceiling.
Qed.

Lemma committed_wait_witness :
  Base.constructor options_10_3_2 = Return limiter_10_3_2
  ∧ millisecondsUntilAllowed
      (Base.calculateInfo limiter_10_3_2 (Some <$> [0; 4000] ++ [5000]) false) = Some 5.
Proof.
  split; [reflexivity|].
  destruct (committed_wait options_10_3_2 limiter_10_3_2 [0; 4000] 5000 eq_refl)
    as (_ & Hfull & _).
  destruct Hfull as (t & Ht & ->); [simpl; lia|].
  injection Ht as <-. reflexivity.
Defined.

(** C3 as stated fails: with a minimal distance of 2 ms, a candidate at
    3000 that precedes the previous timestamp 5000 is blocked by the distance
    check. *)
Lemma negative_difference_blocks :
  0 < minDifference limiter_10_3_2
  ∧ 3000 < 5000
  ∧ blockedDueToMinDifference
      (Base.calculateInfo limiter_10_3_2 [Some 5000; Some 3000] true) = true
  ∧ blockedDueToMinDifference
      (Base.calculateInfo limiter_10_3_2 [Some 5000; Some 3000] false) = true.
Proof. repeat split; reflexivity. Qed.

(** C3, amended.  With a positive minimal distance, a candidate that precedes
    the previous timestamp does trigger the distance check: the difference is
    negative, hence below the minimal distance, and the candidate is blocked.
    Without a minimal distance the check never triggers, whatever the list. *)
Theorem minDifference_check
    (self : RateLimiter) (ts : list Z) (previous current : Z) (isWould : bool) :
  (0 < minDifference self → current < previous →
     blockedDueToMinDifference
       (Base.calculateInfo self (Some <$> ts ++ [previous; current]) isWould) = true)
  ∧ (minDifference self = 0 →
     ∀ timestamps : list num,
       blockedDueToMinDifference (Base.calculateInfo self timestamps isWould) = false).
Proof.
  split.
  - intros Hmd Hlt. rewrite calculateInfo_blockedDueToMinDifference.
    by rewrite !bool_decide_eq_true_2 by lia.
  - intros Hmd timestamps. by apply calculateInfo_no_minDifference.
Qed.

Lemma minDifference_check_witness :
  0 < minDifference limiter_10_3_2
  ∧ 3000 < 5000
  ∧ blockedDueToMinDifference
      (Base.calculateInfo limiter_10_3_2 (Some <$> [] ++ [5000; 3000]) true) = true
  ∧ minDifference limiter_10_3 = 0
  ∧ blockedDueToMinDifference
      (Base.calculateInfo limiter_10_3 [Some 5000; Some 3000] true) = false.
Proof.
  split; [reflexivity|]. split; [reflexivity|]. split.
  - apply (minDifference_check limiter_10_3_2 [] 5000 3000 true); reflexivity.
  - split; [reflexivity|].
    apply (minDifference_check limiter_10_3 [] 0 0 true). reflexivity.
Defined.

(** C4. Speculative mode: for every list that ends with the candidate
    timestamp, the wait is the time until the timestamp at position
    [max (0, count - maxInInterval)] leaves the window, rounded up to
    milliseconds; the minimal distance plays no part, the window need not be
    full, and nothing keeps the value from being negative.  The verdict of
    [wouldLimitWithInfo] is this evaluation on the snapshot followed by the
    candidate, for every back end. *)
Theorem speculative_wait
    {L : Type} `{Limiter L} (self self' : L) (tick : Tick) (id : Id)
    (existing : list Z) (candidate : Z) :
  0 < maxInInterval (super self) →
  getTimestamps self tick id false = Return (Some <$> existing, self') →
  let timestamps := existing ++ [candidate] in
  let count := Z.of_nat (length timestamps) in
  ∃ info t,
    wouldLimitWithInfo self tick candidate id = Return (info, self')
    ∧ info = Base.calculateInfo (super self) (Some <$> timestamps) true
    ∧ timestamps !! Z.to_nat (Z.max 0 (count - maxInInterval (super self))) = Some t
    ∧ millisecondsUntilAllowed info
      = Some (microsecondsToMilliseconds (t - candidate + interval (super self))).
Proof.
  intros Hmax Hget timestamps count.
  destruct (calculateInfo_millisecondsUntilAllowed (super self) existing candidate Hmax)
    as (t & Ht & Hwait).
  exists (Base.calculateInfo (super self) (Some <$> timestamps) true), t.
  split; [|split; [done|split; [done|apply (Hwait true)]]].
  unfold wouldLimitWithInfo. rewrite Hget. simpl.
  subst timestamps. by rewrite fmap_app.
Qed.

Lemma speculative_wait_witness :
  ∃ self',
    wouldLimitWithInfo memory_8000 {| now := 17000; uuid := "" |} 17000 (IdNum 1)
    = Return ({| blocked := false; blockedDueToCount := false;
                 blockedDueToMinDifference := false;
                 millisecondsUntilAllowed := Some 1; actionsRemaining := 1 |}, self').
Proof.
  exists (InMemory.refresh memory_8000 17000 (IdNum 1) false).2.
  assert (0 < maxInInterval (super memory_8000)) as Hmax by (vm_compute; reflexivity).
  assert (getTimestamps memory_8000 {| now := 17000; uuid := "" |} (IdNum 1) false
          = Return (Some <$> [8000],
                    (InMemory.refresh memory_8000 17000 (IdNum 1) false).2))
    as Hget by (vm_compute; reflexivity).
  destruct (speculative_wait memory_8000 _ _ _ _ 17000 Hmax Hget)
    as (info & t & Hcall & -> & _ & _).
  exact Hcall.
Defined.

(** ** Calls and events on the in-memory limiter *)

Lemma run_cons {L : Type} `{Limiter L} (self : L) (tick : Tick) (c : Call)
    (calls : list (Tick * Call)) :
  run self ((tick, c) :: calls)
  = ((perform self tick c).1 :: (run (perform self tick c).2 calls).1,
     (run (perform self tick c).2 calls).2).
Proof.
  cbn [run]. destruct (perform self tick c) as [o self']. cbn [fst snd].
  by destruct (run self' calls).
Qed.

Lemma play_cons (self : InMemory.InMemoryRateLimiter) (e : Event) (events : list Event) :
  play self (e :: events)
  = ((step self e).1 ++ (play (step self e).2 events).1, (play (step self e).2 events).2).
Proof.
  cbn [play]. destruct (step self e) as [os self']. cbn [fst snd].
  by destruct (play self' events).
Qed.

Lemma step_Invoke (self : InMemory.InMemoryRateLimiter) (tick : Tick) (c : Call) :
  step self (Invoke tick c) = ([(perform self tick c).1], (perform self tick c).2).
Proof. cbn [step]. by destruct (perform self tick c). Qed.

(** A sequence of calls with no run of the event loop in between. *)
Lemma play_invocations (calls : list (Tick * Call)) (self : InMemory.InMemoryRateLimiter) :
  play self (invocations calls) = run self calls.
Proof.
  revert self. induction calls as [|[tick c] calls IH]; intros self; [done|].
  unfold invocations. rewrite fmap_cons. fold (invocations calls).
  rewrite play_cons, run_cons. cbn [fst snd]. rewrite step_Invoke. cbn [fst snd].
  by rewrite IH.
Qed.

(** A call that reads an inherited member is rejected and changes nothing. *)
Lemma InMemory_perform_rejects (self : InMemory.InMemoryRateLimiter) (tick : Tick) (c : Call) :
  rejects self c → perform self tick c = (Rejected "TypeError", self).
Proof.
  intros [Hin Hreads].
  destruct c; cbn [call_id reads] in *; try done;
    unfold perform, limit, wouldLimit, limitWithInfo, wouldLimitWithInfo;
    by rewrite getTimestamps_inherited.
Qed.

Lemma InMemory_perform_state (self : InMemory.InMemoryRateLimiter) (tick : Tick) (c : Call) :
  ¬ rejects self c →
  (perform self tick c).2
  = match c with
    | Limit id | LimitWithInfo id => (InMemory.refresh self (now tick) id true).2
    | WouldLimit id _ | WouldLimitWithInfo id _ =>
        (InMemory.refresh self (now tick) id false).2
    | Clear id => InMemory.clear self id
    end.
Proof.
  intros Hresolves.
  assert (reads c = true → ¬ inherited self (call_id c)) as Hown
    by (intros Hreads Hin; by apply Hresolves).
  destruct c; cbn [call_id reads] in Hown; unfold perform, limit, wouldLimit;
    rewrite ?InMemory_limitWithInfo, ?InMemory_wouldLimitWithInfo by auto; done.
Qed.

Lemma InMemory_perform_outcome (self : InMemory.InMemoryRateLimiter) (tick : Tick) (c : Call) :
  ¬ rejects self c →
  let info id := Base.calculateInfo (InMemory.base self)
                   (Some <$> (InMemory.refresh self (now tick) id true).1) false in
  let would id currentTimestamp :=
    Base.calculateInfo (InMemory.base self)
      (Some <$> (InMemory.refresh self (now tick) id false).1 ++ [currentTimestamp])
      true in
  (perform self tick c).1
  = match c with
    | Limit id => Verdict (blocked (info id))
    | LimitWithInfo id => Info (info id)
    | WouldLimit id currentTimestamp => Verdict (blocked (would id currentTimestamp))
    | WouldLimitWithInfo id currentTimestamp => Info (would id currentTimestamp)
    | Clear id => Done
    end.
Proof.
  intros Hresolves.
  assert (reads c = true → ¬ inherited self (call_id c)) as Hown
    by (intros Hreads Hin; by apply Hresolves).
  destruct c; cbn [call_id reads] in Hown; unfold perform, limit, wouldLimit;
    rewrite ?InMemory_limitWithInfo, ?InMemory_wouldLimitWithInfo by auto; done.
Qed.

Lemma InMemory_perform_base (self : InMemory.InMemoryRateLimiter) (tick : Tick) (c : Call) :
  InMemory.base (perform self tick c).2 = InMemory.base self.
Proof.
  destruct (decide (rejects self c)) as [Hrejects|Hresolves].
  - by rewrite InMemory_perform_rejects.
  - rewrite InMemory_perform_state by done.
    destruct c; rewrite ?InMemory_refresh_base; try done.
    unfold InMemory.clear. by case_match.
Qed.

Lemma InMemory_expire_base (self : InMemory.InMemoryRateLimiter) (reading : Z) (id : Id) :
  InMemory.base (InMemory.expire self reading id) = InMemory.base self.
Proof. unfold InMemory.expire. repeat case_match; done. Qed.

Lemma step_base (self : InMemory.InMemoryRateLimiter) (e : Event) :
  InMemory.base (step self e).2 = InMemory.base self.
Proof.
  destruct e as [tick c|reading id].
  - rewrite step_Invoke. apply InMemory_perform_base.
  - apply InMemory_expire_base.
Qed.

Lemma run_base (calls : list (Tick * Call)) (self : InMemory.InMemoryRateLimiter) :
  InMemory.base (run self calls).2 = InMemory.base self.
Proof.
  revert self. induction calls as [|[tick c] calls IH]; intros self; [done|].
  rewrite run_cons. cbn [snd]. by rewrite IH, InMemory_perform_base.
Qed.

Lemma play_base (events : list Event) (self : InMemory.InMemoryRateLimiter) :
  InMemory.base (play self events).2 = InMemory.base self.
Proof.
  revert self. induction events as [|e events IH]; intros self; [done|].
  rewrite play_cons. cbn [snd]. by rewrite IH, step_base.
Qed.

(** * Calls on a constructed limiter are answered *)

Lemma calculateInfo_wait_is_number (self : RateLimiter) (ts : list Z) (isWould : bool) :
  0 < maxInInterval self → ts ≠ [] →
  is_Some (millisecondsUntilAllowed (Base.calculateInfo self (Some <$> ts) isWould)).
Proof.
  intros Hmax Hne.
  destruct ts as [|x ts _] using rev_ind; [done|].
  destruct (calculateInfo_millisecondsUntilAllowed self ts x Hmax) as (t & _ & Hwait).
  rewrite (Hwait isWould). eauto.
Qed.

Section Answered.
Context {L : Type} `{Limiter L}.

(** The store resolves every read with integer timestamps, at least one of
    them when a timestamp was added, and keeps the configuration. *)
Hypothesis getTimestamps_resolves : ∀ (self : L) tick id addNew,
  ∃ ts self',
    getTimestamps self tick id addNew = Return (Some <$> ts, self')
    ∧ super self' = super self
    ∧ (addNew = true → ts ≠ []).

Hypothesis clear_resolves : ∀ (self : L) id,
  ∃ self', clear self id = Return self' ∧ super self' = super self.

Lemma perform_answered (self : L) (tick : Tick) (c : Call) :
  0 < maxInInterval (super self) →
  answered (perform self tick c).1 ∧ super (perform self tick c).2 = super self.
Proof.
  intros Hmax.
  destruct c as [id|id cur|id|id cur|id]; unfold perform;
    [destruct (getTimestamps_resolves self tick id true) as (ts & self' & Hget & Hsuper & Hne)
    |destruct (getTimestamps_resolves self tick id false) as (ts & self' & Hget & Hsuper & Hne)
    |destruct (getTimestamps_resolves self tick id true) as (ts & self' & Hget & Hsuper & Hne)
    |destruct (getTimestamps_resolves self tick id false) as (ts & self' & Hget & Hsuper & Hne)
    |destruct (clear_resolves self id) as (self' & Hget & Hsuper)];
    unfold limit, wouldLimit, limitWithInfo, wouldLimitWithInfo;
    rewrite Hget;
    cbn [settle fst snd answered mbind mret completion_bind completion_ret
         fmap completion_fmap];
    (split; [|done]); try done.
  - apply calculateInfo_wait_is_number; auto.
  - replace ((Some <$> ts) ++ [Some cur]) with (Some <$> ts ++ [cur])
      by (by rewrite fmap_app).
    apply calculateInfo_wait_is_number; [done|]. by destruct ts.
Qed.

Lemma run_answered (calls : list (Tick * Call)) (self : L) :
  0 < maxInInterval (super self) → Forall answered (run self calls).1.
Proof.
  revert self. induction calls as [|[tick c] calls IH]; intros self Hmax; [by constructor|].
  destruct (perform_answered self tick c Hmax) as [Hanswered Hsuper].
  cbn [run]. destruct (perform self tick c) as [o self'].
  specialize (IH self'). destruct (run self' calls) as [os self''].
  constructor; [done|]. apply IH. simpl in Hsuper. by rewrite Hsuper.
Qed.

End Answered.

Lemma place_nonempty (e : string * Z) (z : Server.zset) : Server.place e z ≠ [].
Proof. destruct z; simpl; [done|]. by case_match. Qed.

Lemma InMemory_refresh_nonempty
    (self : InMemory.InMemoryRateLimiter) (currentTimestamp : Z) (id : Id) :
  (InMemory.refresh self currentTimestamp id true).1 ≠ [].
Proof.
  rewrite InMemory_refresh_result. intros Hnil. by apply app_nil in Hnil as [_ ?].
Qed.

(** In memory a call is answered unless it reads an inherited member. *)
Lemma InMemory_perform_answered
    (self : InMemory.InMemoryRateLimiter) (tick : Tick) (c : Call) :
  0 < maxInInterval (InMemory.base self) → ¬ rejects self c →
  answered (perform self tick c).1.
Proof.
  intros Hmax Hresolves. rewrite InMemory_perform_outcome by done. cbv zeta.
  destruct c as [id|id cur|id|id cur|id]; cbn [answered]; try done;
    apply calculateInfo_wait_is_number; try done.
  - apply InMemory_refresh_nonempty.
  - by destruct (InMemory.refresh self (now tick) id false).1.
Qed.

Lemma InMemory_play_answered
    (events : list Event) (self : InMemory.InMemoryRateLimiter) :
  0 < maxInInterval (InMemory.base self) →
  Forall (λ o, answered o ∨ o = Rejected "TypeError") (play self events).1
  ∧ (Forall (λ c, plain (call_id c.2)) (calls_of events) →
     Forall answered (play self events).1).
Proof.
  revert self. induction events as [|e events IH]; intros self Hmax.
  { split; [constructor|]. intros _. constructor. }
  rewrite play_cons. cbn [fst].
  destruct (IH (step self e).2) as [IHall IHplain]; [by rewrite step_base|].
  destruct e as [tick c|reading id]; [|split; [exact IHall|exact IHplain]].
  rewrite step_Invoke in IHall, IHplain |- *. cbn [fst snd app] in *. split.
  - apply Forall_cons. split; [|done].
    destruct (decide (rejects self c)) as [Hrejects|Hresolves].
    + right. by rewrite InMemory_perform_rejects.
    + left. by apply InMemory_perform_answered.
  - cbn [calls_of omap]. fold (calls_of events). cbn [mbind option_bind].
    intros [Hplain Hrest]%Forall_cons. cbn [snd] in Hplain.
    apply Forall_cons. split; [|by apply IHplain].
    apply InMemory_perform_answered; [done|].
    intros [Hin _]. by apply (plain_own self (call_id c)).
Qed.

Lemma Redis_run_answered
    (calls : list (Tick * Call)) (self : Redis.RedisRateLimiter) :
  0 < maxInInterval (Redis.base self) → Forall answered (run self calls).1.
Proof.
  intros Hmax. refine (run_answered _ _ calls self Hmax).
  - intros s tick id addNew.
    destruct (Redis_getTimestamps_spec s tick id addNew) as (s' & Hget & Hbase & _).
    eexists _, s'. split; [exact Hget|]. split; [done|].
    intros ->. intros Hnil. apply fmap_nil_inv in Hnil.
    by apply place_nonempty in Hnil.
  - intros s id. exists (Redis.clear s id). done.
Qed.

(** * The claim about configuration errors *)

(** C8. The constructor throws exactly when the options violate
    [interval > 0], [maxInInterval > 0] or [minDifference >= 0], a missing
    [minDifference] counting as 0; both subclasses throw with the base
    constructor, at construction.  No later call on a constructed limiter
    fails for its configuration: on Redis every call of every sequence is
    answered, with a number as the wait of every verdict; in memory, whatever
    the timers do in between, every call is answered in that way or rejected
    with the TypeError of a read that finds a member of [Object.prototype],
    which befalls no identifier other than the names of these members. *)
Theorem configuration_errors (options : RateLimiterOptions) :
  let valid :=
    (∃ i, opt_interval options = Some i ∧ 0 < i)
    ∧ (∃ m, opt_maxInInterval options = Some m ∧ 0 < m)
    ∧ 0 <= default 0 (opt_minDifference options) in
  ((∃ msg, Base.constructor options = Throw msg) ↔ ¬ valid)
  ∧ (∀ msg, InMemory.constructor options = Throw msg
            ↔ Base.constructor options = Throw msg)
  ∧ (∀ client namespace msg,
       Redis.constructor client namespace options = Throw msg
       ↔ Base.constructor options = Throw msg)
  ∧ (∀ self events, InMemory.constructor options = Return self →
       Forall (λ o, answered o ∨ o = Rejected "TypeError") (play self events).1
       ∧ (Forall (λ c, plain (call_id c.2)) (calls_of events) →
          Forall answered (play self events).1))
  ∧ (∀ client namespace self calls,
       Redis.constructor client namespace options = Return self →
       Forall answered (run self calls).1).
Proof.
  intros valid.
  assert (valid ↔ ∃ self, Base.constructor options = Return self) as Hvalid.
  { split.
    - intros ((i & Hi & ?) & (m & Hm & ?) & ?).
      eexists. apply constructor_Return. by exists i, m.
    - intros (self & (i & m & ? & ? & ? & ? & ? & _)%constructor_Return).
      unfold valid. eauto 10. }
  split; [|split; [|split; [|split]]].
  - rewrite Hvalid. destruct (Base.constructor options) as [self|msg].
    + split; [by intros [? ?]|]. intros Hno. destruct Hno. eauto.
    + split; [by intros _ [? ?]|]. eauto.
  - intros msg. unfold InMemory.constructor.
    destruct (Base.constructor options); settle_completion; split; congruence.
  - intros client namespace msg. unfold Redis.constructor.
    destruct (Base.constructor options); settle_completion; split; congruence.
  - intros self events Hnew. unfold InMemory.constructor in Hnew.
    destruct (Base.constructor options) as [base|] eqn:Hbase;
      settle_completion; [|done].
    injection Hnew as <-. apply InMemory_play_answered.
    by apply constructor_valid in Hbase as (_ & ? & _).
  - intros client namespace self calls Hnew. unfold Redis.constructor in Hnew.
    destruct (Base.constructor options) as [base|] eqn:Hbase;
      settle_completion; [|done].
    injection Hnew as <-. apply Redis_run_answered.
    by apply constructor_valid in Hbase as (_ & ? & _).
Qed.

Lemma configuration_errors_witness :
  InMemory.constructor options_10_3 = Return memory_10_3
  ∧ Forall (λ o, answered o ∨ o = Rejected "TypeError")
      (play memory_10_3
         [Invoke (at_ms 0 "a") (LimitWithInfo id1);
          Invoke (at_ms 1 "b") (Limit (IdStr "constructor"));
          Elapse 10000 id1;
          Invoke (at_ms 11 "c") (WouldLimitWithInfo id1 11000);
          Invoke (at_ms 12 "d") (Clear id1); Invoke (at_ms 13 "e") (Limit id1)]).1.
Proof.
  split; [reflexivity|].
  destruct (configuration_errors options_10_3) as (_ & _ & _ & Hmemory & _).
  by apply Hmemory.
Defined.

(** * Expiry at the boundary of the window *)

Lemma elem_of_place (e x : string * Z) (z : Server.zset) :
  e ∈ Server.place x z ↔ e = x ∨ e ∈ z.
Proof.
  induction z as [|y z IH]; simpl.
  - rewrite list_elem_of_singleton. set_solver.
  - case_match; [set_solver|]. rewrite !elem_of_cons, IH. tauto.
Qed.

(** C7. A read expires a timestamp that lies exactly on the boundary
    [now - interval].  The in-memory store keeps the stored timestamps
    strictly above the boundary (and the one it adds), so the boundary value
    is not among them; this holds of every read that completes, and a read
    completes unless it finds a member of [Object.prototype].  The Redis
    store removes every member whose score lies in [0, now - interval], both
    ends included, so a score on the boundary is gone as well. *)
Theorem boundary_expired :
  (∀ (self : InMemory.InMemoryRateLimiter) (now : Z) (id : Id) (addNew : bool),
     0 < interval (InMemory.base self) →
     (¬ inherited self id →
      ∃ ts self', InMemory.getTimestamps self now id addNew = Return (ts, self'))
     ∧ ∀ ts self',
         InMemory.getTimestamps self now id addNew = Return (ts, self') →
         stored self' id = ts
         ∧ (∀ t, t ∈ ts ↔
                  (t ∈ stored self id ∧ now - interval (InMemory.base self) < t)
                  ∨ (addNew = true ∧ t = now))
         ∧ (now - interval (InMemory.base self)) ∉ ts)
  ∧ (∀ (self : Redis.RedisRateLimiter) (tick : Tick) (id : Id) (addNew : bool),
       0 < interval (Redis.base self) →
       let boundary := now tick - interval (Redis.base self) in
       ∃ ts self',
         Redis.getTimestamps self tick id addNew = Return (Some <$> ts, self')
         ∧ (members self' id).*2 = ts
         ∧ (∀ e, e ∈ members self id → 0 <= e.2 <= boundary → e ∉ members self' id)
         ∧ (∀ t, t ∈ ts → ¬ (0 <= t <= boundary))
         ∧ (0 <= boundary → boundary ∉ ts)).
Proof.
  split.
  - intros self now id addNew HI. split.
    { intros Hown. rewrite InMemory_getTimestamps_own by done.
      destruct (InMemory.refresh self now id addNew) as [ts self']. eauto. }
    intros ts self' [_ Hread]%InMemory_getTimestamps_Return.
    assert (ts = (InMemory.refresh self now id addNew).1) as -> by (by rewrite <- Hread).
    assert (self' = (InMemory.refresh self now id addNew).2) as -> by (by rewrite <- Hread).
    clear Hread. set (ts := (InMemory.refresh self now id addNew).1).
    assert (∀ t, t ∈ ts ↔
              (t ∈ stored self id ∧ now - interval (InMemory.base self) < t)
              ∨ (addNew = true ∧ t = now)) as Hts.
    { intros t. subst ts. rewrite InMemory_refresh_result.
      unfold inWindow. rewrite elem_of_app, list_elem_of_filter.
      destruct addNew; [rewrite list_elem_of_singleton|rewrite elem_of_nil];
        naive_solver. }
    split; [apply InMemory_refresh_stored|]. split; [done|].
    rewrite Hts. intros [[_ ?]|[_ ?]]; lia.
  - intros self tick id addNew HI boundary.
    destruct (Redis_getTimestamps_spec self tick id addNew)
      as (self' & Hget & _ & _ & _ & _ & Hset & _).
    cbv zeta in Hget, Hset. fold boundary in Hget, Hset.
    assert (∀ e, e ∈ members self' id → ¬ (0 <= e.2 <= boundary)) as Hout.
    { intros e. rewrite Hset. destruct addNew.
      - rewrite elem_of_place, list_elem_of_filter. unfold survivors.
        rewrite list_elem_of_filter. intros [->|(_ & ? & _)]; [simpl; lia|done].
      - unfold survivors. rewrite list_elem_of_filter. tauto. }
    eexists _, self'. split; [exact Hget|]. rewrite <- Hset.
    split; [done|]. split; [|split].
    + intros e _ Hin He. by apply (Hout e).
    + intros t (e & -> & He)%list_elem_of_fmap. by apply Hout.
    + intros Hb (e & Heq & He)%list_elem_of_fmap. apply (Hout e He). lia.
Qed.

Lemma boundary_expired_witness :
  0 < interval (Redis.base redis_10_3)
  ∧ ("a", 0) ∈ members redis_10_3 id1
  ∧ ∃ self',
      Redis.getTimestamps redis_10_3 (at_ms 10 "c") id1 true
      = Return ([Some 4000; Some 10000], self')
      ∧ ("a", 0) ∉ members self' id1.
Proof.
  split; [reflexivity|]. split; [vm_compute; by left|].
  destruct boundary_expired as [_ Hredis].
  destruct (Hredis redis_10_3 (at_ms 10 "c") id1 true)
    as (ts & self' & Hget & Hts & Hgone & _); [reflexivity|].
  exists self'. split.
  - rewrite Hget. f_equal. f_equal.
    assert (Redis.getTimestamps redis_10_3 (at_ms 10 "c") id1 true
            = Return ([Some 4000; Some 10000],
                      match Redis.getTimestamps redis_10_3 (at_ms 10 "c") id1 true with
                      | Return (_, s) => s
                      | Throw _ => redis_10_3
                      end)) as Hrun by (vm_compute; reflexivity).
    rewrite Hget in Hrun. by injection Hrun as ->.
  - apply Hgone; [vm_compute; by left|vm_compute; split; discriminate].
Defined.

(** * The in-memory store under a clock that never runs backwards *)

Lemma StronglySorted_filter {A : Type} (R : relation A) (P : A → Prop)
    `{∀ x, Decision (P x)} (l : list A) :
  StronglySorted R l → StronglySorted R (filter P l).
Proof.
  induction 1 as [|x l Hl IH Hx]; [constructor|].
  rewrite filter_cons. case_decide; [|done].
  constructor; [done|]. rewrite Forall_forall in Hx |- *.
  intros y [_ Hy]%list_elem_of_filter. by apply Hx.
Qed.

Lemma tidy_mono (now now' : Z) (self : InMemory.InMemoryRateLimiter) :
  now <= now' → tidy now self → tidy now' self.
Proof.
  intros Hle Htidy key ts Hkey. destruct (Htidy key ts Hkey) as [Hsorted Hbound].
  split; [done|]. intros t Ht. specialize (Hbound t Ht). lia.
Qed.

(** One read at the reading [now] keeps the lists ascending. *)
Lemma refresh_tidy
    (self : InMemory.InMemoryRateLimiter) (now : Z) (id : Id) (addNew : bool) :
  tidy now self → tidy now (InMemory.refresh self now id addNew).2.
Proof.
  intros Htidy key ts. rewrite InMemory_refresh_storage.
  destruct (decide (keyOf id = key)) as [<-|Hne].
  - rewrite lookup_insert_eq. intros [= <-]. rewrite InMemory_refresh_result.
    unfold inWindow, stored.
    assert (StronglySorted Z.le (default [] (InMemory.storage self !! keyOf id))
            ∧ ∀ t, t ∈ default [] (InMemory.storage self !! keyOf id) → t <= now)
      as [Hsorted Hbound].
    { destruct (InMemory.storage self !! keyOf id) as [old|] eqn:Hold; simpl.
      - by apply (Htidy (keyOf id)).
      - split; [constructor|]. by intros t ?%elem_of_nil. }
    split.
    + apply StronglySorted_app_2.
      * intros t t' [_ Ht]%list_elem_of_filter Ht'.
        destruct addNew; [|by apply elem_of_nil in Ht'].
        apply list_elem_of_singleton in Ht' as ->. by apply Hbound.
      * by apply StronglySorted_filter.
      * destruct addNew; repeat constructor.
    + intros t [[_ Ht]%list_elem_of_filter|Ht]%elem_of_app; [by apply Hbound|].
      destruct addNew; [|by apply elem_of_nil in Ht].
      apply list_elem_of_singleton in Ht as ->. done.
  - rewrite lookup_insert_ne by done. apply Htidy.
Qed.

Lemma perform_tidy (self : InMemory.InMemoryRateLimiter) (tick : Tick) (c : Call) :
  tidy (now tick) self → tidy (now tick) (perform self tick c).2.
Proof.
  intros Htidy.
  destruct (decide (rejects self c)) as [Hrejects|Hresolves];
    [by rewrite InMemory_perform_rejects|].
  rewrite InMemory_perform_state by done.
  destruct c; try by apply refresh_tidy.
  intros key ts. rewrite InMemory_clear_storage.
  intros [_ Hkey]%lookup_delete_Some. by apply (Htidy key).
Qed.

Lemma expire_tidy (self : InMemory.InMemoryRateLimiter) (now reading : Z) (id : Id) :
  tidy now self → tidy now (InMemory.expire self reading id).
Proof.
  intros Htidy. unfold InMemory.expire. repeat case_match; try done.
  intros key ts. cbn [InMemory.onTimeout InMemory.storage].
  intros [_ Hkey]%lookup_delete_Some. by apply (Htidy key).
Qed.

Lemma readings_cons (e : Event) (events : list Event) :
  readings (e :: events)
  = match e with Invoke tick _ => now tick | Elapse reading _ => reading end
    :: readings events.
Proof. done. Qed.

Lemma calls_of_Invoke (tick : Tick) (c : Call) (events : list Event) :
  calls_of (Invoke tick c :: events) = (tick, c) :: calls_of events.
Proof. done. Qed.

Lemma calls_of_Elapse (reading : Z) (id : Id) (events : list Event) :
  calls_of (Elapse reading id :: events) = calls_of events.
Proof. done. Qed.

Lemma play_tidy
    (events : list Event) (self : InMemory.InMemoryRateLimiter) (final : Z) :
  nondecreasing (readings events ++ [final]) →
  (∀ n, n ∈ readings events ++ [final] → tidy n self) →
  tidy final (play self events).2.
Proof.
  revert self. induction events as [|e events IH]; intros self Hclock Htidy.
  - apply Htidy. simpl. by left.
  - rewrite play_cons. cbn [snd].
    rewrite readings_cons in Hclock, Htidy. cbn [app] in Hclock, Htidy.
    apply StronglySorted_inv in Hclock as [Hclock Hfirst].
    apply IH; [done|]. intros n Hn.
    rewrite Forall_forall in Hfirst. specialize (Hfirst n Hn).
    destruct e as [tick c|reading id].
    + rewrite step_Invoke. cbn [snd]. apply tidy_mono with (now tick); [done|].
      apply perform_tidy, Htidy. by left.
    + cbn [step snd]. apply expire_tidy, Htidy. by right.
Qed.

(** No array is ever stored under a name of [Object.prototype]. *)
Lemma step_clean (self : InMemory.InMemoryRateLimiter) (e : Event) :
  clean self → clean (step self e).2.
Proof.
  intros Hclean key Hkey. destruct e as [tick c|reading id].
  - rewrite step_Invoke. cbn [snd].
    destruct (decide (rejects self c)) as [Hrejects|Hresolves];
      [rewrite InMemory_perform_rejects by done; by apply Hclean|].
    rewrite InMemory_perform_state by done.
    assert (reads c = true → keyOf (call_id c) ≠ key) as Hne.
    { intros Hreads <-. apply Hresolves. split; [|done]. split; [by apply Hclean|done]. }
    destruct c; cbn [call_id reads] in Hne;
      rewrite ?InMemory_refresh_storage, ?lookup_insert_ne by auto;
      try by apply Hclean.
    rewrite InMemory_clear_storage. apply lookup_delete_None. right. by apply Hclean.
  - cbn [step snd]. unfold InMemory.expire. repeat case_match; try by apply Hclean.
    cbn [InMemory.onTimeout InMemory.storage].
    apply lookup_delete_None. right. by apply Hclean.
Qed.

Lemma play_clean (events : list Event) (self : InMemory.InMemoryRateLimiter) :
  clean self → clean (play self events).2.
Proof.
  revert self. induction events as [|e events IH]; intros self Hclean; [done|].
  rewrite play_cons. cbn [snd]. by apply IH, step_clean.
Qed.

(** C10. Under a clock that never decreases, whatever calls were made and
    whatever timers have run before, after any read
    [getTimestamps (id, addNew)] that completes at the reading [reading], the
    list persisted for the identifier is ascending, each of its elements is
    later than [reading - interval], and when a timestamp was added the last
    element is [reading].  The read completes for every identifier that does
    not name a member of [Object.prototype]. *)
Theorem stored_ascending
    (options : RateLimiterOptions) (fresh : InMemory.InMemoryRateLimiter)
    (events : list Event) (reading : Z) (id : Id) (addNew : bool) :
  InMemory.constructor options = Return fresh →
  nondecreasing (readings events ++ [reading]) →
  let self := (play fresh events).2 in
  (plain id →
   ∃ ts self', InMemory.getTimestamps self reading id addNew = Return (ts, self'))
  ∧ ∀ ts self',
      InMemory.getTimestamps self reading id addNew = Return (ts, self') →
      let persisted := stored self' id in
      StronglySorted Z.le persisted
      ∧ (∀ t, t ∈ persisted → reading - interval (InMemory.base self) < t)
      ∧ (addNew = true → last persisted = Some reading).
Proof.
  intros Hnew Hclock self. split.
  { intros Hplain. rewrite InMemory_getTimestamps_own by (by apply plain_own).
    destruct (InMemory.refresh self reading id addNew) as [ts self']. eauto. }
  intros ts self' [_ Hread]%InMemory_getTimestamps_Return persisted.
  assert (self' = (InMemory.refresh self reading id addNew).2) as Hself'
    by (by rewrite <- Hread).
  subst persisted. rewrite Hself'. clear Hread Hself' ts self'.
  unfold InMemory.constructor in Hnew.
  destruct (Base.constructor options) as [base|] eqn:Hbase; settle_completion; [|done].
  injection Hnew as <-.
  apply constructor_valid in Hbase as (HI & _ & _).
  assert (tidy reading self) as Htidy.
  { apply play_tidy; [done|]. intros n _ key ts. simpl. by rewrite lookup_empty. }
  assert (InMemory.base self = base) as Hself by apply play_base.
  apply (refresh_tidy self reading id addNew) in Htidy.
  assert (InMemory.storage (InMemory.refresh self reading id addNew).2 !! keyOf id
          = Some (stored (InMemory.refresh self reading id addNew).2 id)) as Hstored.
  { rewrite InMemory_refresh_stored.
    by rewrite InMemory_refresh_storage, lookup_insert_eq. }
  destruct (Htidy _ _ Hstored) as [Hsorted _].
  split; [done|]. rewrite InMemory_refresh_stored in *.
  rewrite InMemory_refresh_result, Hself. split.
  - intros t [[Ht _]%list_elem_of_filter|Ht]%elem_of_app; [done|].
    destruct addNew; [|by apply elem_of_nil in Ht].
    apply list_elem_of_singleton in Ht as ->. lia.
  - intros ->. apply last_snoc.
Qed.

Lemma stored_ascending_witness :
  InMemory.constructor options_10_3 = Return memory_10_3
  ∧ nondecreasing
      (readings [Invoke (at_ms 0 "a") (Limit id1); Invoke (at_ms 4 "b") (Limit id1);
                 Elapse 4500 id1] ++ [5000])
  ∧ ∃ ts self',
      InMemory.getTimestamps
        (play memory_10_3
           [Invoke (at_ms 0 "a") (Limit id1); Invoke (at_ms 4 "b") (Limit id1);
            Elapse 4500 id1]).2 5000 id1 true = Return (ts, self')
      ∧ StronglySorted Z.le (stored self' id1).
Proof.
  assert (nondecreasing
            (readings [Invoke (at_ms 0 "a") (Limit id1); Invoke (at_ms 4 "b") (Limit id1);
                       Elapse 4500 id1] ++ [5000]))
    as Hclock.
  { unfold nondecreasing. apply (bool_decide_unpack _). vm_compute. exact I. }
  split; [reflexivity|]. split; [exact Hclock|].
  destruct (stored_ascending options_10_3 memory_10_3 _ 5000 id1 true eq_refl Hclock)
    as [Hcompletes Hsorted].
  destruct (Hcompletes (IdNum_plain 1)) as (ts & self' & Hread).
  exists ts, self'. split; [exact Hread|].
  by destruct (Hsorted ts self' Hread) as [? _].
Defined.

(** * Bounds on the verdict *)

Lemma calculateInfo_wait_nonnegative
    (self : RateLimiter) (ts : list Z) (current : Z) (isWould : bool) :
  0 < interval self → 0 < maxInInterval self → 0 <= minDifference self →
  (isWould = true → ∀ t, t ∈ ts → current - interval self - 1000 < t) →
  ∃ ms, millisecondsUntilAllowed
          (Base.calculateInfo self (Some <$> ts ++ [current]) isWould) = Some ms
        ∧ 0 <= ms.
Proof.
  intros HI Hmax Hmd Hrecent.
  destruct (calculateInfo_millisecondsUntilAllowed self ts current Hmax)
    as (t & Ht & Hwait).
  rewrite (Hwait isWould). eexists. split; [done|].
  destruct isWould.
  - pose proof (microsecondsToMilliseconds_ceiling (t - current + interval self)).
    apply list_elem_of_lookup_2, elem_of_app in Ht as [Ht|Ht].
    + specialize (Hrecent eq_refl t Ht). lia.
    + apply list_elem_of_singleton in Ht as ->. lia.
  - match goal with
    | |- 0 <= microsecondsToMilliseconds ?x =>
        pose proof (microsecondsToMilliseconds_ceiling x); assert (0 <= x) by lia; lia
    end.
Qed.

(** C9 fails on the code.  After one attempt at the start of the epoch, a
    speculative query prunes at the reading 9 ms and takes its candidate
    timestamp 3 ms later: the verdict reports a wait of -2 ms.  The same
    value comes out of the speculative branch of [calculateInfo] on the list
    of the two timestamps, where the committed branch reports 0. *)
Lemma speculative_wait_negative :
  (run memory_10_2
     [(at_ms 0 "a", Limit id1); (at_ms 9 "b", WouldLimitWithInfo id1 12000)]).1
  = [Verdict false;
     Info {| blocked := false; blockedDueToCount := false;
             blockedDueToMinDifference := false;
             millisecondsUntilAllowed := Some (-2); actionsRemaining := 0 |}]
  ∧ millisecondsUntilAllowed
      (Base.calculateInfo limiter_10_2 [Some 0; Some 12000] true) = Some (-2)
  ∧ millisecondsUntilAllowed
      (Base.calculateInfo limiter_10_2 [Some 0; Some 12000] false) = Some 0.
Proof. repeat split; vm_compute; reflexivity. Qed.

(** X19. Bounds on a verdict.  On a constructed limiter [actionsRemaining]
    is never negative.  The wait of a verdict of [limitWithInfo] is never
    negative.  The wait of a verdict of [wouldLimitWithInfo] is not negative
    when the candidate timestamp is read at most one millisecond after the
    reading the store pruned with, in particular when the two readings
    coincide; the Redis store needs in addition that the scores it holds are
    not negative.  In memory the verdicts are those of identifiers that do
    not name a member of [Object.prototype]. *)
Theorem verdict_bounds (options : RateLimiterOptions) (base : RateLimiter) :
  Base.constructor options = Return base →
  (∀ timestamps isWould,
     0 <= actionsRemaining (Base.calculateInfo base timestamps isWould))
  ∧ (∀ (self : InMemory.InMemoryRateLimiter) tick id,
       InMemory.base self = base → plain id →
       ∃ info self' ms,
         limitWithInfo self tick id = Return (info, self')
         ∧ millisecondsUntilAllowed info = Some ms ∧ 0 <= ms)
  ∧ (∀ (self : InMemory.InMemoryRateLimiter) tick candidate id,
       InMemory.base self = base → plain id → candidate <= now tick + 1000 →
       ∃ info self' ms,
         wouldLimitWithInfo self tick candidate id = Return (info, self')
         ∧ millisecondsUntilAllowed info = Some ms ∧ 0 <= ms)
  ∧ (∀ (self : Redis.RedisRateLimiter) tick id, Redis.base self = base →
       ∃ info self' ms,
         limitWithInfo self tick id = Return (info, self')
         ∧ millisecondsUntilAllowed info = Some ms ∧ 0 <= ms)
  ∧ (∀ (self : Redis.RedisRateLimiter) tick candidate id,
       Redis.base self = base → candidate <= now tick + 1000 →
       (∀ e, e ∈ members self id → 0 <= e.2) →
       ∃ info self' ms,
         wouldLimitWithInfo self tick candidate id = Return (info, self')
         ∧ millisecondsUntilAllowed info = Some ms ∧ 0 <= ms).
Proof.
  intros (HI & Hmax & Hmd)%constructor_valid.
  split; [|split; [|split; [|split]]].
  - intros timestamps isWould. rewrite calculateInfo_actionsRemaining. lia.
  - intros self tick id <- Hplain.
    rewrite InMemory_limitWithInfo by (by apply plain_own).
    rewrite InMemory_refresh_result.
    destruct (calculateInfo_wait_nonnegative (InMemory.base self)
                (inWindow (interval (InMemory.base self)) (now tick) (stored self id))
                (now tick) false) as (ms & Hms & Hle); try done.
    eauto 10.
  - intros self tick candidate id <- Hplain Hsoon.
    rewrite InMemory_wouldLimitWithInfo by (by apply plain_own).
    rewrite InMemory_refresh_result, app_nil_r.
    destruct (calculateInfo_wait_nonnegative (InMemory.base self)
                (inWindow (interval (InMemory.base self)) (now tick) (stored self id))
                candidate true) as (ms & Hms & Hle); try done; [|eauto 10].
    intros _ t [Ht _]%list_elem_of_filter. lia.
  - intros self tick id <-.
    destruct (Redis_getTimestamps_spec self tick id true) as (self' & Hget & _).
    cbv zeta in Hget.
    match type of Hget with
    | _ = Return (Some <$> ?l, _) =>
        assert (l ≠ []) as Hne
          by (intros Hnil%fmap_nil_inv; by apply place_nonempty in Hnil);
        destruct l as [|current ts _] using rev_ind; [done|]
    end.
    destruct (calculateInfo_wait_nonnegative (Redis.base self) ts current false)
      as (ms & Hms & Hle); try done.
    exists (Base.calculateInfo (Redis.base self) (Some <$> ts ++ [current]) false), self', ms.
    split; [|done]. unfold limitWithInfo.
    change (getTimestamps self tick id true) with (Redis.getTimestamps self tick id true).
    by rewrite Hget.
  - intros self tick candidate id <- Hsoon Hscores.
    destruct (Redis_getTimestamps_spec self tick id false) as (self' & Hget & _).
    cbv zeta in Hget.
    set (ts := (survivors (now tick - interval (Redis.base self)) (members self id)).*2)
      in Hget.
    destruct (calculateInfo_wait_nonnegative (Redis.base self) ts candidate true)
      as (ms & Hms & Hle); try done.
    { intros _ t (e & -> & He)%list_elem_of_fmap.
      unfold survivors in He. apply list_elem_of_filter in He as [Hout He].
      specialize (Hscores e He). lia. }
    exists (Base.calculateInfo (Redis.base self) (Some <$> ts ++ [candidate]) true), self', ms.
    split; [|done]. unfold wouldLimitWithInfo.
    change (getTimestamps self tick id false) with (Redis.getTimestamps self tick id false).
    rewrite Hget. settle_completion. by rewrite fmap_app.
Qed.

Lemma verdict_bounds_witness :
  Base.constructor options_10_3_2 = Return (InMemory.base memory_8000)
  ∧ 17000 <= now (at_ms 17 "") + 1000
  ∧ ∃ info self' ms,
      wouldLimitWithInfo memory_8000 (at_ms 17 "") 17000 id1 = Return (info, self')
      ∧ millisecondsUntilAllowed info = Some ms ∧ 0 <= ms.
Proof.
  split; [reflexivity|]. split; [vm_compute; discriminate|].
  destruct (verdict_bounds options_10_3_2 (InMemory.base memory_8000) eq_refl)
    as (_ & _ & Hwould & _).
  apply Hwould; [reflexivity|apply IdNum_plain|vm_compute; discriminate].
Defined.

(** * Blocked attempts count *)

Lemma filter_all {A : Type} (P : A → Prop) `{∀ x, Decision (P x)} (l : list A) :
  (∀ x, x ∈ l → P x) → filter P l = l.
Proof.
  induction l as [|x l IH]; intros Hall; [done|].
  rewrite filter_cons_True by (apply Hall; by left).
  f_equal. apply IH. intros y Hy. apply Hall. by right.
Qed.

(** The verdict of an attempt in terms of the attempts in the window. *)
Lemma InMemory_attempt (self : InMemory.InMemoryRateLimiter) (tick : Tick) (id : Id) :
  ¬ inherited self id →
  let recent := inWindow (interval (InMemory.base self)) (now tick) (stored self id) in
  ∃ info self',
    limitWithInfo self tick id = Return (info, self')
    ∧ limit self tick id = Return (blocked info, self')
    ∧ info = Base.calculateInfo (InMemory.base self) (Some <$> recent ++ [now tick]) false
    ∧ self' = (InMemory.refresh self (now tick) id true).2
    ∧ stored self' id = recent ++ [now tick]
    ∧ blockedDueToCount info
      = bool_decide (maxInInterval (InMemory.base self) <= Z.of_nat (length recent))
    ∧ blocked info = blockedDueToCount info || blockedDueToMinDifference info.
Proof.
  intros Hown recent. eexists _, _. split; [by apply InMemory_limitWithInfo|].
  split; [unfold limit; by rewrite InMemory_limitWithInfo|].
  rewrite InMemory_refresh_stored, InMemory_refresh_result.
  fold recent. split; [done|]. split; [done|].
  split; [done|]. split; [|apply calculateInfo_blocked].
  rewrite calculateInfo_blockedDueToCount, length_fmap, length_app. simpl.
  apply bool_decide_ext. lia.
Qed.

(** Attempts that lie within one window are all recorded, and each one past
    the limit is blocked, as long as no timer runs in between. *)
Lemma attempts_recorded (id : Id) (ticks : list Tick) :
  plain id →
  ∀ (self : InMemory.InMemoryRateLimiter) (earlier recorded : list Z),
    stored self id = earlier ++ recorded →
    within (interval (InMemory.base self)) (recorded ++ (now <$> ticks)) →
    (∃ earlier', stored (run self (attempts id ticks)).2 id
                 = earlier' ++ recorded ++ (now <$> ticks))
    ∧ ∀ k, (k < length ticks)%nat →
           maxInInterval (InMemory.base self) <= Z.of_nat (length recorded + k) →
           (run self (attempts id ticks)).1 !! k = Some (Verdict true).
Proof.
  intros Hplain.
  induction ticks as [|tick ticks IH]; intros self earlier recorded Hstored Hwithin.
  - split; [|intros k Hk; simpl in Hk; lia].
    exists earlier. by rewrite app_nil_r.
  - unfold attempts. rewrite fmap_cons. fold (attempts id ticks). rewrite run_cons.
    pose proof (plain_own self id Hplain) as Hown.
    destruct (InMemory_attempt self tick id Hown)
      as (info & self' & Hinfo & _ & _ & Hself' & Hstored' & Hcount & Hblocked).
    cbv zeta in Hstored', Hcount.
    assert ((perform self tick (Limit id)).2 = self') as Hstate.
    { rewrite InMemory_perform_state; [done|]. by intros [? _]. }
    assert ((perform self tick (Limit id)).1 = Verdict (blocked info)) as Houtcome.
    { unfold perform, limit. by rewrite Hinfo. }
    rewrite Hstate, Houtcome. cbn [fst snd].
    assert (inWindow (interval (InMemory.base self)) (now tick) (stored self id)
            = inWindow (interval (InMemory.base self)) (now tick) earlier ++ recorded)
      as Hrecent.
    { rewrite Hstored. unfold inWindow. rewrite filter_app. f_equal.
      apply filter_all. intros t Ht.
      assert (now tick - t < interval (InMemory.base self)); [|lia].
      apply Hwithin; rewrite elem_of_app; [by left|right; simpl; by left]. }
    rewrite Hrecent in Hstored', Hcount.
    assert (InMemory.base self' = InMemory.base self) as Hbase
      by (subst self'; apply InMemory_refresh_base).
    destruct (IH self' (inWindow (interval (InMemory.base self)) (now tick) earlier)
                (recorded ++ [now tick])) as [[earlier' Hfinal] Hverdicts].
    { by rewrite Hstored', <- app_assoc. }
    { rewrite Hbase, <- app_assoc. exact Hwithin. }
    split.
    + exists earlier'. rewrite Hfinal. rewrite fmap_cons. by rewrite <- !app_assoc.
    + intros [|k] Hk Hmax.
      * simpl. f_equal. f_equal. rewrite Hblocked, Hcount.
        rewrite bool_decide_eq_true_2; [done|]. rewrite length_app. lia.
      * simpl. apply Hverdicts; [simpl in Hk; lia|].
        rewrite Hbase, length_app. simpl. lia.
Qed.

(** C1 fails on the code.  In memory, an attempt under the identifier
    [constructor] is rejected by the read of [this.storage[id]] and leaves no
    trace: five attempts within one window of a limiter that allows three are
    all rejected and the limiter is as it was, so none is recorded and none
    is blocked, where the Redis store records them all and blocks the fourth
    and the fifth.  And with a window of 2^31 ms the timer the first attempt
    sets is due after one millisecond: once it has run, a second attempt
    inside the window finds nothing recorded and is let through, although the
    limit is one; without the timer, and on Redis, it is blocked. *)
Lemma attempts_not_recorded :
  InMemory.constructor options_10_3 = Return memory_10_3
  ∧ within (interval limiter_10_3) (now <$> five_ticks)
  ∧ run memory_10_3 (attempts (IdStr "constructor") five_ticks)
    = (replicate 5 (Rejected "TypeError"), memory_10_3)
  ∧ (run redis_10_3 (attempts (IdStr "constructor") five_ticks)).1
    = [Verdict false; Verdict false; Verdict false; Verdict true; Verdict true]
  ∧ InMemory.constructor options_long = Return memory_long
  ∧ (play memory_long
       [Invoke (at_ms 0 "a") (Limit id1); Elapse 1000 id1;
        Invoke (at_ms 2 "b") (Limit id1)]).1
    = [Verdict false; Verdict false]
  ∧ (run memory_long [(at_ms 0 "a", Limit id1); (at_ms 2 "b", Limit id1)]).1
    = [Verdict false; Verdict true]
  ∧ (run redis_long [(at_ms 0 "a", Limit id1); (at_ms 2 "b", Limit id1)]).1
    = [Verdict false; Verdict true].
Proof.
  split; [reflexivity|]. split.
  { intros t t' Ht%list_elem_of_In Ht'%list_elem_of_In.
    simpl in Ht, Ht'. unfold millisecondsToMicroseconds in Ht, Ht'. simpl. lia. }
  repeat split; vm_compute; reflexivity.
Qed.

(** * Speculative queries leave the verdicts alone *)

Lemma inWindow_inWindow (interval reading reading' : Z) (ts : list Z) :
  reading <= reading' →
  inWindow interval reading' (inWindow interval reading ts) = inWindow interval reading' ts.
Proof.
  intros Hle. unfold inWindow. apply list_filter_filter_l. intros t Ht. lia.
Qed.

Lemma stored_keyOf (self : InMemory.InMemoryRateLimiter) (id id' : Id) :
  keyOf id = keyOf id' → stored self id = stored self id'.
Proof. unfold stored. by intros ->. Qed.

Lemma inherited_keyOf (self : InMemory.InMemoryRateLimiter) (id id' : Id) :
  keyOf id = keyOf id' → inherited self id ↔ inherited self id'.
Proof. unfold inherited. by intros ->. Qed.

(** After a read the identifier has an array of its own; the other
    identifiers are where they were. *)
Lemma InMemory_refresh_inherited
    (self : InMemory.InMemoryRateLimiter) (reading : Z) (id id' : Id) (addNew : bool) :
  inherited (InMemory.refresh self reading id addNew).2 id'
  ↔ keyOf id ≠ keyOf id' ∧ inherited self id'.
Proof.
  unfold inherited. rewrite InMemory_refresh_storage.
  destruct (decide (keyOf id = keyOf id')) as [Heq|Hne].
  - rewrite <- Heq, lookup_insert_eq. naive_solver.
  - rewrite lookup_insert_ne by done. naive_solver.
Qed.

Lemma InMemory_clear_inherited (self : InMemory.InMemoryRateLimiter) (id id' : Id) :
  inherited (InMemory.onTimeout self id) id'
  ↔ (keyOf id = keyOf id' ∧ keyOf id' ∈ InMemory.Object_prototype)
    ∨ (keyOf id ≠ keyOf id' ∧ inherited self id').
Proof.
  unfold inherited. cbn [InMemory.onTimeout InMemory.storage].
  destruct (decide (keyOf id = keyOf id')) as [Heq|Hne].
  - rewrite <- Heq, lookup_delete_eq. naive_solver.
  - rewrite lookup_delete_ne by done. naive_solver.
Qed.

Lemma agree_refl (reading : Z) (self : InMemory.InMemoryRateLimiter) :
  agree reading self self.
Proof. by split. Qed.

Lemma agree_mono (reading reading' : Z) (a b : InMemory.InMemoryRateLimiter) :
  reading <= reading' → agree reading a b → agree reading' a b.
Proof.
  intros Hle (Hbase & Hwindow & Hsame). split; [done|]. split; [|done]. intros id.
  rewrite <- (inWindow_inWindow _ reading reading' (stored a id)) by done.
  rewrite <- (inWindow_inWindow _ reading reading' (stored b id)) by done.
  by rewrite Hwindow.
Qed.

(** A read at [reading] without a new timestamp drops expired timestamps
    only. *)
Lemma refresh_agree
    (self : InMemory.InMemoryRateLimiter) (reading reading' : Z) (id : Id) :
  ¬ inherited self id → reading <= reading' →
  agree reading' self (InMemory.refresh self reading id false).2.
Proof.
  intros Hown Hle. split; [by rewrite InMemory_refresh_base|]. split.
  - intros id'. destruct (decide (keyOf id = keyOf id')) as [Heq|Hne].
    + rewrite <- !(stored_keyOf _ id id') by done.
      rewrite InMemory_refresh_stored, InMemory_refresh_result, app_nil_r.
      by rewrite inWindow_inWindow.
    + by rewrite InMemory_refresh_stored_ne.
  - intros id'. rewrite InMemory_refresh_inherited.
    destruct (decide (keyOf id = keyOf id')) as [Heq|Hne]; [|naive_solver].
    rewrite <- (inherited_keyOf self id id') by done. naive_solver.
Qed.

(** Limiters that agree at [reading] answer a call at a later reading alike,
    and still agree afterwards. *)
Lemma refresh_agree_step
    (a b : InMemory.InMemoryRateLimiter) (reading current : Z) (id : Id) (addNew : bool) :
  agree reading a b → reading <= current →
  (InMemory.refresh a current id addNew).1
  = (InMemory.refresh b current id addNew).1
  ∧ agree reading (InMemory.refresh a current id addNew).2
      (InMemory.refresh b current id addNew).2.
Proof.
  intros Hagree Hle.
  pose proof (agree_mono _ _ _ _ Hle Hagree) as (Hbase & Hcurrent & _).
  destruct Hagree as (_ & Hreading & Hsame).
  assert ((InMemory.refresh a current id addNew).1
          = (InMemory.refresh b current id addNew).1) as Hresult.
  { rewrite !InMemory_refresh_result, <- Hbase. by rewrite Hcurrent. }
  split; [done|]. split; [by rewrite !InMemory_refresh_base|]. split.
  - intros id'. rewrite InMemory_refresh_base.
    destruct (decide (keyOf id = keyOf id')) as [Heq|Hne].
    + rewrite <- !(stored_keyOf _ id id') by done.
      by rewrite !InMemory_refresh_stored, Hresult.
    + rewrite !InMemory_refresh_stored_ne by done. apply Hreading.
  - intros id'. rewrite !InMemory_refresh_inherited. by rewrite Hsame.
Qed.

Lemma onTimeout_agree (a b : InMemory.InMemoryRateLimiter) (reading : Z) (id : Id) :
  agree reading a b → agree reading (InMemory.onTimeout a id) (InMemory.onTimeout b id).
Proof.
  intros (Hbase & Hreading & Hsame).
  split; [done|]. split.
  - intros id'. unfold stored. cbn [InMemory.onTimeout InMemory.storage InMemory.base].
    destruct (decide (keyOf id = keyOf id')) as [Heq|Hne].
    + by rewrite <- Heq, !lookup_delete_eq.
    + rewrite !lookup_delete_ne by done. apply Hreading.
  - intros id'. rewrite !InMemory_clear_inherited. by rewrite Hsame.
Qed.

Lemma clear_agree (a b : InMemory.InMemoryRateLimiter) (reading : Z) (id : Id) :
  agree reading a b → agree reading (InMemory.clear a id) (InMemory.clear b id).
Proof. rewrite !InMemory_clear_onTimeout. apply onTimeout_agree. Qed.

Lemma agree_rejects (a b : InMemory.InMemoryRateLimiter) (reading : Z) (c : Call) :
  agree reading a b → rejects a c ↔ rejects b c.
Proof. intros (_ & _ & Hsame). unfold rejects. by rewrite Hsame. Qed.

Lemma perform_agree (a b : InMemory.InMemoryRateLimiter) (reading : Z)
    (tick : Tick) (c : Call) :
  agree reading a b → reading <= now tick →
  (perform a tick c).1 = (perform b tick c).1
  ∧ agree reading (perform a tick c).2 (perform b tick c).2.
Proof.
  intros Hagree Hle.
  destruct (decide (rejects a c)) as [Hrejects|Hresolves].
  { rewrite !InMemory_perform_rejects; [done|by apply (agree_rejects a b reading)|done]. }
  assert (¬ rejects b c) as Hresolves'
    by (by rewrite <- (agree_rejects a b reading)).
  rewrite !InMemory_perform_outcome, !InMemory_perform_state by done. cbv zeta.
  pose proof Hagree as (Hbase & Hreading & _).
  destruct c as [id|id candidate|id|id candidate|id];
    try (destruct (refresh_agree_step a b reading (now tick) id true)
           as [-> Hstep]; [done|done|]; by rewrite Hbase);
    try (destruct (refresh_agree_step a b reading (now tick) id false)
           as [-> Hstep]; [done|done|]; by rewrite Hbase).
  split; [done|]. by apply clear_agree.
Qed.

Lemma run_agree (calls : list (Tick * Call)) (a b : InMemory.InMemoryRateLimiter)
    (reading : Z) :
  agree reading a b → (∀ r, r ∈ clock calls → reading <= r) →
  (run a calls).1 = (run b calls).1.
Proof.
  revert a b. induction calls as [|[tick c] calls IH]; intros a b Hagree Hclock; [done|].
  rewrite !run_cons. cbn [fst].
  destruct (perform_agree a b reading tick c Hagree) as [-> Hstep].
  { apply Hclock. unfold clock. rewrite fmap_cons. by left. }
  f_equal. apply IH; [done|]. intros r Hr. apply Hclock.
  unfold clock. rewrite fmap_cons. by right.
Qed.

(** The timers a call leaves depend on the timers it found alone. *)
Lemma InMemory_perform_ttls (self : InMemory.InMemoryRateLimiter) (tick : Tick) (c : Call) :
  InMemory.ttls (perform self tick c).2
  = if decide (rejects self c) then InMemory.ttls self
    else match c with
         | Limit id | LimitWithInfo id =>
             <[keyOf id := InMemory.setTimeout (now tick)
                             (microsecondsToMilliseconds (interval (InMemory.base self)))]>
               (InMemory.ttls self)
         | WouldLimit _ _ | WouldLimitWithInfo _ _ => InMemory.ttls self
         | Clear id => delete (keyOf id) (InMemory.ttls self)
         end.
Proof.
  case_decide as Hrejects; [by rewrite InMemory_perform_rejects|].
  rewrite InMemory_perform_state by done.
  destruct c; rewrite ?InMemory_refresh_ttls; try done.
  by rewrite InMemory_clear_onTimeout.
Qed.

(** Limiters that agree and have the same timers pending answer every later
    sequence of events alike, whatever the timers do. *)
Lemma step_agree (a b : InMemory.InMemoryRateLimiter) (reading : Z) (e : Event) :
  agree reading a b → InMemory.ttls a = InMemory.ttls b →
  (∀ tick c, e = Invoke tick c → reading <= now tick) →
  (step a e).1 = (step b e).1
  ∧ agree reading (step a e).2 (step b e).2
  ∧ InMemory.ttls (step a e).2 = InMemory.ttls (step b e).2.
Proof.
  intros Hagree Httls Hle. destruct e as [tick c|current id].
  - rewrite !step_Invoke. cbn [fst snd].
    destruct (perform_agree a b reading tick c Hagree) as [-> Hstep]; [by eapply Hle|].
    split; [done|]. split; [done|].
    rewrite !InMemory_perform_ttls.
    pose proof (agree_rejects a b reading c Hagree) as Hsame.
    destruct Hagree as [Hbase _]. rewrite Httls, Hbase.
    destruct (decide (rejects a c)), (decide (rejects b c)); tauto.
  - cbn [step fst snd]. split; [done|]. unfold InMemory.expire. rewrite Httls.
    destruct (InMemory.ttls b !! keyOf id) as [timer|]; [|done].
    case_bool_decide; [|done].
    split; [by apply onTimeout_agree|].
    cbn [InMemory.onTimeout InMemory.ttls]. by rewrite Httls.
Qed.

Lemma play_agree (events : list Event) (a b : InMemory.InMemoryRateLimiter)
    (reading : Z) :
  agree reading a b → InMemory.ttls a = InMemory.ttls b →
  (∀ r, r ∈ readings events → reading <= r) →
  (play a events).1 = (play b events).1.
Proof.
  revert a b. induction events as [|e events IH]; intros a b Hagree Httls Hclock; [done|].
  rewrite !play_cons. cbn [fst].
  destruct (step_agree a b reading e Hagree Httls) as (-> & Hstep & Httls').
  { intros tick c ->. apply Hclock. rewrite readings_cons. by left. }
  f_equal. apply IH; [done|done|]. intros r Hr. apply Hclock.
  rewrite readings_cons. by right.
Qed.

Lemma refresh_false (self : InMemory.InMemoryRateLimiter) (reading : Z) (id : Id) :
  InMemory.refresh self reading id false
  = (inWindow (interval (InMemory.base self)) reading (stored self id),
     {| InMemory.base := InMemory.base self;
        InMemory.storage :=
          <[keyOf id := inWindow (interval (InMemory.base self)) reading (stored self id)]>
            (InMemory.storage self);
        InMemory.ttls := InMemory.ttls self |}).
Proof. done. Qed.

(** A second read at the same reading finds nothing left to drop. *)
Lemma refresh_idempotent
    (self : InMemory.InMemoryRateLimiter) (reading : Z) (id : Id) :
  InMemory.refresh (InMemory.refresh self reading id false).2 reading id false
  = InMemory.refresh self reading id false.
Proof.
  rewrite (refresh_false self). cbn [snd].
  rewrite refresh_false. cbn [InMemory.base InMemory.storage InMemory.ttls].
  assert (∀ base l m ttls,
            stored {| InMemory.base := base; InMemory.storage := <[keyOf id := l]> m;
                      InMemory.ttls := ttls |} id = l) as Hstored.
  { intros. unfold stored. cbn [InMemory.storage]. by rewrite lookup_insert_eq. }
  rewrite !Hstored, insert_insert_eq, inWindow_inWindow by done. done.
Qed.

Lemma perform_would (self : InMemory.InMemoryRateLimiter) (tick : Tick)
    (candidate : Z) (id : Id) :
  ¬ inherited self id →
  perform self tick (WouldLimitWithInfo id candidate)
  = (Info (Base.calculateInfo (InMemory.base self)
             (Some <$> (InMemory.refresh self (now tick) id false).1 ++ [candidate]) true),
     (InMemory.refresh self (now tick) id false).2).
Proof.
  intros Hown. unfold perform. by rewrite InMemory_wouldLimitWithInfo.
Qed.

(** Repeating a speculative query on a limiter that a read at the same
    reading leaves as it is gives the same verdict every time. *)
Lemma would_repeated_fixed (self : InMemory.InMemoryRateLimiter) (tick : Tick)
    (candidate : Z) (id : Id) (n : nat) :
  ¬ inherited self id →
  (InMemory.refresh self (now tick) id false).2 = self →
  run self (replicate n (tick, WouldLimitWithInfo id candidate))
  = (replicate n
       (Info (Base.calculateInfo (InMemory.base self)
                (Some <$> (InMemory.refresh self (now tick) id false).1 ++ [candidate])
                true)),
     self).
Proof.
  intros Hown Hfixed. induction n as [|n IH]; [done|].
  cbn [replicate]. rewrite run_cons, perform_would by done. cbn [fst snd].
  by rewrite Hfixed, IH.
Qed.

Lemma would_repeated (self : InMemory.InMemoryRateLimiter) (tick : Tick)
    (candidate : Z) (id : Id) (n : nat) :
  ¬ inherited self id →
  run self (replicate (S n) (tick, WouldLimitWithInfo id candidate))
  = (replicate (S n)
       (Info (Base.calculateInfo (InMemory.base self)
                (Some <$> (InMemory.refresh self (now tick) id false).1 ++ [candidate])
                true)),
     (InMemory.refresh self (now tick) id false).2).
Proof.
  intros Hown. cbn [replicate]. rewrite run_cons, perform_would by done. cbn [fst snd].
  rewrite would_repeated_fixed.
  - by rewrite refresh_idempotent, InMemory_refresh_base.
  - rewrite InMemory_refresh_inherited. naive_solver.
  - by rewrite refresh_idempotent.
Qed.

(** C5 as stated fails.  After two attempts at the start of the epoch, a
    speculative query at 20 ms replaces the stored list by the pruned, empty
    one, and an attempt that then reads the clock at 5 ms is let through,
    while without the query it is blocked. *)
Lemma wouldLimit_changes_store :
  stored memory_two_attempts id1 = [0; 0]
  ∧ stored (run memory_two_attempts [(at_ms 20 "c", WouldLimit id1 20000)]).2 id1 = []
  ∧ (run memory_two_attempts [(at_ms 5 "d", Limit id1)]).1 = [Verdict true]
  ∧ (run memory_two_attempts
       [(at_ms 20 "c", WouldLimit id1 20000); (at_ms 5 "d", Limit id1)]).1
    = [Verdict false; Verdict false].
Proof. repeat split; vm_compute; reflexivity. Qed.

(** C5, amended.  On the in-memory store, for an identifier that does not
    name a member of [Object.prototype], a speculative query records no
    attempt: its only effect on the store is to persist the pruned list of
    the identifier (the expired timestamps are dropped, an unknown identifier
    gets an empty list); the timers and every other identifier are
    untouched.  Asked any number of times in a row at the same clock
    readings it gives the same verdict and leaves the same store as asked
    once.  It changes no verdict of any later sequence of calls whose clock
    readings are not earlier than its own, whatever the timers do in
    between. *)
Theorem wouldLimit_observations
    (self : InMemory.InMemoryRateLimiter) (tick : Tick) (candidate : Z) (id : Id) :
  plain id →
  ∃ info after,
    wouldLimitWithInfo self tick candidate id = Return (info, after)
    ∧ wouldLimit self tick candidate id = Return (blocked info, after)
    ∧ InMemory.getTimestamps self (now tick) id false
      = Return (inWindow (interval (InMemory.base self)) (now tick) (stored self id), after)
    ∧ InMemory.base after = InMemory.base self
    ∧ InMemory.ttls after = InMemory.ttls self
    ∧ stored after id = inWindow (interval (InMemory.base self)) (now tick) (stored self id)
    ∧ (∀ id', keyOf id' ≠ keyOf id → stored after id' = stored self id')
    ∧ (∀ n, run self (replicate (S n) (tick, WouldLimitWithInfo id candidate))
            = (replicate (S n) (Info info), after))
    ∧ (∀ events, (∀ r, r ∈ readings events → now tick <= r) →
                 (play after events).1 = (play self events).1).
Proof.
  intros Hown%(plain_own self).
  eexists _, (InMemory.refresh self (now tick) id false).2.
  split; [by apply InMemory_wouldLimitWithInfo|].
  split; [unfold wouldLimit; by rewrite InMemory_wouldLimitWithInfo|].
  split; [by rewrite InMemory_getTimestamps_own|].
  split; [apply InMemory_refresh_base|]. split; [done|].
  split.
  { by rewrite InMemory_refresh_stored, InMemory_refresh_result, app_nil_r. }
  split.
  { intros id' Hne. by rewrite InMemory_refresh_stored_ne. }
  split; [intros n; by apply would_repeated|].
  intros events Hclock. symmetry.
  apply play_agree with (now tick); [|done|done].
  by apply refresh_agree.
Qed.

Lemma wouldLimit_observations_witness :
  plain id1
  ∧ (∀ r, r ∈ readings [Elapse 20000 id1; Invoke (at_ms 20 "d") (Limit id1)] →
          now (at_ms 20 "c") <= r)
  ∧ ∃ info after,
      wouldLimitWithInfo memory_two_attempts (at_ms 20 "c") 20000 id1 = Return (info, after)
      ∧ (play after [Elapse 20000 id1; Invoke (at_ms 20 "d") (Limit id1)]).1
        = (play memory_two_attempts
             [Elapse 20000 id1; Invoke (at_ms 20 "d") (Limit id1)]).1.
Proof.
  assert (∀ r, r ∈ readings [Elapse 20000 id1; Invoke (at_ms 20 "d") (Limit id1)] →
               now (at_ms 20 "c") <= r)
    as Hclock.
  { intros r Hr%list_elem_of_In. simpl in Hr. destruct Hr as [<-|[<-|[]]]; done. }
  split; [apply IdNum_plain|]. split; [exact Hclock|].
  destruct (wouldLimit_observations memory_two_attempts (at_ms 20 "c") 20000 id1
              (IdNum_plain 1))
    as (info & after & Hcall & _ & _ & _ & _ & _ & _ & _ & Hlater).
  exists info, after. split; [exact Hcall|]. by apply Hlater.
Defined.

(** * The two back ends side by side *)

Lemma perform_read {L : Type} `{Limiter L} (self self' : L) (tick : Tick) (c : Call)
    (timestamps : list num) :
  c ≠ Clear (call_id c) →
  getTimestamps self tick (call_id c) (call_adds c) = Return (timestamps, self') →
  perform self tick c = (call_outcome (super self) timestamps c, self').
Proof.
  intros Hc Hget.
  destruct c; cbn [call_id call_adds call_outcome] in *; try done;
    unfold perform, limit, wouldLimit, limitWithInfo, wouldLimitWithInfo;
    by rewrite Hget.
Qed.

Lemma filter_scores (clearBefore : Z) (z : Server.zset) :
  (∀ e, e ∈ z → 0 <= e.2) →
  (survivors clearBefore z).*2 = filter (λ t, clearBefore < t) z.*2.
Proof.
  unfold survivors. induction z as [|e z IH]; intros Hscores; [done|].
  assert (0 <= e.2) by (apply Hscores; by left).
  specialize (IH (λ x Hx, Hscores x (list_elem_of_further _ _ _ Hx))).
  rewrite fmap_cons. destruct (decide (clearBefore < e.2)) as [Hlater|Hexpired].
  - rewrite (filter_cons_True (λ t, clearBefore < t)) by done.
    rewrite (filter_cons_True (λ x : string * Z, ¬ (0 <= x.2 <= clearBefore)))
      by (simpl; lia).
    rewrite fmap_cons. f_equal. exact IH.
  - rewrite (filter_cons_False (λ t, clearBefore < t)) by done.
    rewrite (filter_cons_False (λ x : string * Z, ¬ (0 <= x.2 <= clearBefore)))
      by (simpl; lia).
    exact IH.
Qed.

Lemma all_equal_snoc {A : Type} (c : A) (l : list A) :
  (∀ x, x ∈ l → x = c) → c :: l = l ++ [c].
Proof.
  induction l as [|x l IH]; intros Hall; [done|].
  rewrite (Hall x) by (by left). simpl. f_equal. apply IH.
  intros y Hy. apply Hall. by right.
Qed.

(** Placing an entry whose score is not below any score of an ascending set
    puts its score last. *)
Lemma place_scores (e : string * Z) (z : Server.zset) :
  StronglySorted Z.le z.*2 → (∀ x, x ∈ z → x.2 <= e.2) →
  (Server.place e z).*2 = z.*2 ++ [e.2].
Proof.
  induction z as [|x z IH]; intros Hsorted Hbound; [done|].
  rewrite fmap_cons in Hsorted. apply StronglySorted_inv in Hsorted as [Hsorted Hx].
  assert (x.2 <= e.2) as Hxe by (apply Hbound; by left).
  cbn [Server.place]. destruct (Server.entry_leb e x) eqn:Hleb.
  - unfold Server.entry_leb in Hleb.
    assert (e.2 = x.2) as Heq.
    { apply orb_true_iff in Hleb as [Hlt%bool_decide_eq_true|Heq%andb_true_iff];
        [lia|]. destruct Heq as [Heq%bool_decide_eq_true _]. done. }
    rewrite fmap_cons. apply (all_equal_snoc e.2 ((x :: z).*2)).
    intros t (y & -> & Hy)%list_elem_of_fmap.
    apply elem_of_cons in Hy as [->|Hy]; [done|].
    rewrite Forall_forall in Hx.
    assert (x.2 <= y.2) by (apply Hx, list_elem_of_fmap; eauto).
    assert (y.2 <= e.2) by (apply Hbound; by right). lia.
  - rewrite !fmap_cons. simpl. f_equal. apply IH; [done|].
    intros y Hy. apply Hbound. by right.
Qed.

Lemma Redis_clear_members (self : Redis.RedisRateLimiter) (id id' : Id) :
  Redis.base (Redis.clear self id) = Redis.base self
  ∧ members (Redis.clear self id) id'
    = if decide (keyOf id' = keyOf id) then [] else members self id'.
Proof.
  split; [done|]. unfold members, Redis.clear, Redis.client_exec.
  rewrite (exec_cons (Server.DEL _) []). cbn [Server.exec fst snd].
  cbn [Redis.with_client Redis.client Redis.server Redis.namespace].
  change (Redis.makeKey (Redis.with_client self _) id') with (Redis.makeKey self id').
  destruct (Redis.library (Redis.client self));
    cbn [Redis.server Server.run snd]; unfold Server.lookup_set; cbn [Server.sets];
    (case_decide as Hkey;
     [unfold Redis.makeKey; rewrite Hkey; by rewrite lookup_delete_eq
     |rewrite lookup_delete_ne; [done|];
      unfold Redis.makeKey; intros Heq;
      by apply (inj (String.app (Redis.namespace self))) in Heq]).
Qed.

Lemma members_keyOf (self : Redis.RedisRateLimiter) (id id' : Id) :
  keyOf id = keyOf id' → members self id = members self id'.
Proof. unfold members, Redis.makeKey. by intros ->. Qed.

(** One read keeps the two stores in step, as long as the clock has not run
    backwards and the token is new. *)
Lemma getTimestamps_mirrors
    (m : InMemory.InMemoryRateLimiter) (r : Redis.RedisRateLimiter)
    (reading : Z) (used : list string) (tick : Tick) (id : Id) (addNew : bool) :
  mirrors reading used m r → reading <= now tick → uuid tick ∉ used →
  ∃ r',
    Redis.getTimestamps r tick id addNew
    = Return (Some <$> (InMemory.refresh m (now tick) id addNew).1, r')
    ∧ mirrors (now tick) (used ++ [uuid tick])
        (InMemory.refresh m (now tick) id addNew).2 r'.
Proof.
  intros (Hbase & Hreading & Hall) Hle Hfresh.
  destruct (Redis_getTimestamps_spec r tick id addNew)
    as (r' & Hget & Hbase' & _ & _ & _ & Hset & Hother).
  cbv zeta in Hget, Hset.
  destruct (Hall id) as (Hscores & Hsorted & Hrange & Hmembers).
  set (kept := survivors (now tick - interval (Redis.base r)) (members r id)) in *.
  assert (∀ e, e ∈ members r id → 0 <= e.2 <= reading) as Hentries.
  { intros e He. apply Hrange. rewrite <- Hscores. apply list_elem_of_fmap. eauto. }
  assert (kept.*2 = inWindow (interval (InMemory.base m)) (now tick) (stored m id))
    as Hkept.
  { subst kept. rewrite filter_scores by (intros e He; by apply Hentries).
    by rewrite Hscores, Hbase. }
  assert (∀ e, e ∈ kept → e ∈ members r id) as Hsub.
  { intros e He. subst kept. unfold survivors in He.
    by apply list_elem_of_filter in He as [_ ?]. }
  assert (filter (λ e : string * Z, e.1 ≠ uuid tick) kept = kept) as Hnew.
  { apply filter_all. intros e He Heq. apply Hfresh. rewrite <- Heq.
    by apply Hmembers, Hsub. }
  assert (StronglySorted Z.le kept.*2) as Hkept_sorted.
  { rewrite Hkept. unfold inWindow. by apply StronglySorted_filter. }
  set (set' := if addNew
               then Server.place (uuid tick, now tick)
                      (filter (λ e : string * Z, e.1 ≠ uuid tick) kept)
               else kept) in *.
  assert (set'.*2 = (InMemory.refresh m (now tick) id addNew).1) as Hresult.
  { rewrite InMemory_refresh_result, <- Hkept. subst set'.
    destruct addNew; [|by rewrite app_nil_r].
    rewrite Hnew. apply (place_scores (uuid tick, now tick)); [done|].
    intros x Hx. apply Hsub, Hentries in Hx. simpl. lia. }
  exists r'. split; [by rewrite Hget, Hresult|].
  split; [by rewrite InMemory_refresh_base, Hbase'|]. split; [lia|].
  assert (∀ e, e ∈ set' → e.1 ∈ used ++ [uuid tick]) as Hset_members.
  { intros e He. subst set'. rewrite elem_of_app. destruct addNew.
    - rewrite Hnew in He. apply elem_of_place in He as [->|He].
      + right. simpl. by left.
      + left. by apply Hmembers, Hsub.
    - left. by apply Hmembers, Hsub. }
  assert (∀ t, t ∈ (InMemory.refresh m (now tick) id addNew).1 →
               0 <= t <= now tick) as Hresult_range.
  { intros t. rewrite InMemory_refresh_result, elem_of_app. unfold inWindow.
    intros [[_ Ht]%list_elem_of_filter|Ht].
    - apply Hrange in Ht. lia.
    - destruct addNew; [|by apply elem_of_nil in Ht].
      apply list_elem_of_singleton in Ht as ->. lia. }
  assert (StronglySorted Z.le (InMemory.refresh m (now tick) id addNew).1)
    as Hresult_sorted.
  { rewrite InMemory_refresh_result. apply StronglySorted_app_2.
    - intros t t' [_ Ht]%list_elem_of_filter Ht'.
      destruct addNew; [|by apply elem_of_nil in Ht'].
      apply list_elem_of_singleton in Ht' as ->. apply Hrange in Ht. lia.
    - by apply StronglySorted_filter.
    - destruct addNew; repeat constructor. }
  intros id'. destruct (decide (keyOf id = keyOf id')) as [Heq|Hne].
  - rewrite <- (members_keyOf r' id id'), <- (stored_keyOf _ id id') by done.
    rewrite InMemory_refresh_stored, Hset. done.
  - rewrite InMemory_refresh_stored_ne, Hother by done.
    destruct (Hall id') as (Hscores' & Hsorted' & Hrange' & Hmembers').
    split; [done|]. split; [done|]. split.
    + intros t Ht. apply Hrange' in Ht. lia.
    + intros e He. apply elem_of_app. left. by apply Hmembers'.
Qed.

Lemma mirrors_mono (reading reading' : Z) (used used' : list string)
    (m : InMemory.InMemoryRateLimiter) (r : Redis.RedisRateLimiter) :
  reading <= reading' → used ⊆ used' →
  mirrors reading used m r → mirrors reading' used' m r.
Proof.
  intros Hle Hsub (Hbase & Hreading & Hall).
  split; [done|]. split; [lia|]. intros id.
  destruct (Hall id) as (Hscores & Hsorted & Hrange & Hmembers).
  split; [done|]. split; [done|]. split.
  - intros t Ht. apply Hrange in Ht. lia.
  - intros e He. by apply Hsub, Hmembers.
Qed.

Lemma clear_mirrors (reading : Z) (used : list string)
    (m : InMemory.InMemoryRateLimiter) (r : Redis.RedisRateLimiter) (id : Id) :
  mirrors reading used m r → mirrors reading used (InMemory.clear m id) (Redis.clear r id).
Proof.
  intros (Hbase & Hreading & Hall).
  split; [unfold InMemory.clear; by case_match|]. split; [done|]. intros id'.
  destruct (Redis_clear_members r id id') as [_ ->].
  unfold stored. rewrite InMemory_clear_storage.
  case_decide as Hkey.
  - rewrite Hkey, lookup_delete_eq. simpl.
    split; [done|]. split; [constructor|]. split; by intros ? ?%elem_of_nil.
  - rewrite lookup_delete_ne by done. apply Hall.
Qed.

(** A call is answered alike by the two back ends when they are in step, and
    leaves them in step, unless the in-memory store rejects it. *)
Lemma perform_mirrors
    (m : InMemory.InMemoryRateLimiter) (r : Redis.RedisRateLimiter)
    (reading : Z) (used : list string) (tick : Tick) (c : Call) :
  mirrors reading used m r → ¬ rejects m c → reading <= now tick → uuid tick ∉ used →
  (perform m tick c).1 = (perform r tick c).1
  ∧ mirrors (now tick) (used ++ [uuid tick]) (perform m tick c).2 (perform r tick c).2.
Proof.
  intros Hmirrors Hresolves Hle Hfresh.
  assert (c = Clear (call_id c) ∨ (c ≠ Clear (call_id c) ∧ reads c = true)) as [Hc|[Hc Hreads]]
    by (destruct c; (by left) || (by right)).
  - rewrite Hc in Hresolves |- *. split; [done|]. cbn [call_id].
    rewrite InMemory_perform_state by done.
    apply mirrors_mono with reading used; [done|set_solver|].
    by apply clear_mirrors.
  - destruct (getTimestamps_mirrors m r reading used tick (call_id c) (call_adds c))
      as (r' & Hget & Hstep); [done..|].
    set (ts := (InMemory.refresh m (now tick) (call_id c) (call_adds c)).1) in *.
    set (m' := (InMemory.refresh m (now tick) (call_id c) (call_adds c)).2) in *.
    assert (getTimestamps r tick (call_id c) (call_adds c) = Return (Some <$> ts, r'))
      as Hredis by exact Hget.
    assert (getTimestamps m tick (call_id c) (call_adds c) = Return (Some <$> ts, m'))
      as Hmemory.
    { subst ts m'. apply getTimestamps_own. intros Hin. by apply Hresolves. }
    rewrite (perform_read r r' tick c _ Hc Hredis).
    rewrite (perform_read m m' tick c _ Hc Hmemory).
    cbn [fst snd]. split; [|done]. destruct Hmirrors as [Hbase _].
    change (super m) with (InMemory.base m). change (super r) with (Redis.base r).
    by rewrite Hbase.
Qed.

Lemma run_mirrors (calls : list (Tick * Call))
    (m : InMemory.InMemoryRateLimiter) (r : Redis.RedisRateLimiter)
    (reading : Z) (used : list string) :
  mirrors reading used m r →
  Forall (λ c, plain (call_id c.2)) calls →
  nondecreasing (reading :: clock calls) →
  NoDup (used ++ tokens calls) →
  (run m calls).1 = (run r calls).1
  ∧ ∀ final, nondecreasing (reading :: clock calls ++ [final]) →
             mirrors final (used ++ tokens calls) (run m calls).2 (run r calls).2.
Proof.
  revert m r reading used.
  induction calls as [|[tick c] calls IH];
    intros m r reading used Hmirrors Hplain Hclock Htokens.
  { split; [done|]. intros final Hfinal. cbn [clock fmap list_fmap app] in Hfinal.
    apply StronglySorted_inv in Hfinal as [_ Hle]. apply Forall_cons in Hle as [Hle _].
    rewrite app_nil_r. by apply mirrors_mono with reading used. }
  apply Forall_cons in Hplain as [Hid Hplain]. cbn [snd] in Hid.
  unfold clock in Hclock. rewrite fmap_cons in Hclock.
  apply StronglySorted_inv in Hclock as [Hclock Hfirst].
  apply Forall_cons in Hfirst as [Hle _]. cbn [fst] in Hle.
  unfold tokens in Htokens. rewrite fmap_cons in Htokens. cbn [fst] in Htokens.
  destruct (perform_mirrors m r reading used tick c Hmirrors) as [Houtcome Hstep].
  { intros [Hin _]. by apply (plain_own m (call_id c)). }
  { done. }
  { apply NoDup_app in Htokens as (_ & Hdisjoint & _). intros Hin.
    apply (Hdisjoint _ Hin). by left. }
  rewrite !run_cons. cbn [fst snd]. rewrite Houtcome.
  destruct (IH _ _ (now tick) (used ++ [uuid tick]) Hstep) as [-> Hfinal];
    [done|done|by rewrite <- app_assoc|].
  split; [done|]. intros final Hsorted.
  unfold tokens. rewrite fmap_cons. cbn [fst].
  replace (used ++ uuid tick :: ((λ c, uuid c.1) <$> calls))
    with ((used ++ [uuid tick]) ++ tokens calls) by (by rewrite <- app_assoc).
  apply Hfinal. unfold clock in Hsorted. rewrite fmap_cons in Hsorted.
  cbn [app fst] in Hsorted. by apply StronglySorted_inv in Hsorted as [? _].
Qed.

(** * The expiry timer *)

Lemma filter_none {A : Type} (P : A → Prop) `{∀ x, Decision (P x)} (l : list A) :
  (∀ x, x ∈ l → ¬ P x) → filter P l = [].
Proof.
  induction l as [|x l IH]; intros Hnone; [done|].
  rewrite filter_cons_False by (apply Hnone; by left).
  apply IH. intros y Hy. apply Hnone. by right.
Qed.

Lemma StronglySorted_sublist {A : Type} (R : relation A) (l l' : list A) :
  l' `sublist_of` l → StronglySorted R l → StronglySorted R l'.
Proof.
  intros Hsub. induction Hsub as [|x l1 l2 Hsub IH|x l1 l2 Hsub IH]; intros Hsorted;
    [done| |].
  - apply StronglySorted_inv in Hsorted as [Hsorted Hx].
    apply SSorted_cons; [by apply IH|].
    rewrite Forall_forall in Hx |- *. intros y Hy. apply Hx.
    by apply (elem_of_sublist l1 l2).
  - apply StronglySorted_inv in Hsorted as [Hsorted _]. by apply IH.
Qed.

(** The readings of the calls are among the readings of the events, in the
    same order. *)
Lemma clock_calls_of (events : list Event) :
  clock (calls_of events) `sublist_of` readings events.
Proof.
  induction events as [|[tick c|reading id] events IH]; [done| |].
  - by apply sublist_skip.
  - by apply sublist_cons.
Qed.

(** With a window of at most [TIMEOUT_MAX] milliseconds the delay of the
    timer is the window itself. *)
Lemma setTimeout_interval (self : RateLimiter) (currentTimestamp : Z) :
  0 < interval self → interval self <= millisecondsToMicroseconds InMemory.TIMEOUT_MAX →
  InMemory.setTimeout currentTimestamp (microsecondsToMilliseconds (interval self))
  = {| InMemory.idleStart := currentTimestamp;
       InMemory.idleTimeout := microsecondsToMilliseconds (interval self) |}
  ∧ interval self
    <= millisecondsToMicroseconds (microsecondsToMilliseconds (interval self)).
Proof.
  intros HI Hlong.
  pose proof (microsecondsToMilliseconds_ceiling (interval self)) as Hceiling.
  pose proof (microsecondsToMilliseconds_mono _ _ Hlong) as Hmono.
  rewrite microsecondsToMilliseconds_exact in Hmono.
  unfold InMemory.setTimeout, millisecondsToMicroseconds in *.
  rewrite bool_decide_eq_true_2 by lia. split; [done|lia].
Qed.

Lemma refresh_covered
    (self : InMemory.InMemoryRateLimiter) (now : Z) (id : Id) (addNew : bool) :
  0 < interval (InMemory.base self) →
  interval (InMemory.base self) <= millisecondsToMicroseconds InMemory.TIMEOUT_MAX →
  tidy now self → covered self → covered (InMemory.refresh self now id addNew).2.
Proof.
  intros HI Hlong Htidy Hcovered key timer.
  rewrite InMemory_refresh_ttls, InMemory_refresh_storage, InMemory_refresh_base.
  destruct (setTimeout_interval (InMemory.base self) now HI Hlong) as [Htimer Hwait].
  assert (∀ t, t ∈ (InMemory.refresh self now id addNew).1 → t <= now) as Hbound.
  { intros t. rewrite InMemory_refresh_result, elem_of_app. unfold inWindow, stored.
    intros [[_ Ht]%list_elem_of_filter|Ht].
    - destruct (InMemory.storage self !! keyOf id) as [ts|] eqn:Hkey;
        [|by apply elem_of_nil in Ht].
      by apply (Htidy _ _ Hkey).
    - destruct addNew; [|by apply elem_of_nil in Ht].
      apply list_elem_of_singleton in Ht as ->. done. }
  destruct (decide (keyOf id = key)) as [<-|Hne].
  - rewrite lookup_insert_eq. cbn [default]. destruct addNew.
    + rewrite lookup_insert_eq, Htimer. intros [= <-]. cbn. split; [done|exact Hbound].
    + intros Hkey. destruct (Hcovered _ _ Hkey) as [Hlonger Hstart]. split; [done|].
      intros t. rewrite InMemory_refresh_result, app_nil_r. unfold inWindow, stored.
      intros [_ Ht]%list_elem_of_filter. by apply Hstart.
  - rewrite lookup_insert_ne by done.
    destruct addNew; rewrite ?lookup_insert_ne by done; apply Hcovered.
Qed.

Lemma onTimeout_covered (self : InMemory.InMemoryRateLimiter) (id : Id) :
  covered self → covered (InMemory.onTimeout self id).
Proof.
  intros Hcovered key timer. cbn [InMemory.onTimeout InMemory.ttls InMemory.storage
                                  InMemory.base].
  intros [Hne Hkey]%lookup_delete_Some. rewrite lookup_delete_ne by done.
  by apply Hcovered.
Qed.

Lemma perform_covered (self : InMemory.InMemoryRateLimiter) (tick : Tick) (c : Call) :
  0 < interval (InMemory.base self) →
  interval (InMemory.base self) <= millisecondsToMicroseconds InMemory.TIMEOUT_MAX →
  tidy (now tick) self → covered self → covered (perform self tick c).2.
Proof.
  intros HI Hlong Htidy Hcovered.
  destruct (decide (rejects self c)) as [Hrejects|Hresolves];
    [by rewrite InMemory_perform_rejects|].
  rewrite InMemory_perform_state by done.
  destruct c; try by apply refresh_covered.
  rewrite InMemory_clear_onTimeout. by apply onTimeout_covered.
Qed.

(** A timer that runs when it is due removes nothing a read would have kept. *)
Lemma expire_agree
    (p q : InMemory.InMemoryRateLimiter) (reading current : Z) (id : Id) :
  agree reading p q → reading <= current → covered p → clean p →
  agree current (InMemory.expire p current id) q.
Proof.
  intros Hagree Hle Hcovered Hclean.
  apply (agree_mono _ _ _ _ Hle) in Hagree.
  unfold InMemory.expire.
  destruct (InMemory.ttls p !! keyOf id) as [timer|] eqn:Htimer; [|done].
  case_bool_decide as Hdue; [|done].
  destruct (Hcovered _ _ Htimer) as [Hlonger Hstart].
  destruct Hagree as (Hbase & Hwindow & Hsame).
  split; [done|]. split.
  - intros id'. cbn [InMemory.onTimeout InMemory.base]. rewrite <- Hwindow.
    unfold stored at 1. cbn [InMemory.onTimeout InMemory.storage].
    destruct (decide (keyOf id = keyOf id')) as [Heq|Hne];
      [|by rewrite lookup_delete_ne].
    rewrite <- Heq, lookup_delete_eq. cbn [default].
    rewrite <- (stored_keyOf p id id') by done.
    unfold inWindow. rewrite filter_nil. symmetry. apply filter_none.
    intros t Ht. apply Hstart in Ht. unfold InMemory.due in Hdue. lia.
  - intros id'. rewrite <- Hsame, InMemory_clear_inherited. unfold inherited.
    destruct (decide (keyOf id = keyOf id')) as [Heq|Hne]; [|naive_solver].
    split; [|naive_solver]. intros [[_ Hproto]|[? _]]; [|done].
    split; [by apply Hclean|done].
Qed.

Lemma expire_covered (self : InMemory.InMemoryRateLimiter) (reading : Z) (id : Id) :
  covered self → covered (InMemory.expire self reading id).
Proof.
  intros Hcovered. unfold InMemory.expire. repeat case_match; try done.
  by apply onTimeout_covered.
Qed.

(** While the window is at most [TIMEOUT_MAX] milliseconds long and the clock
    never runs backwards, the timers cannot be observed: the calls of a
    sequence of events are answered as if no timer had run. *)
Lemma play_unobservable (events : list Event) (p q : InMemory.InMemoryRateLimiter)
    (reading : Z) :
  0 < interval (InMemory.base p) →
  interval (InMemory.base p) <= millisecondsToMicroseconds InMemory.TIMEOUT_MAX →
  agree reading p q → tidy reading p → covered p → clean p →
  nondecreasing (reading :: readings events) →
  (play p events).1 = (run q (calls_of events)).1
  ∧ ∀ final, nondecreasing (reading :: readings events ++ [final]) →
             agree final (play p events).2 (run q (calls_of events)).2.
Proof.
  revert p q reading.
  induction events as [|e events IH];
    intros p q reading HI Hlong Hagree Htidy Hcovered Hclean Hclock.
  { split; [done|]. intros final Hfinal. cbn [readings fmap list_fmap app] in Hfinal.
    apply StronglySorted_inv in Hfinal as [_ Hle]. apply Forall_cons in Hle as [Hle _].
    by apply agree_mono with reading. }
  rewrite readings_cons in Hclock.
  apply StronglySorted_inv in Hclock as [Hclock Hfirst].
  apply Forall_cons in Hfirst as [Hle _].
  rewrite play_cons. cbn [fst snd].
  destruct e as [tick c|current id].
  - rewrite step_Invoke, calls_of_Invoke, run_cons. cbn [fst snd app].
    destruct (perform_agree p q reading tick c Hagree Hle) as [Houtcome Hstep].
    apply (tidy_mono _ _ _ Hle) in Htidy.
    destruct (IH (perform p tick c).2 (perform q tick c).2 (now tick)) as [Houtcomes Hfinal].
    + by rewrite InMemory_perform_base.
    + by rewrite InMemory_perform_base.
    + by apply agree_mono with reading.
    + by apply perform_tidy.
    + by apply perform_covered.
    + pose proof (step_clean p (Invoke tick c) Hclean) as Hclean'.
      by rewrite step_Invoke in Hclean'.
    + done.
    + rewrite Houtcome, Houtcomes. split; [done|]. intros final Hsorted.
      apply Hfinal. rewrite readings_cons in Hsorted. cbn [app] in Hsorted.
      by apply StronglySorted_inv in Hsorted as [? _].
  - rewrite calls_of_Elapse. cbn [step fst snd app].
    destruct (IH (InMemory.expire p current id) q current) as [Houtcomes Hfinal].
    + by rewrite InMemory_expire_base.
    + by rewrite InMemory_expire_base.
    + by apply expire_agree with reading.
    + apply expire_tidy. by apply tidy_mono with reading.
    + by apply expire_covered.
    + apply (step_clean p (Elapse current id) Hclean).
    + done.
    + split; [done|]. intros final Hsorted.
      apply Hfinal. rewrite readings_cons in Hsorted. cbn [app] in Hsorted.
      by apply StronglySorted_inv in Hsorted as [? _].
Qed.

(** A constructed limiter is in the state the lemmas above ask for. *)
Lemma constructor_sound (options : RateLimiterOptions) (self : InMemory.InMemoryRateLimiter)
    (reading : Z) :
  InMemory.constructor options = Return self →
  Base.constructor options = Return (InMemory.base self)
  ∧ agree reading self self ∧ tidy reading self ∧ covered self ∧ clean self.
Proof.
  unfold InMemory.constructor.
  destruct (Base.constructor options) as [base|] eqn:Hbase; settle_completion; [|done].
  intros [= <-]. split; [done|]. split; [apply agree_refl|].
  split; [|split]; intros key ?; cbn [InMemory.storage InMemory.ttls];
    by rewrite lookup_empty.
Qed.

(** * The two back ends, and the timers of the one *)

(** C6 as stated fails.  When the clock reads 5 ms at a first attempt and
    3 ms at a second, the in-memory store hands back the timestamps in the
    order of the attempts and the second attempt is blocked by the distance
    check, while Redis hands them back by score and the attempt is let
    through. *)
Lemma backends_disagree :
  InMemory.constructor options_10_3_2 = Return memory_10_3_2
  ∧ Redis.constructor node_redis "limiter:" options_10_3_2 = Return redis_10_3_2
  ∧ (run memory_10_3_2 clock_runs_backwards).1 = [Verdict false; Verdict true]
  ∧ (run redis_10_3_2 clock_runs_backwards).1 = [Verdict false; Verdict false]
  ∧ stored (run memory_10_3_2 clock_runs_backwards).2 id1 = [5000; 3000]
  ∧ (members (run redis_10_3_2 clock_runs_backwards).2 id1).*2 = [3000; 5000].
Proof. repeat split; vm_compute; reflexivity. Qed.

(** C6, amended.  Two freshly constructed limiters with the same options, one
    in memory and one on a Redis that holds no set under the namespace,
    answer every sequence of public calls alike, and a read that follows
    yields the same list of timestamps on both, provided the clock readings
    are not negative and never decrease, the tokens of the calls are pairwise
    distinct, the window is at most [TIMEOUT_MAX] milliseconds long and the
    identifiers do not name members of [Object.prototype].  The timers of the
    in-memory limiter may run at any reading from their due time on. *)
Theorem backends_agree
    (options : RateLimiterOptions) (client : Redis.RedisClient) (namespace : string)
    (m : InMemory.InMemoryRateLimiter) (r : Redis.RedisRateLimiter)
    (events : list Event) :
  InMemory.constructor options = Return m →
  Redis.constructor client namespace options = Return r →
  (∀ id, members r id = []) →
  interval (InMemory.base m) <= millisecondsToMicroseconds InMemory.TIMEOUT_MAX →
  Forall (λ c, plain (call_id c.2)) (calls_of events) →
  nondecreasing (0 :: readings events) →
  NoDup (tokens (calls_of events)) →
  (play m events).1 = (run r (calls_of events)).1
  ∧ ∀ tick id addNew,
      plain id →
      nondecreasing (0 :: readings events ++ [now tick]) →
      uuid tick ∉ tokens (calls_of events) →
      ∃ timestamps m' r',
        InMemory.getTimestamps (play m events).2 (now tick) id addNew
        = Return (timestamps, m')
        ∧ Redis.getTimestamps (run r (calls_of events)).2 tick id addNew
          = Return (Some <$> timestamps, r').
Proof.
  intros Hm Hr Hempty Hlong Hplain Hclock Htokens.
  destruct (constructor_sound options m 0 Hm) as (Hbase & Hagree & Htidy & Hcovered & Hclean).
  pose proof (constructor_valid _ _ Hbase) as (HI & _ & _).
  assert (mirrors 0 [] m r) as Hmirrors.
  { unfold Redis.constructor in Hr. rewrite Hbase in Hr. settle_completion.
    injection Hr as <-. split; [done|]. split; [done|]. intros id. rewrite Hempty.
    unfold stored. unfold InMemory.constructor in Hm. rewrite Hbase in Hm. settle_completion.
    injection Hm as Hm. rewrite <- Hm. cbn [InMemory.storage]. rewrite lookup_empty.
    split; [done|]. split; [constructor|]. split; by intros ? ?%elem_of_nil. }
  destruct (play_unobservable events m m 0 HI Hlong Hagree Htidy Hcovered Hclean Hclock)
    as [Hplayed Hfinal].
  destruct (run_mirrors (calls_of events) m r 0 [] Hmirrors Hplain) as [Hrun Hstep];
    [|done|].
  { apply StronglySorted_sublist with (0 :: readings events); [|done].
    apply sublist_skip, clock_calls_of. }
  split; [by rewrite Hplayed|].
  intros tick id addNew Hid Hlast Hfresh.
  specialize (Hfinal (now tick) Hlast).
  assert (mirrors (now tick) ([] ++ tokens (calls_of events))
            (run m (calls_of events)).2 (run r (calls_of events)).2) as Hlater.
  { apply Hstep. apply StronglySorted_sublist with (0 :: readings events ++ [now tick]);
      [|done].
    apply sublist_skip, sublist_app; [apply clock_calls_of|done]. }
  destruct (getTimestamps_mirrors _ _ _ _ tick id addNew Hlater) as (r' & Hget & _);
    [done|done|].
  destruct (refresh_agree_step _ _ (now tick) (now tick) id addNew Hfinal) as [Hsame _];
    [done|].
  exists (InMemory.refresh (play m events).2 (now tick) id addNew).1,
         (InMemory.refresh (play m events).2 (now tick) id addNew).2, r'.
  split.
  - rewrite InMemory_getTimestamps_own by (by apply plain_own).
    by destruct (InMemory.refresh (play m events).2 (now tick) id addNew).
  - by rewrite Hsame.
Qed.

Lemma backends_agree_witness :
  InMemory.constructor options_10_3_2 = Return memory_10_3_2
  ∧ Redis.constructor node_redis "limiter:" options_10_3_2 = Return redis_10_3_2
  ∧ (∀ id, members redis_10_3_2 id = [])
  ∧ interval (InMemory.base memory_10_3_2)
    <= millisecondsToMicroseconds InMemory.TIMEOUT_MAX
  ∧ Forall (λ c, plain (call_id c.2)) (calls_of (invocations attempts_too_close))
  ∧ nondecreasing (0 :: readings (invocations attempts_too_close))
  ∧ NoDup (tokens (calls_of (invocations attempts_too_close)))
  ∧ (play memory_10_3_2 (invocations attempts_too_close)).1
    = (run redis_10_3_2 (calls_of (invocations attempts_too_close))).1.
Proof.
  assert (∀ id, members redis_10_3_2 id = []) as Hempty by done.
  assert (interval (InMemory.base memory_10_3_2)
          <= millisecondsToMicroseconds InMemory.TIMEOUT_MAX) as Hlong
    by (vm_compute; discriminate).
  assert (Forall (λ c, plain (call_id c.2)) (calls_of (invocations attempts_too_close)))
    as Hplain.
  { cbn. repeat (apply Forall_cons; split; [apply IdNum_plain|]). apply Forall_nil_2. }
  assert (nondecreasing (0 :: readings (invocations attempts_too_close))) as Hclock.
  { apply (bool_decide_unpack _). vm_compute. exact I. }
  assert (NoDup (tokens (calls_of (invocations attempts_too_close)))) as Htokens.
  { apply (bool_decide_unpack _). vm_compute. exact I. }
  split; [reflexivity|]. split; [reflexivity|]. split; [exact Hempty|].
  split; [exact Hlong|]. split; [exact Hplain|].
  split; [exact Hclock|]. split; [exact Htokens|].
  by destruct (backends_agree options_10_3_2 node_redis "limiter:" memory_10_3_2
                 redis_10_3_2 (invocations attempts_too_close) eq_refl eq_refl Hempty Hlong
                 Hplain Hclock Htokens) as [? _].
Defined.

(** * The scenarios of the test suite

    The verdicts the model gives for the shared examples of the test file, on
    both back ends.  In the two "returns info" scenarios the last query, a
    speculative one at 17 ms, yields a wait of 1 ms: the speculative branch of
    [calculateInfo] reports [8 - 17 + 10]; the test file expects 0 and 2
    there. *)

Example prevents_more_than_maxInInterval :
  let calls :=
    [(at_ms 0 "a", Limit id1); (at_ms 1 "b", WouldLimit id1 1000);
     (at_ms 1 "c", Limit id1); (at_ms 9 "d", WouldLimit id1 9000);
     (at_ms 10 "e", WouldLimit id1 10000); (at_ms 10 "f", Limit id1)] in
  (run memory_10_2 calls).1
  = [Verdict false; Verdict false; Verdict false; Verdict true; Verdict false; Verdict false].
Proof. vm_compute. reflexivity. Qed.

Example blocked_actions_count_as_actions :
  let calls :=
    [(at_ms 0 "a", Limit id1); (at_ms 0 "b", Limit id1); (at_ms 0 "c", Limit id1);
     (at_ms 9 "d", Limit id1); (at_ms 9 "e", Limit id1);
     (at_ms 10 "f", Limit id1); (at_ms 10 "g", Limit id1)] in
  (run memory_10_3 calls).1
  = [Verdict false; Verdict false; Verdict false; Verdict true; Verdict true;
     Verdict false; Verdict true].
Proof. vm_compute. reflexivity. Qed.

Example prevents_actions_too_close :
  let memory_10_4_2 :=
    {| InMemory.base := {| interval := 10000; maxInInterval := 4; minDifference := 2000 |};
       InMemory.storage := ∅; InMemory.ttls := ∅ |} in
  (run memory_10_4_2 attempts_too_close).1
  = [Verdict false; Verdict true; Verdict true; Verdict false; Verdict true]
  ∧ (run memory_10_3_2 attempts_too_close).1
    = [Verdict false; Verdict true; Verdict true; Verdict true; Verdict true]
  ∧ (run redis_10_3_2 attempts_too_close).1 = (run memory_10_3_2 attempts_too_close).1.
Proof. repeat split; vm_compute; reflexivity. Qed.

Example returns_info_with_min_distance :
  let calls :=
    [(at_ms 0 "a", LimitWithInfo id1); (at_ms 4 "b", LimitWithInfo id1);
     (at_ms 5 "c", LimitWithInfo id1); (at_ms 8 "d", LimitWithInfo id1);
     (at_ms 11 "e", WouldLimitWithInfo id1 11000);
     (at_ms 17 "f", WouldLimitWithInfo id1 17000)] in
  let verdict blocked count distance wait remaining :=
    Info {| blocked := blocked; blockedDueToCount := count;
            blockedDueToMinDifference := distance;
            millisecondsUntilAllowed := Some wait; actionsRemaining := remaining |} in
  (run memory_10_3_2 calls).1
  = [verdict false false false 2 2; verdict false false false 2 1;
     verdict true false true 5 0; verdict true true false 6 0;
     verdict true true false 4 0; verdict false false false 1 1]
  ∧ (run redis_10_3_2 calls).1 = (run memory_10_3_2 calls).1.
Proof. split; vm_compute; reflexivity. Qed.

(** * Further properties of the code *)

(** ** The constructor and the abstract class *)

(** X1. The three assertions of the constructor fire in the order of the
    source: a missing or non-positive [interval] is reported whatever the
    other options are, a missing or non-positive [maxInInterval] is reported
    only when [interval] is fine, and a negative [minDifference] only when
    both are; no other message is ever thrown. *)
Theorem constructor_messages (options : RateLimiterOptions) (msg : string) :
  Base.constructor options = Throw msg ↔
  (¬ positive_option (opt_interval options) ∧ msg = interval_message)
  ∨ (positive_option (opt_interval options)
     ∧ ¬ positive_option (opt_maxInInterval options)
     ∧ msg = maxInInterval_message)
  ∨ (positive_option (opt_interval options)
     ∧ positive_option (opt_maxInInterval options)
     ∧ default 0 (opt_minDifference options) < 0
     ∧ msg = minDifference_message).
Proof.
  unfold Base.constructor, assert_positive, assert, positive_option. cbv zeta.
  destruct (opt_interval options) as [i|], (opt_maxInInterval options) as [m|];
    repeat case_bool_decide; split;
    try (intros [= <-]); try done;
    try (intros [(Hno & ->)|[(Hi & Hno & ->)|(Hi & Hm & Hd & ->)]]);
    try done;
    try (exfalso; apply Hno; eauto; fail);
    try (destruct Hi as (? & [= <-] & ?); lia);
    try (destruct Hi as (? & ? & ?); done);
    try (destruct Hm as (? & [= <-] & ?); lia);
    try (destruct Hm as (? & ? & ?); done);
    try lia.
  all: try (left; split; [|done]; intros (? & ? & ?); simplify_eq; lia).
  all: try (right; left; split; [eauto|]; split; [|done];
            intros (? & ? & ?); simplify_eq; lia).
  all: try (right; right; split; [eauto|]; split; [eauto|]; split; [lia|done]).
Qed.

(** X2. On the abstract class itself every public method rejects with
    [Not implemented], whatever the call, and the limiter is left as it
    was: the facade methods pass the rejection of the two primitives on. *)
Theorem abstract_class_rejects (self : RateLimiter) (calls : list (Tick * Call)) :
  run self calls = (replicate (length calls) (Rejected "Not implemented"), self).
Proof.
  induction calls as [|[tick c] calls IH]; [done|].
  rewrite run_cons.
  assert (perform self tick c = (Rejected "Not implemented", self)) as ->
    by (by destruct c).
  cbn [fst snd]. by rewrite IH.
Qed.

(** ** The fields of a verdict *)

(** X3. In every verdict, of either mode and for every list, [blocked] is
    the disjunction of its two reasons; [actionsRemaining] counts down from
    [maxInInterval] by the number of timestamps and stops at 0; a verdict
    blocked for its count has no action remaining, while the verdict of the
    attempt that just fills the window has none remaining and is not blocked
    for its count. *)
Theorem verdict_fields (self : RateLimiter) (timestamps : list num) (isWould : bool) :
  let info := Base.calculateInfo self timestamps isWould in
  let count := Z.of_nat (length timestamps) in
  blocked info = blockedDueToCount info || blockedDueToMinDifference info
  ∧ (count <= maxInInterval self → actionsRemaining info = maxInInterval self - count)
  ∧ (maxInInterval self <= count → actionsRemaining info = 0)
  ∧ (blockedDueToCount info = true ↔ maxInInterval self < count)
  ∧ (blockedDueToCount info = true → actionsRemaining info = 0)
  ∧ (count = maxInInterval self →
     blockedDueToCount info = false ∧ actionsRemaining info = 0).
Proof.
  intros info count. subst info.
  rewrite calculateInfo_blocked, calculateInfo_actionsRemaining,
    calculateInfo_blockedDueToCount. fold count.
  rewrite bool_decide_eq_true.
  split; [done|]. split; [lia|]. split; [lia|]. split; [done|]. split; [lia|].
  intros Hfull. split; [|lia]. apply bool_decide_eq_false_2. lia.
Qed.

Lemma verdict_fields_witness :
  Z.of_nat (length [Some 0; Some 4000; Some 5000]) = maxInInterval limiter_10_3
  ∧ blockedDueToCount
      (Base.calculateInfo limiter_10_3 [Some 0; Some 4000; Some 5000] false) = false
  ∧ actionsRemaining
      (Base.calculateInfo limiter_10_3 [Some 0; Some 4000; Some 5000] false) = 0.
Proof.
  split; [reflexivity|].
  destruct (verdict_fields limiter_10_3 [Some 0; Some 4000; Some 5000] false)
    as (_ & _ & _ & _ & _ & Hfull).
  apply Hfull. reflexivity.
Defined.

(** ** Identifiers and keys *)

Lemma String_of_inj (n m : Z) : String_of n = String_of m → n = m.
Proof.
  intros Heq. assert (Number (String_of n) = Number (String_of m)) as Hnum
    by (by rewrite Heq).
  rewrite !Number_String_of in Hnum. by injection Hnum.
Qed.

Lemma string_app_assoc (a b c : string) : (a +:+ b) +:+ c = a +:+ (b +:+ c).
Proof.
  induction a as [|x a IH]; [done|].
  change (String x ((a +:+ b) +:+ c) = String x (a +:+ (b +:+ c))). by rewrite IH.
Qed.

(** X4. An identifier is used through its text: a number and the string of
    its decimal digits name the same subject, so an attempt under the number
    is stored under the string as well; two different numbers never share a
    key, and an attempt under one leaves the list of the other alone. *)
Theorem identifier_keys (self : InMemory.InMemoryRateLimiter) (tick : Tick) (n : Z) :
  keyOf (IdNum n) = keyOf (IdStr (String_of n))
  ∧ (∀ m, keyOf (IdNum n) = keyOf (IdNum m) → n = m)
  ∧ ∃ info self',
      limitWithInfo self tick (IdNum n) = Return (info, self')
      ∧ stored self' (IdStr (String_of n)) = stored self' (IdNum n)
      ∧ now tick ∈ stored self' (IdStr (String_of n))
      ∧ ∀ m, n ≠ m → stored self' (IdNum m) = stored self (IdNum m).
Proof.
  split; [done|]. split; [intros m; apply String_of_inj|].
  eexists _, _. split; [apply InMemory_limitWithInfo, plain_own, IdNum_plain|].
  split; [done|]. split.
  - rewrite (stored_keyOf _ (IdStr (String_of n)) (IdNum n)) by done.
    rewrite InMemory_refresh_stored, InMemory_refresh_result.
    apply elem_of_app. right. by left.
  - intros m Hne. apply InMemory_refresh_stored_ne.
    intros Heq. by apply Hne, String_of_inj.
Qed.

Lemma identifier_keys_witness :
  1 ≠ 2
  ∧ ∃ info self',
      limitWithInfo memory_8000 {| now := 17000; uuid := "" |} (IdNum 2)
      = Return (info, self')
      ∧ stored self' (IdNum 1) = stored memory_8000 (IdNum 1).
Proof.
  split; [discriminate|].
  destruct (identifier_keys memory_8000 {| now := 17000; uuid := "" |} 2)
    as (_ & _ & info & self' & Hcall & _ & _ & Hother).
  exists info, self'. split; [exact Hcall|]. apply Hother. discriminate.
Defined.

(** X5. [makeKey] glues the namespace and the text of the identifier
    together with nothing in between.  Within one namespace two identifiers
    get the same key only if their texts are equal.  Across namespaces keys
    collide: a limiter whose namespace is [namespace ++ s] reads, under the
    identifier [t], the very set a limiter with namespace [namespace] keeps
    under [s ++ t], so on a shared server an attempt recorded by the one is a
    member of the set of the other. *)
Theorem makeKey_collisions
    (a b : Redis.RedisRateLimiter) (s t : string) (tick : Tick) :
  (∀ id id', Redis.makeKey a id = Redis.makeKey a id' ↔ keyOf id = keyOf id')
  ∧ (Redis.namespace b = Redis.namespace a +:+ s →
     Redis.makeKey b (IdStr t) = Redis.makeKey a (IdStr (s +:+ t))
     ∧ ∃ info a',
         limitWithInfo a tick (IdStr (s +:+ t)) = Return (info, a')
         ∧ members (sharing b a') (IdStr t) = members a' (IdStr (s +:+ t))
         ∧ (uuid tick, now tick) ∈ members (sharing b a') (IdStr t)).
Proof.
  split.
  - intros id id'. unfold Redis.makeKey. split; [|by intros ->].
    intros Heq. by apply (inj (String.app (Redis.namespace a))) in Heq.
  - intros Hnamespace.
    assert (Redis.makeKey b (IdStr t) = Redis.makeKey a (IdStr (s +:+ t))) as Hkey.
    { unfold Redis.makeKey. rewrite Hnamespace. simpl. apply string_app_assoc. }
    split; [done|].
    destruct (Redis_getTimestamps_spec a tick (IdStr (s +:+ t)) true)
      as (a' & Hget & _ & Hns & _ & _ & Hset & _).
    cbv zeta in Hget, Hset.
    assert (members (sharing b a') (IdStr t) = members a' (IdStr (s +:+ t))) as Hshared.
    { unfold members, sharing. cbn [Redis.with_client Redis.client Redis.server].
      change (Redis.makeKey (Redis.with_client b _) (IdStr t))
        with (Redis.makeKey b (IdStr t)).
      rewrite Hkey. unfold Redis.makeKey. by rewrite Hns. }
    eexists _, a'. split.
    + unfold limitWithInfo.
      change (getTimestamps a tick (IdStr (s +:+ t)) true)
        with (Redis.getTimestamps a tick (IdStr (s +:+ t)) true).
      by rewrite Hget.
    + split; [done|]. rewrite Hshared, Hset. apply elem_of_place. by left.
Qed.

Lemma makeKey_collisions_witness :
  Redis.namespace redis_users = Redis.namespace redis_10_3_2 +:+ "user"
  ∧ Redis.makeKey redis_users (IdStr "7")
    = Redis.makeKey redis_10_3_2 (IdStr ("user" +:+ "7")).
Proof.
  split; [reflexivity|].
  destruct (makeKey_collisions redis_10_3_2 redis_users "user" "7" (at_ms 0 "a"))
    as [_ Hshared].
  destruct Hshared as [Hkey _]; [reflexivity|]. exact Hkey.
Defined.

(** ** Clearing an identifier *)

(** The verdict of the first attempt of an identifier. *)
Lemma calculateInfo_first (self : RateLimiter) (x : Z) (isWould : bool) :
  0 < maxInInterval self →
  blocked (Base.calculateInfo self [Some x] isWould) = false
  ∧ actionsRemaining (Base.calculateInfo self [Some x] isWould) = maxInInterval self - 1.
Proof.
  intros Hmax.
  rewrite calculateInfo_blocked, calculateInfo_blockedDueToCount,
    calculateInfo_actionsRemaining.
  cbn [length]. split; [|lia].
  rewrite bool_decide_eq_false_2 by lia. rewrite orb_false_l.
  destruct isWould;
    cbv beta iota zeta delta [Base.calculateInfo blockedDueToMinDifference];
    rewrite (bool_decide_eq_false_2 (is_Some _)); try done;
    cbn [length]; unfold index; (case_decide; [lia|]); by intros [? ?].
Qed.

(** X6. In memory, [clear] forgets the identifier: its list and its timer are
    gone, other identifiers keep theirs, and clearing twice is clearing once
    (an identifier without state is cleared without an error).  The attempt
    that follows is answered as the first attempt ever: it is not blocked,
    [maxInInterval - 1] actions remain, and the store holds that attempt
    alone.  This is so for every identifier but the names of the members of
    [Object.prototype], for which that attempt is rejected. *)
Theorem clear_forgets
    (options : RateLimiterOptions) (self : InMemory.InMemoryRateLimiter)
    (id : Id) (tick : Tick) :
  Base.constructor options = Return (InMemory.base self) →
  let cleared := InMemory.clear self id in
  InMemory.storage cleared !! keyOf id = None
  ∧ InMemory.ttls cleared !! keyOf id = None
  ∧ InMemory.clear cleared id = cleared
  ∧ (∀ id', keyOf id' ≠ keyOf id →
       stored cleared id' = stored self id'
       ∧ InMemory.ttls cleared !! keyOf id' = InMemory.ttls self !! keyOf id')
  ∧ (plain id →
     ∃ info self',
       limitWithInfo cleared tick id = Return (info, self')
       ∧ blocked info = false
       ∧ actionsRemaining info = maxInInterval (InMemory.base self) - 1
       ∧ stored self' id = [now tick])
  ∧ (¬ plain id → limitWithInfo cleared tick id = Throw "TypeError").
Proof.
  intros (_ & Hmax & _)%constructor_valid cleared.
  subst cleared. rewrite !InMemory_clear_onTimeout.
  assert (InMemory.storage (InMemory.onTimeout self id) !! keyOf id = None) as Hgone
    by (cbn [InMemory.onTimeout InMemory.storage]; by rewrite lookup_delete_eq).
  split; [done|].
  split; [cbn [InMemory.onTimeout InMemory.ttls]; by rewrite lookup_delete_eq|].
  split.
  { unfold InMemory.onTimeout. cbn [InMemory.base InMemory.storage InMemory.ttls].
    by rewrite !delete_delete_eq. }
  split.
  { intros id' Hne. unfold stored. cbn [InMemory.onTimeout InMemory.storage InMemory.ttls].
    by rewrite !lookup_delete_ne. }
  split.
  - intros Hplain. eexists _, _.
    split; [by apply InMemory_limitWithInfo, plain_own|].
    assert ((InMemory.refresh (InMemory.onTimeout self id) (now tick) id true).1
            = [now tick]) as Hfirst.
    { rewrite InMemory_refresh_result. unfold stored. by rewrite Hgone. }
    rewrite InMemory_refresh_stored, Hfirst. cbn [fmap list_fmap].
    change (InMemory.base (InMemory.onTimeout self id)) with (InMemory.base self).
    destruct (calculateInfo_first (InMemory.base self) (now tick) false Hmax) as [-> ->].
    done.
  - intros Hproto. unfold limitWithInfo. rewrite getTimestamps_inherited; [done|].
    split; [done|]. unfold plain in Hproto. by apply dec_stable.
Qed.

Lemma clear_forgets_witness :
  Base.constructor options_10_3_2 = Return (InMemory.base memory_8000)
  ∧ stored memory_8000 id1 = [8000]
  ∧ ∃ info self',
      limitWithInfo (InMemory.clear memory_8000 id1) (at_ms 9 "") id1 = Return (info, self')
      ∧ blocked info = false
      ∧ actionsRemaining info = maxInInterval (InMemory.base memory_8000) - 1
      ∧ stored self' id1 = [now (at_ms 9 "")].
Proof.
  split; [reflexivity|]. split; [reflexivity|].
  destruct (clear_forgets options_10_3_2 memory_8000 id1 (at_ms 9 "") eq_refl)
    as (_ & _ & _ & _ & Hnext & _).
  apply Hnext, IdNum_plain.
Defined.

Lemma Redis_clear_server (self : Redis.RedisRateLimiter) (id : Id) :
  Redis.clear self id
  = Redis.with_client self
      {| Redis.library := Redis.library (Redis.client self);
         Redis.server :=
           {| Server.sets :=
                delete (Redis.makeKey self id)
                  (Server.sets (Redis.server (Redis.client self)));
              Server.expires :=
                delete (Redis.makeKey self id)
                  (Server.expires (Redis.server (Redis.client self))) |} |}.
Proof. done. Qed.

(** X7. On Redis, [clear] deletes the key of the identifier: the set and its
    expiry are gone, the sets of other identifiers stay, and clearing twice
    is clearing once.  The attempt that follows is answered as the first
    attempt ever, and the set then holds that attempt alone. *)
Theorem Redis_clear_forgets
    (options : RateLimiterOptions) (self : Redis.RedisRateLimiter)
    (id : Id) (tick : Tick) :
  Base.constructor options = Return (Redis.base self) →
  let cleared := Redis.clear self id in
  members cleared id = []
  ∧ expiry cleared id = None
  ∧ Redis.clear cleared id = cleared
  ∧ (∀ id', keyOf id' ≠ keyOf id → members cleared id' = members self id')
  ∧ ∃ info self',
      limitWithInfo cleared tick id = Return (info, self')
      ∧ blocked info = false
      ∧ actionsRemaining info = maxInInterval (Redis.base self) - 1
      ∧ members self' id = [(uuid tick, now tick)].
Proof.
  intros (_ & Hmax & _)%constructor_valid cleared. subst cleared.
  assert (members (Redis.clear self id) id = []) as Hgone.
  { destruct (Redis_clear_members self id id) as [_ ->]. by case_decide. }
  split; [done|]. split.
  { rewrite Redis_clear_server. unfold expiry.
    cbn [Redis.with_client Redis.client Redis.server Server.expires].
    change (Redis.makeKey (Redis.with_client self _) id) with (Redis.makeKey self id).
    apply lookup_delete_eq. }
  split.
  { rewrite (Redis_clear_server (Redis.clear self id)).
    rewrite Redis_clear_server.
    cbn [Redis.with_client Redis.client Redis.server Redis.library
         Server.sets Server.expires Redis.base Redis.ttl Redis.namespace].
    change (Redis.makeKey (Redis.with_client self _) id) with (Redis.makeKey self id).
    by rewrite !delete_delete_eq. }
  split.
  { intros id' Hne. destruct (Redis_clear_members self id id') as [_ ->].
    by case_decide. }
  destruct (Redis_getTimestamps_spec (Redis.clear self id) tick id true)
    as (self' & Hget & _ & _ & _ & _ & Hset & _).
  cbv zeta in Hget, Hset. rewrite Hgone in Hget, Hset.
  change (Server.place (uuid tick, now tick)
            (filter (λ e : string * Z, e.1 ≠ uuid tick) (survivors _ [])))
    with [(uuid tick, now tick)] in Hget, Hset.
  eexists _, self'. split.
  - unfold limitWithInfo.
    change (getTimestamps (Redis.clear self id) tick id true)
      with (Redis.getTimestamps (Redis.clear self id) tick id true).
    by rewrite Hget.
  - change (super (Redis.clear self id)) with (Redis.base self).
    cbn [fmap list_fmap fst snd].
    destruct (calculateInfo_first (Redis.base self) (now tick) false Hmax) as [-> ->].
    done.
Qed.

Lemma Redis_clear_forgets_witness :
  Base.constructor options_10_3 = Return (Redis.base redis_10_3)
  ∧ members redis_10_3 id1 = [("a", 0); ("b", 4000)]
  ∧ members (Redis.clear redis_10_3 id1) id1 = []
  ∧ Redis.clear (Redis.clear redis_10_3 id1) id1 = Redis.clear redis_10_3 id1.
Proof.
  split; [reflexivity|]. split; [reflexivity|].
  destruct (Redis_clear_forgets options_10_3 redis_10_3 id1 (at_ms 5 "c") eq_refl)
    as (Hgone & _ & Htwice & _).
  by split.
Defined.

(** ** Identifiers do not influence one another *)

Lemma step_elsewhere (self : InMemory.InMemoryRateLimiter) (e : Event) (id : Id) :
  keyOf (event_id e) ≠ keyOf id →
  InMemory.storage (step self e).2 !! keyOf id = InMemory.storage self !! keyOf id
  ∧ InMemory.ttls (step self e).2 !! keyOf id = InMemory.ttls self !! keyOf id.
Proof.
  intros Hne. destruct e as [tick c|reading i]; cbn [event_id] in Hne.
  - rewrite step_Invoke. cbn [snd].
    destruct (decide (rejects self c)) as [Hrejects|Hresolves];
      [by rewrite InMemory_perform_rejects|].
    rewrite InMemory_perform_state by done.
    destruct c as [i|i ?|i|i ?|i]; cbn [call_id] in Hne;
      rewrite ?InMemory_refresh_storage, ?InMemory_refresh_ttls;
      rewrite ?lookup_insert_ne by done; try done.
    rewrite InMemory_clear_onTimeout.
    cbn [InMemory.onTimeout InMemory.storage InMemory.ttls].
    by rewrite !lookup_delete_ne.
  - cbn [step snd]. unfold InMemory.expire. repeat case_match; try done.
    cbn [InMemory.onTimeout InMemory.storage InMemory.ttls].
    by rewrite !lookup_delete_ne.
Qed.

(** The answer of the in-memory limiter to a call depends on the
    configuration and on what is stored for the identifier alone. *)
Lemma InMemory_perform_depends (a b : InMemory.InMemoryRateLimiter) (tick : Tick) (c : Call) :
  InMemory.base a = InMemory.base b →
  InMemory.storage a !! keyOf (call_id c) = InMemory.storage b !! keyOf (call_id c) →
  (perform a tick c).1 = (perform b tick c).1.
Proof.
  intros Hbase Hkey.
  assert (stored a (call_id c) = stored b (call_id c)) as Hstored
    by (unfold stored; by rewrite Hkey).
  assert (rejects a c ↔ rejects b c) as Hsame
    by (unfold rejects, inherited; by rewrite Hkey).
  destruct (decide (rejects a c)) as [Hrejects|Hresolves].
  { rewrite !InMemory_perform_rejects; tauto. }
  rewrite !InMemory_perform_outcome by tauto. cbv zeta.
  destruct c; cbn [call_id] in Hstored;
    rewrite ?InMemory_refresh_result, ?Hbase, ?Hstored; done.
Qed.

(** X8. Identifiers are kept apart in memory: after any sequence of calls
    about other identifiers and of runs of their timers, the list and the
    timer of an identifier are what they were, and a call about it gets the
    answer it would have got without them. *)
Theorem identifiers_isolated
    (self : InMemory.InMemoryRateLimiter) (events : list Event)
    (tick : Tick) (c : Call) :
  elsewhere (call_id c) events →
  stored (play self events).2 (call_id c) = stored self (call_id c)
  ∧ InMemory.ttls (play self events).2 !! keyOf (call_id c)
    = InMemory.ttls self !! keyOf (call_id c)
  ∧ (perform (play self events).2 tick c).1 = (perform self tick c).1.
Proof.
  intros Helsewhere.
  assert (InMemory.storage (play self events).2 !! keyOf (call_id c)
          = InMemory.storage self !! keyOf (call_id c)
          ∧ InMemory.ttls (play self events).2 !! keyOf (call_id c)
            = InMemory.ttls self !! keyOf (call_id c)) as [Hstorage Httls].
  { revert self. induction events as [|e events IH]; intros self; [done|].
    rewrite play_cons. cbn [snd].
    destruct (IH (λ y Hy, Helsewhere y (list_elem_of_further _ _ _ Hy))
                (step self e).2) as [-> ->].
    apply step_elsewhere. apply (Helsewhere e). by left. }
  split; [unfold stored; by rewrite Hstorage|]. split; [done|].
  apply InMemory_perform_depends; [apply play_base|done].
Qed.

Lemma identifiers_isolated_witness :
  elsewhere (call_id (Limit id1))
    [Invoke (at_ms 0 "a") (Limit (IdNum 2)); Invoke (at_ms 0 "b") (Limit (IdStr "x"));
     Invoke (at_ms 1 "c") (Clear (IdNum 2)); Elapse 10000 (IdStr "x")]
  ∧ (perform
       (play memory_two_attempts
          [Invoke (at_ms 0 "a") (Limit (IdNum 2)); Invoke (at_ms 0 "b") (Limit (IdStr "x"));
           Invoke (at_ms 1 "c") (Clear (IdNum 2)); Elapse 10000 (IdStr "x")]).2
       (at_ms 2 "d") (Limit id1)).1
    = (perform memory_two_attempts (at_ms 2 "d") (Limit id1)).1.
Proof.
  assert (elsewhere (call_id (Limit id1))
            [Invoke (at_ms 0 "a") (Limit (IdNum 2));
             Invoke (at_ms 0 "b") (Limit (IdStr "x"));
             Invoke (at_ms 1 "c") (Clear (IdNum 2)); Elapse 10000 (IdStr "x")])
    as Helsewhere.
  { intros x Hx%list_elem_of_In. simpl in Hx.
    destruct Hx as [<-|[<-|[<-|[<-|[]]]]]; discriminate. }
  split; [exact Helsewhere|].
  by destruct (identifiers_isolated memory_two_attempts _ (at_ms 2 "d") (Limit id1)
                 Helsewhere) as (_ & _ & Hsame).
Defined.

(** ** The reported wait is long enough *)

(** Of an ascending list, the timestamps that are still in the window once
    the one at position [k] has left it are fewer than those after [k]. *)
Lemma inWindow_after (interval reading t : Z) (ts : list Z) (k : nat) :
  StronglySorted Z.le ts → ts !! k = Some t → t + interval <= reading →
  (length (inWindow interval reading ts) + S k <= length ts)%nat.
Proof.
  intros Hsorted Hk Hleft.
  pose proof (take_drop_middle ts k t Hk) as Hsplit.
  rewrite <- Hsplit in Hsorted.
  assert (inWindow interval reading (take k ts) = []) as Hbefore.
  { apply filter_none. intros x Hx.
    assert (x <= t); [|lia].
    apply (StronglySorted_app_1_elem_of _ _ _ x t Hsorted Hx). by left. }
  assert (length ts = (k + S (length (drop (S k) ts)))%nat) as Hlength.
  { rewrite <- Hsplit at 1. rewrite length_app, length_take. cbn [length].
    apply lookup_lt_Some in Hk. lia. }
  rewrite <- Hsplit at 1. unfold inWindow in *.
  rewrite filter_app, Hbefore, filter_cons_False by lia. cbn [app].
  pose proof (length_filter (λ x, reading - interval < x) (drop (S k) ts)). lia.
Qed.

(** X9. The wait a recording attempt reports is long enough.  For an
    identifier that does not name a member of [Object.prototype], when its
    list is ascending and holds nothing later than the clock reading of the
    attempt, an attempt made at least [millisecondsUntilAllowed] milliseconds
    after it is not blocked, neither for its count nor for the minimal
    distance. *)
Theorem wait_suffices
    (options : RateLimiterOptions) (self : InMemory.InMemoryRateLimiter)
    (id : Id) (tick tick' : Tick) :
  Base.constructor options = Return (InMemory.base self) →
  plain id →
  StronglySorted Z.le (stored self id) →
  (∀ t, t ∈ stored self id → t <= now tick) →
  ∃ info self' ms,
    limitWithInfo self tick id = Return (info, self')
    ∧ millisecondsUntilAllowed info = Some ms
    ∧ (now tick + 1000 * ms <= now tick' →
       ∃ info' self'',
         limitWithInfo self' tick' id = Return (info', self'')
         ∧ blocked info' = false).
Proof.
  intros (HI & Hmax & Hmd)%constructor_valid Hplain Hsorted Hbound.
  destruct (InMemory_attempt self tick id (plain_own self id Hplain))
    as (info & self' & Hinfo & _ & Hverdict & Hself' & Hstored & _).
  cbv zeta in Hverdict, Hstored.
  set (recent := inWindow (interval (InMemory.base self)) (now tick) (stored self id)) in *.
  destruct (calculateInfo_millisecondsUntilAllowed (InMemory.base self) recent (now tick)
              Hmax) as (t & Ht & Hwait).
  specialize (Hwait false). cbv beta iota zeta in Hwait, Ht.
  rewrite <- Hverdict in Hwait.
  eexists info, self', _. split; [done|]. split; [exact Hwait|].
  match type of Hwait with
  | _ = Some (microsecondsToMilliseconds ?x) =>
      pose proof (microsecondsToMilliseconds_ceiling x) as Hceiling; set (wait := x) in *
  end.
  intros Hlater.
  assert (InMemory.base self' = InMemory.base self) as Hbase
    by (subst self'; apply InMemory_refresh_base).
  assert (∀ x, x ∈ recent ++ [now tick] → x <= now tick) as Hrecent.
  { intros x [[_ Hx]%list_elem_of_filter|Hx%list_elem_of_singleton]%elem_of_app;
      [by apply Hbound|lia]. }
  assert (StronglySorted Z.le (recent ++ [now tick])) as Hrecent_sorted.
  { apply StronglySorted_app_2.
    - intros x y Hx Hy%list_elem_of_singleton. subst y.
      apply Hrecent, elem_of_app. by left.
    - by apply StronglySorted_filter.
    - repeat constructor. }
  destruct (InMemory_attempt self' tick' id (plain_own self' id Hplain))
    as (info' & self'' & Hinfo' & _ & Hverdict' & _ & _ & Hcount & Hblocked).
  cbv zeta in Hverdict', Hcount. rewrite Hbase, Hstored in Hverdict', Hcount.
  set (still := inWindow (interval (InMemory.base self)) (now tick') (recent ++ [now tick]))
    in *.
  exists info', self''. split; [done|]. rewrite Hblocked, Hcount.
  assert (minDifference (InMemory.base self) <= wait) as Hwait_md by (subst wait; lia).
  rewrite bool_decide_eq_false_2, orb_false_l.
  - destruct still as [|previous earlier _] eqn:Hstill using rev_ind.
    + rewrite Hverdict'. cbn [app fmap list_fmap].
      destruct (calculateInfo_first (InMemory.base self) (now tick') false Hmax)
        as [Hfirst _].
      rewrite calculateInfo_blocked in Hfirst. by apply orb_false_iff in Hfirst as [_ ?].
    + rewrite Hverdict', <- app_assoc. cbn [app].
      rewrite calculateInfo_blockedDueToMinDifference.
      assert (previous <= now tick) as Hprevious.
      { apply Hrecent. assert (previous ∈ still) as Hin
          by (rewrite Hstill, elem_of_app; right; by left).
        subst still. unfold inWindow in Hin. by apply list_elem_of_filter in Hin as [_ ?]. }
      rewrite (bool_decide_eq_false_2 (now tick' - previous < _)) by lia.
      apply andb_false_r.
  - assert (length (recent ++ [now tick]) = S (length recent)) as Hlength
      by (rewrite length_app; simpl; lia).
    destruct (decide (maxInInterval (InMemory.base self)
                      <= Z.of_nat (length (recent ++ [now tick])))) as [Hfull|Hfree].
    + subst wait. rewrite bool_decide_eq_true_2 in Hceiling, Hwait_md, Hlater by done.
      rewrite Z.max_r in Ht by lia.
      pose proof (inWindow_after (interval (InMemory.base self)) (now tick') t
                    (recent ++ [now tick]) _ Hrecent_sorted Ht ltac:(lia)) as Hafter.
      fold still in Hafter. lia.
    + pose proof (length_filter (λ x, now tick' - interval (InMemory.base self) < x)
                    (recent ++ [now tick])) as Hshort.
      fold (inWindow (interval (InMemory.base self)) (now tick') (recent ++ [now tick]))
        in Hshort. fold still in Hshort. lia.
Qed.

Lemma wait_suffices_witness :
  Base.constructor options_10_2 = Return (InMemory.base memory_two_attempts)
  ∧ plain id1
  ∧ StronglySorted Z.le (stored memory_two_attempts id1)
  ∧ (∀ t, t ∈ stored memory_two_attempts id1 → t <= now (at_ms 1 "c"))
  ∧ ∃ info self' ms,
      limitWithInfo memory_two_attempts (at_ms 1 "c") id1 = Return (info, self')
      ∧ millisecondsUntilAllowed info = Some ms
      ∧ now (at_ms 1 "c") + 1000 * ms <= now (at_ms 10 "d")
      ∧ ∃ info' self'',
          limitWithInfo self' (at_ms 10 "d") id1 = Return (info', self'')
          ∧ blocked info' = false.
Proof.
  assert (StronglySorted Z.le (stored memory_two_attempts id1)) as Hsorted.
  { apply (bool_decide_unpack _). vm_compute. exact I. }
  assert (∀ t, t ∈ stored memory_two_attempts id1 → t <= now (at_ms 1 "c")) as Hbound.
  { intros t Ht%list_elem_of_In. vm_compute in Ht. destruct Ht as [<-|[<-|[]]]; done. }
  split; [reflexivity|]. split; [apply IdNum_plain|].
  split; [exact Hsorted|]. split; [exact Hbound|].
  destruct (wait_suffices options_10_2 memory_two_attempts id1 (at_ms 1 "c")
              (at_ms 10 "d") eq_refl (IdNum_plain 1) Hsorted Hbound)
    as (info & self' & ms & Hcall & Hms & Hnext).
  exists info, self', ms. split; [exact Hcall|]. split; [exact Hms|].
  assert (ms = 9) as Hnine.
  { rewrite InMemory_limitWithInfo in Hcall by apply plain_own, IdNum_plain.
    injection Hcall as <- _. vm_compute in Hms. by injection Hms. }
  assert (now (at_ms 1 "c") + 1000 * ms <= now (at_ms 10 "d")) as Hlater
    by (rewrite Hnine; vm_compute; discriminate).
  split; [exact Hlater|]. by apply Hnext.
Defined.

(** ** Asking before attempting *)

Lemma refresh_true (self : InMemory.InMemoryRateLimiter) (reading : Z) (id : Id) :
  InMemory.refresh self reading id true
  = (inWindow (interval (InMemory.base self)) reading (stored self id) ++ [reading],
     {| InMemory.base := InMemory.base self;
        InMemory.storage :=
          <[keyOf id := inWindow (interval (InMemory.base self)) reading (stored self id)
                         ++ [reading]]> (InMemory.storage self);
        InMemory.ttls :=
          <[keyOf id := InMemory.setTimeout reading
                          (microsecondsToMilliseconds (interval (InMemory.base self)))]>
            (InMemory.ttls self) |}).
Proof. done. Qed.

(** X10. A speculative query taken at one clock reading predicts the attempt
    made at the same reading, for an identifier that does not name a member
    of [Object.prototype]: the attempt that follows it ends in the state and
    with the verdict of an attempt made without asking, and the query and the
    attempt agree on [blocked], on both reasons and on [actionsRemaining];
    only the reported wait may differ. *)
Theorem wouldLimit_predicts
    (self : InMemory.InMemoryRateLimiter) (tick : Tick) (id : Id) :
  plain id →
  ∃ would attempt asked attempted,
    wouldLimitWithInfo self tick (now tick) id = Return (would, asked)
    ∧ limitWithInfo asked tick id = Return (attempt, attempted)
    ∧ limitWithInfo self tick id = Return (attempt, attempted)
    ∧ blocked would = blocked attempt
    ∧ blockedDueToCount would = blockedDueToCount attempt
    ∧ blockedDueToMinDifference would = blockedDueToMinDifference attempt
    ∧ actionsRemaining would = actionsRemaining attempt.
Proof.
  intros Hplain.
  eexists _, _, _, _. split; [by apply InMemory_wouldLimitWithInfo, plain_own|].
  split; [by apply InMemory_limitWithInfo, plain_own|].
  assert (InMemory.refresh (InMemory.refresh self (now tick) id false).2
            (now tick) id true
          = InMemory.refresh self (now tick) id true) as Hsame.
  { rewrite (refresh_true self), (refresh_false self). cbn [snd].
    rewrite refresh_true. cbn [InMemory.base InMemory.storage InMemory.ttls].
    assert (∀ base l m ttls,
              stored {| InMemory.base := base; InMemory.storage := <[keyOf id := l]> m;
                        InMemory.ttls := ttls |} id = l) as Hrecord.
    { intros. unfold stored. cbn [InMemory.storage]. by rewrite lookup_insert_eq. }
    by rewrite !Hrecord, inWindow_inWindow, insert_insert_eq by done. }
  rewrite Hsame, InMemory_refresh_base.
  split; [by apply InMemory_limitWithInfo, plain_own|].
  rewrite (InMemory_refresh_result self (now tick) id true).
  rewrite (InMemory_refresh_result self (now tick) id false), app_nil_r.
  by rewrite !calculateInfo_blocked, !calculateInfo_blockedDueToCount,
    !calculateInfo_actionsRemaining.
Qed.

Lemma wouldLimit_predicts_witness :
  plain id1
  ∧ ∃ would attempt asked attempted,
      wouldLimitWithInfo memory_two_attempts (at_ms 1 "c") (now (at_ms 1 "c")) id1
      = Return (would, asked)
      ∧ limitWithInfo asked (at_ms 1 "c") id1 = Return (attempt, attempted)
      ∧ blocked would = blocked attempt.
Proof.
  split; [apply IdNum_plain|].
  destruct (wouldLimit_predicts memory_two_attempts (at_ms 1 "c") id1 (IdNum_plain 1))
    as (would & attempt & asked & attempted & Hwould & Hattempt & _ & Hblocked & _).
  by exists would, attempt, asked, attempted.
Defined.

Lemma speculative_state (self : InMemory.InMemoryRateLimiter) (tick : Tick) (c : Call) :
  speculative c → ¬ rejects self c →
  (perform self tick c).2 = (InMemory.refresh self (now tick) (call_id c) false).2.
Proof. intros Hc Hresolves. rewrite InMemory_perform_state by done. by destruct c. Qed.

(** An entry without a timer outlasts every speculative query and every run
    of the event loop. *)
Lemma speculative_entries (events : list Event)
    (self : InMemory.InMemoryRateLimiter) (key : string) :
  Forall (λ c, speculative c.2) (calls_of events) →
  is_Some (InMemory.storage self !! key) → InMemory.ttls self !! key = None →
  is_Some (InMemory.storage (play self events).2 !! key)
  ∧ InMemory.ttls (play self events).2 !! key = None.
Proof.
  revert self. induction events as [|e events IH]; intros self Hcalls Hkey Htimer; [done|].
  rewrite play_cons. cbn [snd]. destruct e as [tick c|reading id].
  - rewrite calls_of_Invoke in Hcalls. apply Forall_cons in Hcalls as [Hc Hcalls].
    cbn [snd] in Hc. rewrite step_Invoke. cbn [snd].
    destruct (decide (rejects self c)) as [Hrejects|Hresolves].
    { rewrite InMemory_perform_rejects by done. by apply IH. }
    rewrite speculative_state by done. apply IH; [done| |].
    + rewrite InMemory_refresh_storage. apply lookup_insert_is_Some'. by right.
    + by rewrite InMemory_refresh_ttls.
  - rewrite calls_of_Elapse in Hcalls. cbn [step snd]. apply IH; [done| |].
    + unfold InMemory.expire.
      destruct (InMemory.ttls self !! keyOf id) as [timer|] eqn:Hid; [|done].
      case_bool_decide; [|done]. cbn [InMemory.onTimeout InMemory.storage].
      rewrite lookup_delete_ne; [done|]. intros <-. congruence.
    + unfold InMemory.expire. repeat case_match; try done.
      cbn [InMemory.onTimeout InMemory.ttls]. apply lookup_delete_None. by right.
Qed.

(** X11. Speculative queries alone never record anything and never schedule
    a timer: after any sequence of them, whatever timers run in between, no
    timer is pending that was not pending before and every list is a sublist
    of what it was.  They do leave an entry in the store for every identifier
    they ask about that does not name a member of [Object.prototype], also
    for one that never made an attempt; when no timer was pending for it,
    none is afterwards, and the entry stays. *)
Theorem speculative_runs
    (self : InMemory.InMemoryRateLimiter) (events : list Event) :
  Forall (λ c, speculative c.2) (calls_of events) →
  InMemory.ttls (play self events).2 ⊆ InMemory.ttls self
  ∧ (∀ id, stored (play self events).2 id `sublist_of` stored self id)
  ∧ (∀ c, c ∈ calls_of events → plain (call_id c.2) →
       InMemory.ttls self !! keyOf (call_id c.2) = None →
       is_Some (InMemory.storage (play self events).2 !! keyOf (call_id c.2))
       ∧ InMemory.ttls (play self events).2 !! keyOf (call_id c.2) = None).
Proof.
  revert self. induction events as [|e events IH]; intros self Hcalls.
  { split; [done|]. split; [done|]. by intros c ?%elem_of_nil. }
  rewrite play_cons. cbn [snd]. destruct e as [tick c|reading id].
  - rewrite calls_of_Invoke in Hcalls |- *.
    pose proof Hcalls as [Hc Hrest]%Forall_cons. cbn [snd] in Hc.
    rewrite step_Invoke. cbn [snd].
    destruct (IH (perform self tick c).2 Hrest) as (Httls & Hsub & Hentries).
    destruct (decide (rejects self c)) as [Hrejects|Hresolves].
    { rewrite InMemory_perform_rejects in * by done. cbn [snd] in *.
      split; [done|]. split; [done|].
      intros x [->|Hx]%elem_of_cons Hplain Htimer; [|by apply Hentries].
      destruct Hrejects as [[_ Hproto] _]. by destruct Hplain. }
    pose proof (speculative_state self tick c Hc Hresolves) as Hstate.
    rewrite Hstate in *. rewrite InMemory_refresh_ttls in Httls.
    split; [done|]. split.
    + intros id. etrans; [apply Hsub|].
      destruct (decide (keyOf (call_id c) = keyOf id)) as [Heq|Hne].
      * rewrite <- (stored_keyOf _ (call_id c) id), <- (stored_keyOf self (call_id c) id)
          by done.
        rewrite InMemory_refresh_stored, InMemory_refresh_result, app_nil_r.
        apply sublist_filter.
      * by rewrite InMemory_refresh_stored_ne.
    + intros x [->|Hx]%elem_of_cons Hplain Htimer; cbn [snd] in *.
      * apply speculative_entries; [done| |by rewrite InMemory_refresh_ttls].
        rewrite InMemory_refresh_storage, lookup_insert_eq. eauto.
      * apply Hentries; [done|done|]. by rewrite InMemory_refresh_ttls.
  - rewrite calls_of_Elapse in Hcalls |- *. cbn [step snd].
    destruct (IH (InMemory.expire self reading id) Hcalls) as (Httls & Hsub & Hentries).
    assert (InMemory.ttls (InMemory.expire self reading id) ⊆ InMemory.ttls self) as Hfewer.
    { unfold InMemory.expire. repeat case_match; try done. apply delete_subseteq. }
    split; [by etrans|]. split.
    + intros i. etrans; [apply Hsub|]. unfold InMemory.expire. repeat case_match; try done.
      unfold stored at 1. cbn [InMemory.onTimeout InMemory.storage].
      destruct (decide (keyOf id = keyOf i)) as [Heq|Hne].
      * rewrite <- Heq, lookup_delete_eq. apply sublist_nil_l.
      * by rewrite lookup_delete_ne.
    + intros x Hx Hplain Htimer. apply Hentries; [done|done|].
      destruct (InMemory.ttls (InMemory.expire self reading id) !! keyOf (call_id x.2))
        as [timer|] eqn:Hlater; [|done].
      apply (lookup_weaken _ _ _ _ Hlater) in Hfewer. congruence.
Qed.

Lemma speculative_runs_witness :
  Forall (λ c : Tick * Call, speculative c.2)
    (calls_of [Invoke (at_ms 3 "a") (WouldLimit (IdStr "nobody") 3000);
               Elapse 20000 id1;
               Invoke (at_ms 30 "b") (WouldLimitWithInfo id1 30000)])
  ∧ InMemory.storage memory_8000 !! "nobody" = None
  ∧ is_Some
      (InMemory.storage
         (play memory_8000
            [Invoke (at_ms 3 "a") (WouldLimit (IdStr "nobody") 3000);
             Elapse 20000 id1;
             Invoke (at_ms 30 "b") (WouldLimitWithInfo id1 30000)]).2 !! "nobody").
Proof.
  assert (Forall (λ c : Tick * Call, speculative c.2)
            (calls_of [Invoke (at_ms 3 "a") (WouldLimit (IdStr "nobody") 3000);
                       Elapse 20000 id1;
                       Invoke (at_ms 30 "b") (WouldLimitWithInfo id1 30000)])) as Hcalls
    by (repeat apply Forall_cons_2; simpl; try done; apply Forall_nil_2).
  split; [exact Hcalls|]. split; [reflexivity|].
  destruct (speculative_runs memory_8000 _ Hcalls) as (_ & _ & Hentries).
  destruct (Hentries (at_ms 3 "a", WouldLimit (IdStr "nobody") 3000)) as [Hentry _];
    [by left| |reflexivity|exact Hentry].
  unfold plain. apply (bool_decide_unpack _). vm_compute. exact I.
Defined.

(** ** The timer of the in-memory store *)

Lemma run_app {L : Type} `{Limiter L} (self : L) (calls calls' : list (Tick * Call)) :
  run self (calls ++ calls')
  = ((run self calls).1 ++ (run (run self calls).2 calls').1,
     (run (run self calls).2 calls').2).
Proof.
  revert self. induction calls as [|[tick c] calls IH]; intros self.
  { cbn [app run fst snd]. by destruct (run self calls'). }
  rewrite <- app_comm_cons, !run_cons, IH. done.
Qed.

Lemma length_run {L : Type} `{Limiter L} (self : L) (calls : list (Tick * Call)) :
  length (run self calls).1 = length calls.
Proof.
  revert self. induction calls as [|[tick c] calls IH]; intros self; [done|].
  rewrite run_cons. cbn [fst length]. by rewrite IH.
Qed.

(** The timers of a constructed limiter cannot be observed when the window
    is at most [TIMEOUT_MAX] milliseconds long and the clock never runs
    backwards. *)
Lemma fresh_unobservable
    (options : RateLimiterOptions) (fresh : InMemory.InMemoryRateLimiter)
    (events : list Event) :
  InMemory.constructor options = Return fresh →
  interval (InMemory.base fresh) <= millisecondsToMicroseconds InMemory.TIMEOUT_MAX →
  nondecreasing (readings events) →
  (play fresh events).1 = (run fresh (calls_of events)).1.
Proof.
  intros Hnew Hlong Hclock.
  destruct events as [|e events]; [done|].
  set (first := match e with Invoke tick _ => now tick | Elapse reading _ => reading end).
  destruct (constructor_sound options fresh first Hnew)
    as (Hbase & Hagree & Htidy & Hcovered & Hclean).
  pose proof (constructor_valid _ _ Hbase) as (HI & _ & _).
  apply (play_unobservable _ fresh fresh first); try done.
  apply SSorted_cons; [done|]. rewrite readings_cons. fold first.
  rewrite readings_cons in Hclock. fold first in Hclock.
  apply StronglySorted_inv in Hclock as [_ Hrest].
  apply Forall_cons. split; [done|exact Hrest].
Qed.

(** X12. A recording attempt schedules the timer of its identifier with the
    configured interval, in milliseconds, as the delay asked for; the timers
    of other identifiers are not touched.  While the interval is at most
    [TIMEOUT_MAX] milliseconds the timer keeps that delay, which is the length
    of the window, and under a clock that never runs backwards the timers
    cannot be observed: every sequence of events, with timers running at any
    reading from their due time on, gives the outcomes of its calls alone.
    With a longer interval the timer is due after one millisecond. *)
Theorem timer_covers_window
    (options : RateLimiterOptions) (fresh : InMemory.InMemoryRateLimiter) :
  InMemory.constructor options = Return fresh →
  ∃ delay,
    opt_interval options = Some delay
    ∧ millisecondsToMicroseconds delay = interval (InMemory.base fresh)
    ∧ (∀ self tick id, InMemory.base self = InMemory.base fresh → plain id →
         ∃ info self',
           limitWithInfo self tick id = Return (info, self')
           ∧ InMemory.ttls self' !! keyOf id
             = Some (InMemory.setTimeout (now tick) delay)
           ∧ ∀ id', keyOf id' ≠ keyOf id →
                    InMemory.ttls self' !! keyOf id' = InMemory.ttls self !! keyOf id')
    ∧ (delay <= InMemory.TIMEOUT_MAX →
       (∀ reading, InMemory.idleTimeout (InMemory.setTimeout reading delay) = delay)
       ∧ ∀ events, nondecreasing (readings events) →
                   (play fresh events).1 = (run fresh (calls_of events)).1)
    ∧ (InMemory.TIMEOUT_MAX < delay →
       ∀ reading, InMemory.idleTimeout (InMemory.setTimeout reading delay) = 1).
Proof.
  intros Hnew.
  destruct (constructor_sound options fresh 0 Hnew) as (Hbase & _).
  pose proof Hbase as (i & m & Hi & Hpositive & _ & _ & _ & Hfields)%constructor_Return.
  exists i.
  assert (interval (InMemory.base fresh) = millisecondsToMicroseconds i) as HI
    by (by rewrite Hfields).
  split; [done|]. split; [done|]. split; [|split].
  - intros self tick id Hself Hplain. eexists _, _.
    split; [by apply InMemory_limitWithInfo, plain_own|].
    rewrite InMemory_refresh_ttls, Hself, HI, microsecondsToMilliseconds_exact.
    split; [by rewrite lookup_insert_eq|].
    intros id' Hne. by rewrite lookup_insert_ne.
  - intros Hshort. split.
    + intros reading. unfold InMemory.setTimeout. cbn [InMemory.idleTimeout].
      by rewrite bool_decide_eq_true_2 by lia.
    + intros events Hclock. apply (fresh_unobservable options); [done| |done].
      rewrite HI. unfold millisecondsToMicroseconds. lia.
  - intros Hlong reading. unfold InMemory.setTimeout. cbn [InMemory.idleTimeout].
    by rewrite bool_decide_eq_false_2 by lia.
Qed.

Lemma timer_covers_window_witness :
  InMemory.constructor options_10_2 = Return memory_10_2
  ∧ nondecreasing
      (readings [Invoke (at_ms 0 "a") (Limit id1); Invoke (at_ms 0 "b") (Limit id1);
                 Elapse 10000 id1; Invoke (at_ms 10 "c") (Limit id1)])
  ∧ (play memory_10_2
       [Invoke (at_ms 0 "a") (Limit id1); Invoke (at_ms 0 "b") (Limit id1);
        Elapse 10000 id1; Invoke (at_ms 10 "c") (Limit id1)]).1
    = (run memory_10_2
         [(at_ms 0 "a", Limit id1); (at_ms 0 "b", Limit id1); (at_ms 10 "c", Limit id1)]).1.
Proof.
  assert (nondecreasing
            (readings [Invoke (at_ms 0 "a") (Limit id1); Invoke (at_ms 0 "b") (Limit id1);
                       Elapse 10000 id1; Invoke (at_ms 10 "c") (Limit id1)])) as Hclock.
  { apply (bool_decide_unpack _). vm_compute. exact I. }
  split; [reflexivity|]. split; [exact Hclock|].
  destruct (timer_covers_window options_10_2 memory_10_2 eq_refl)
    as (delay & Hdelay & _ & _ & Hshort & _).
  injection Hdelay as <-.
  destruct Hshort as [_ Hsame]; [vm_compute; discriminate|].
  exact (Hsame _ Hclock).
Defined.

(** X20. Blocked attempts count.  For an identifier that does not name a
    member of [Object.prototype], an attempt is recorded whatever its
    verdict: after [limitWithInfo] the stored list is the window followed by
    the timestamp of the attempt.  The attempt is blocked for its count
    exactly when the recorded attempts in the trailing window, blocked or
    not, already reach the limit; so an identifier stays blocked while that
    count has not dropped under the limit, and without a minimal distance it
    is free again once it has.  On a constructed limiter whose window is at
    most [TIMEOUT_MAX] milliseconds long, under a clock that never runs
    backwards and whatever the timers do, of the attempts within one window
    that close a sequence of events every one after the [maxInInterval]-th
    is blocked.  On Redis the attempt is likewise a member of the set after
    the call, whatever the verdict. *)
Theorem blocked_attempts_count
    (options : RateLimiterOptions) (self : InMemory.InMemoryRateLimiter) (id : Id) :
  Base.constructor options = Return (InMemory.base self) →
  plain id →
  (∀ tick,
     let recent := inWindow (interval (InMemory.base self)) (now tick) (stored self id) in
     ∃ info self',
       limitWithInfo self tick id = Return (info, self')
       ∧ limit self tick id = Return (blocked info, self')
       ∧ stored self' id = recent ++ [now tick]
       ∧ (blockedDueToCount info = true
          ↔ maxInInterval (InMemory.base self) <= Z.of_nat (length recent))
       ∧ (maxInInterval (InMemory.base self) <= Z.of_nat (length recent) →
          blocked info = true)
       ∧ (Z.of_nat (length recent) < maxInInterval (InMemory.base self) →
          minDifference (InMemory.base self) = 0 → blocked info = false))
  ∧ (∀ fresh events before ticks,
       InMemory.constructor options = Return fresh →
       interval (InMemory.base fresh) <= millisecondsToMicroseconds InMemory.TIMEOUT_MAX →
       nondecreasing (readings events) →
       calls_of events = before ++ attempts id ticks →
       within (interval (InMemory.base fresh)) (now <$> ticks) →
       ∀ k, (k < length ticks)%nat →
            maxInInterval (InMemory.base fresh) <= Z.of_nat k →
            (play fresh events).1 !! (length before + k)%nat = Some (Verdict true))
  ∧ (∀ (remote : Redis.RedisRateLimiter) tick,
       ∃ info remote',
         limitWithInfo remote tick id = Return (info, remote')
         ∧ (uuid tick, now tick) ∈ members remote' id).
Proof.
  intros Hnew Hplain. split; [|split].
  - intros tick recent.
    destruct (InMemory_attempt self tick id (plain_own self id Hplain))
      as (info & self' & Hinfo & Hlimit & Hverdict & _ & Hstored & Hcount & Hblocked).
    exists info, self'. fold recent in Hstored, Hcount.
    split; [done|]. split; [done|]. split; [done|].
    rewrite Hblocked, Hcount. split; [apply bool_decide_eq_true|]. split.
    + intros Hfull. by rewrite bool_decide_eq_true_2.
    + intros Hfree Hmd. rewrite bool_decide_eq_false_2 by lia.
      rewrite orb_false_l, Hverdict. by apply calculateInfo_no_minDifference.
  - intros fresh events before ticks Hfresh Hlong Hclock Hcalls Hwithin k Hk Hmax.
    rewrite (fresh_unobservable options fresh events Hfresh Hlong Hclock).
    rewrite Hcalls, run_app. cbn [fst].
    rewrite lookup_app_r by (rewrite length_run; lia).
    rewrite length_run. replace (length before + k - length before)%nat with k by lia.
    destruct (attempts_recorded id ticks Hplain (run fresh before).2
                (stored (run fresh before).2 id) [])
      as [_ Hverdicts]; [by rewrite app_nil_r|by rewrite run_base|].
    apply Hverdicts; [done|]. by rewrite run_base.
  - intros remote tick.
    destruct (Redis_getTimestamps_spec remote tick id true)
      as (remote' & Hget & _ & _ & _ & _ & Hset & _).
    cbv zeta in Hget, Hset. eexists _, remote'. split.
    + unfold limitWithInfo.
      change (getTimestamps remote tick id true)
        with (Redis.getTimestamps remote tick id true).
      by rewrite Hget.
    + rewrite Hset. apply elem_of_place. by left.
Qed.

Lemma blocked_attempts_count_witness :
  Base.constructor options_10_3 = Return (InMemory.base memory_10_3)
  ∧ plain id1
  ∧ nondecreasing (readings (Elapse 0 id1 :: invocations (attempts id1 five_ticks)))
  ∧ within (interval (InMemory.base memory_10_3)) (now <$> five_ticks)
  ∧ (play memory_10_3 (Elapse 0 id1 :: invocations (attempts id1 five_ticks))).1
    !! 3%nat = Some (Verdict true).
Proof.
  assert (within (interval (InMemory.base memory_10_3)) (now <$> five_ticks))
    as Hwithin.
  { intros t t' Ht%list_elem_of_In Ht'%list_elem_of_In.
    simpl in Ht, Ht'. unfold millisecondsToMicroseconds in Ht, Ht'. simpl. lia. }
  assert (nondecreasing (readings (Elapse 0 id1 :: invocations (attempts id1 five_ticks))))
    as Hclock.
  { apply (bool_decide_unpack _). vm_compute. exact I. }
  split; [reflexivity|]. split; [apply IdNum_plain|]. split; [exact Hclock|].
  split; [exact Hwithin|].
  destruct (blocked_attempts_count options_10_3 memory_10_3 id1 eq_refl (IdNum_plain 1))
    as (_ & Hplay & _).
  apply (Hplay memory_10_3 (Elapse 0 id1 :: invocations (attempts id1 five_ticks))
           [] five_ticks);
    [reflexivity|vm_compute; discriminate|exact Hclock|reflexivity|exact Hwithin
    |cbn; lia|cbn; lia].
Defined.

(** X21. Which calls the in-memory limiter rejects.  On a constructed
    limiter, after any sequence of events, a call is rejected exactly when it
    is a read ([limit], [wouldLimit], [limitWithInfo] or
    [wouldLimitWithInfo]) about an identifier that names a member of
    [Object.prototype]; the rejection is the TypeError of line 128 and leaves
    the limiter as it was, so nothing is ever stored for such an identifier.
    [clear] is never rejected. *)
Theorem inherited_identifiers_rejected
    (options : RateLimiterOptions) (fresh : InMemory.InMemoryRateLimiter)
    (events : list Event) (tick : Tick) (c : Call) :
  InMemory.constructor options = Return fresh →
  let self := (play fresh events).2 in
  ((∃ msg, (perform self tick c).1 = Rejected msg) ↔ ¬ plain (call_id c) ∧ reads c = true)
  ∧ (¬ plain (call_id c) → reads c = true →
     perform self tick c = (Rejected "TypeError", self))
  ∧ (¬ plain (call_id c) → InMemory.storage self !! keyOf (call_id c) = None).
Proof.
  intros Hnew self.
  destruct (constructor_sound options fresh 0 Hnew) as (_ & _ & _ & _ & Hclean).
  apply (play_clean events) in Hclean. fold self in Hclean.
  assert (rejects self c ↔ ¬ plain (call_id c) ∧ reads c = true) as Hrejects.
  { unfold rejects, inherited, plain. split.
    - intros [[_ Hproto] Hreads]. split; [|done]. by intros Hno.
    - intros [Hproto%dec_stable Hreads]. split; [|done]. split; [by apply Hclean|done]. }
  split; [|split].
  - rewrite <- Hrejects. split.
    + intros [msg Hmsg]. destruct (decide (rejects self c)) as [|Hresolves]; [done|].
      rewrite InMemory_perform_outcome in Hmsg by done. by destruct c.
    + intros Hc. rewrite InMemory_perform_rejects by done. eauto.
  - intros Hproto Hreads. apply InMemory_perform_rejects. by apply Hrejects.
  - intros Hproto%dec_stable. by apply Hclean.
Qed.

Lemma inherited_identifiers_rejected_witness :
  InMemory.constructor options_10_3 = Return memory_10_3
  ∧ ¬ plain (IdStr "toString")
  ∧ perform (play memory_10_3 [Invoke (at_ms 0 "a") (Limit id1)]).2 (at_ms 1 "b")
      (Limit (IdStr "toString"))
    = (Rejected "TypeError", (play memory_10_3 [Invoke (at_ms 0 "a") (Limit id1)]).2).
Proof.
  assert (¬ plain (IdStr "toString")) as Hproto.
  { intros Hplain. apply Hplain. apply (bool_decide_unpack _). vm_compute. exact I. }
  split; [reflexivity|]. split; [exact Hproto|].
  destruct (inherited_identifiers_rejected options_10_3 memory_10_3
              [Invoke (at_ms 0 "a") (Limit id1)] (at_ms 1 "b") (Limit (IdStr "toString"))
              eq_refl) as (_ & Hrejected & _).
  by apply Hrejected.
Defined.

(** ** More on the Redis store *)

(** The server after the transaction of one read. *)
Lemma Redis_getTimestamps_server (self : Redis.RedisRateLimiter) (tick : Tick) (id : Id)
    (addNew : bool) :
  let key := Redis.makeKey self id in
  let pruned :=
    Server.store_set key
      (survivors (now tick - interval (Redis.base self)) (members self id))
      (Redis.server (Redis.client self)) in
  let written :=
    if addNew then Server.store_set key (set_after self tick id addNew) pruned else pruned in
  Redis.getTimestamps self tick id addNew
  = Return (Some <$> (set_after self tick id addNew).*2,
            Redis.with_client self
              {| Redis.library := Redis.library (Redis.client self);
                 Redis.server := (Server.run (Server.EXPIRE key (Redis.ttl self)) written).2 |}).
Proof.
  intros key pruned written.
  destruct (Redis_getTimestamps_spec self tick id addNew) as (self' & Hget & _).
  cbv zeta in Hget. fold (set_after self tick id addNew) in Hget.
  rewrite Hget. f_equal. f_equal.
  set (kept := survivors (now tick - interval (Redis.base self)) (members self id)) in *.
  assert (Server.lookup_set key pruned = kept) as Hkept by apply lookup_store_set.
  assert (Server.lookup_set key written = set_after self tick id addNew) as Hset.
  { subst written. unfold set_after. fold kept.
    destruct addNew; [apply lookup_store_set|done]. }
  destruct (extractTimestamps_reply (set_after self tick id addNew)) as [Hnode Hio].
  assert ((Server.run (Server.ZREMRANGEBYSCORE key 0
             (now tick - interval (Redis.base self))) (Redis.server (Redis.client self))).2
          = pruned) as Hrem by done.
  assert (addNew = true →
          (Server.run (Server.ZADD key (String_of (now tick)) (uuid tick)) pruned).2
          = written) as Hadd.
  { intros ->. rewrite run_ZADD_state, Hkept. done. }
  revert Hget. unfold Redis.getTimestamps, Redis.client_exec.
  fold key.
  destruct addNew; cbn [app]; rewrite !exec_cons; cbn [Server.exec fst snd];
    rewrite Hrem, ?Hadd by done;
    [|change pruned with written];
    rewrite run_ZRANGE, Hset; cbn [fst snd];
    destruct (Redis.library (Redis.client self)); cbn [fmap list_fmap lookup list_lookup];
    rewrite ?Hnode, ?Hio; by intros [= <-].
Qed.

Lemma microsecondsToSeconds_ceiling (x : Z) :
  x <= 1000000 * microsecondsToSeconds x < x + 1000000.
Proof.
  unfold microsecondsToSeconds.
  pose proof (Z.div_mod (- x) 1000000 ltac:(lia)) as Hdm.
  pose proof (Z.mod_pos_bound (- x) 1000000 ltac:(lia)) as Hb.
  lia.
Qed.

Lemma expire_after_store (key : string) (z : Server.zset) (s : Server.t) (seconds : Z) :
  Server.expires (Server.run (Server.EXPIRE key seconds) (Server.store_set key z s)).2 !! key
  = match z with [] => None | _ => Some seconds end.
Proof.
  destruct z as [|e z]; cbn [Server.store_set Server.run Server.sets Server.expires].
  - rewrite decide_False by (rewrite lookup_delete_eq; by intros [? ?]).
    cbn [snd Server.expires]. apply lookup_delete_eq.
  - rewrite decide_True by (rewrite lookup_insert_eq; eauto).
    cbn [snd Server.expires]. apply lookup_insert_eq.
Qed.

(** X13. The expiry of a Redis key covers the window: the time to live the
    constructor computes is the interval rounded up to whole seconds, so it
    is at least one second and never shorter than the interval.  Every read,
    recording or not, leaves the key of the identifier with that time to
    live, unless the read has emptied the set, in which case the key is
    gone. *)
Theorem redis_expiry_covers_window
    (options : RateLimiterOptions) (client : Redis.RedisClient) (namespace : string)
    (self : Redis.RedisRateLimiter) :
  Redis.constructor client namespace options = Return self →
  1 <= Redis.ttl self
  ∧ interval (Redis.base self) <= 1000000 * Redis.ttl self
    < interval (Redis.base self) + 1000000
  ∧ ∀ tick id addNew,
      ∃ timestamps self',
        Redis.getTimestamps self tick id addNew = Return (timestamps, self')
        ∧ Redis.ttl self' = Redis.ttl self
        ∧ expiry self' id
          = match members self' id with [] => None | _ => Some (Redis.ttl self) end.
Proof.
  intros Hnew. unfold Redis.constructor in Hnew.
  destruct (Base.constructor options) as [base|] eqn:Hbase; settle_completion; [|done].
  injection Hnew as <-. cbn [Redis.ttl Redis.base].
  apply constructor_valid in Hbase as (HI & _ & _).
  pose proof (microsecondsToSeconds_ceiling (interval base)) as Hceiling.
  split; [lia|]. split; [done|].
  intros tick id addNew.
  set (self := {| Redis.base := base; Redis.ttl := microsecondsToSeconds (interval base);
                  Redis.client := client; Redis.namespace := namespace |}).
  pose proof (Redis_getTimestamps_server self tick id addNew) as Hget.
  cbv zeta in Hget.
  eexists _, _. split; [exact Hget|]. split; [done|].
  unfold expiry, members.
  cbn [Redis.with_client Redis.client Redis.server Redis.ttl].
  change (Redis.makeKey (Redis.with_client self _) id) with (Redis.makeKey self id).
  rewrite lookup_run_EXPIRE.
  destruct addNew.
  - rewrite expire_after_store, lookup_store_set. done.
  - rewrite expire_after_store, lookup_store_set. done.
Qed.

Lemma redis_expiry_covers_window_witness :
  Redis.constructor node_redis "limiter:" options_10_3_2 = Return redis_10_3_2
  ∧ 1 <= Redis.ttl redis_10_3_2
  ∧ interval (Redis.base redis_10_3_2) <= 1000000 * Redis.ttl redis_10_3_2.
Proof.
  split; [reflexivity|].
  destruct (redis_expiry_covers_window options_10_3_2 node_redis "limiter:" redis_10_3_2
              eq_refl) as (Hone & [Hcovers _] & _).
  by split.
Defined.

(** X14. The two client libraries give the same answer: whether the result
    of [exec] comes back as the replies themselves or as pairs of an error
    slot and a reply, a read returns the same list and leaves the server in
    the same state.  The list is made of numbers only, the scores of the set
    the server holds afterwards; it contains the clock reading when a
    timestamp is added and is the list of the surviving scores otherwise. *)
Theorem client_libraries_agree
    (self : Redis.RedisRateLimiter) (tick : Tick) (id : Id) (addNew : bool) :
  ∃ timestamps server',
    (∀ lib, Redis.getTimestamps (through lib self) tick id addNew
            = Return (timestamps,
                      Redis.with_client self
                        {| Redis.library := lib; Redis.server := server' |}))
    ∧ timestamps = Some <$> (Server.lookup_set (Redis.makeKey self id) server').*2
    ∧ if addNew then Some (now tick) ∈ timestamps
      else timestamps
           = Some <$> (survivors (now tick - interval (Redis.base self))
                                 (members self id)).*2.
Proof.
  set (key := Redis.makeKey self id).
  set (pruned := Server.store_set key
         (survivors (now tick - interval (Redis.base self)) (members self id))
         (Redis.server (Redis.client self))).
  set (written :=
         if addNew then Server.store_set key (set_after self tick id addNew) pruned
         else pruned).
  exists (Some <$> (set_after self tick id addNew).*2),
         (Server.run (Server.EXPIRE key (Redis.ttl self)) written).2.
  split; [|split].
  - intros lib. exact (Redis_getTimestamps_server (through lib self) tick id addNew).
  - rewrite lookup_run_EXPIRE. subst written pruned. unfold set_after.
    destruct addNew; by rewrite lookup_store_set.
  - unfold set_after. destruct addNew; [|done].
    apply list_elem_of_fmap. exists (now tick). split; [done|].
    apply list_elem_of_fmap. exists (uuid tick, now tick). split; [done|].
    apply elem_of_place. by left.
Qed.

Lemma length_place (e : string * Z) (z : Server.zset) :
  length (Server.place e z) = S (length z).
Proof.
  induction z as [|x z IH]; [done|].
  cbn [Server.place]. destruct (Server.entry_leb e x); cbn [length]; [done|].
  by rewrite IH.
Qed.

Lemma place_Permutation (e : string * Z) (z : Server.zset) : Server.place e z ≡ₚ e :: z.
Proof.
  induction z as [|x z IH]; [done|].
  cbn [Server.place]. destruct (Server.entry_leb e x); [done|].
  rewrite IH. apply Permutation_swap.
Qed.

Lemma place_ordered (e : string * Z) (z : Server.zset) :
  StronglySorted Z.le z.*2 → StronglySorted Z.le (Server.place e z).*2.
Proof.
  induction z as [|x z IH]; intros Hsorted.
  { cbn. apply SSorted_cons; [apply SSorted_nil|apply Forall_nil_2]. }
  rewrite fmap_cons in Hsorted. apply StronglySorted_inv in Hsorted as [Hrest Hx].
  cbn [Server.place]. destruct (Server.entry_leb e x) eqn:Hleb.
  - rewrite !fmap_cons.
    assert (e.2 <= x.2) as Hle.
    { unfold Server.entry_leb in Hleb.
      apply orb_true_iff in Hleb as [Hlt|Heq].
      - apply bool_decide_eq_true in Hlt. lia.
      - apply andb_true_iff in Heq as [Heq _]. apply bool_decide_eq_true in Heq. lia. }
    apply SSorted_cons; [by apply SSorted_cons|].
    apply Forall_cons. split; [done|].
    eapply Forall_impl; [exact Hx|]. cbn. intros; lia.
  - rewrite fmap_cons.
    assert (x.2 <= e.2) as Hle.
    { unfold Server.entry_leb in Hleb.
      apply orb_false_iff in Hleb as [Hlt _].
      apply bool_decide_eq_false in Hlt. lia. }
    apply SSorted_cons; [by apply IH|].
    apply Forall_forall. intros t Ht.
    apply list_elem_of_fmap in Ht as (y & -> & Hy).
    apply elem_of_place in Hy as [->|Hy]; [done|].
    rewrite Forall_forall in Hx. apply Hx. apply list_elem_of_fmap. by exists y.
Qed.

Lemma filter_ordered (P : string * Z → Prop) `{∀ e, Decision (P e)}
    (z : list (string * Z)) :
  StronglySorted Z.le z.*2 → StronglySorted Z.le (filter P z).*2.
Proof.
  induction z as [|x z IH]; intros Hsorted; [done|].
  rewrite fmap_cons in Hsorted. apply StronglySorted_inv in Hsorted as [Hrest Hx].
  rewrite filter_cons. destruct (decide (P x)); [|by apply IH].
  rewrite fmap_cons. apply SSorted_cons; [by apply IH|].
  apply Forall_forall. intros t Ht.
  apply list_elem_of_fmap in Ht as (y & -> & Hy).
  apply list_elem_of_filter in Hy as [_ Hy].
  rewrite Forall_forall in Hx. apply Hx. apply list_elem_of_fmap. by exists y.
Qed.

Lemma filter_members (P : string * Z → Prop) `{∀ e, Decision (P e)}
    (z : list (string * Z)) :
  NoDup z.*1 → NoDup (filter P z).*1.
Proof.
  intros Hz. apply sublist_NoDup with z.*1; [done|].
  apply fmap_sublist, sublist_filter.
Qed.

Lemma length_without (member : string) (z : list (string * Z)) :
  NoDup z.*1 →
  length (filter (λ e, e.1 ≠ member) z)
  = if decide (member ∈ z.*1) then pred (length z) else length z.
Proof.
  induction z as [|x z IH]; intros Hz; [done|].
  rewrite fmap_cons in Hz. apply NoDup_cons in Hz as [Hx Hz].
  rewrite filter_cons, fmap_cons. specialize (IH Hz).
  destruct (decide (x.1 ≠ member)) as [Hne|Heq].
  - cbn [length]. rewrite IH.
    destruct (decide (member ∈ z.*1)) as [Hin|Hout].
    + rewrite decide_True by (by right).
      destruct z; [by apply elem_of_nil in Hin|done].
    + rewrite decide_False; [done|]. intros [?|?]%elem_of_cons; [congruence|done].
  - apply dec_stable in Heq. subst member.
    rewrite decide_True by (by left). rewrite IH.
    by rewrite decide_False.
Qed.

(** X15. On Redis the token decides whether an attempt counts.  In a set
    that holds each member once, an attempt whose token is not among the
    surviving members makes the returned list one longer than the list of
    survivors; an attempt that comes with the token of a surviving member
    takes the place of that member and the list is no longer than before.
    Either way the set holds each member once afterwards. *)
Theorem token_decides_count (self : Redis.RedisRateLimiter) (tick : Tick) (id : Id) :
  NoDup (members self id).*1 →
  let kept := survivors (now tick - interval (Redis.base self)) (members self id) in
  ∃ timestamps self',
    Redis.getTimestamps self tick id true = Return (timestamps, self')
    ∧ NoDup (members self' id).*1
    ∧ length timestamps
      = if decide (uuid tick ∈ kept.*1) then length kept else S (length kept).
Proof.
  intros Hmembers kept.
  destruct (Redis_getTimestamps_spec self tick id true)
    as (self' & Hget & _ & _ & _ & _ & Hset & _).
  cbv zeta in Hget, Hset. fold kept in Hget, Hset.
  assert (NoDup kept.*1) as Hkept by (by apply filter_members).
  eexists _, self'. split; [exact Hget|]. split.
  - rewrite Hset.
    rewrite (place_Permutation (uuid tick, now tick)). rewrite fmap_cons.
    apply NoDup_cons. split; [|by apply filter_members].
    intros Hin. apply list_elem_of_fmap in Hin as (e & He & Hin).
    apply list_elem_of_filter in Hin as [Hne _]. by apply Hne.
  - rewrite !length_fmap, length_place, (length_without _ _ Hkept).
    destruct (decide (uuid tick ∈ kept.*1)) as [Hin|]; [|done].
    destruct kept; [by apply elem_of_nil in Hin|done].
Qed.

Lemma token_decides_count_witness :
  NoDup (members redis_10_3 id1).*1
  ∧ ∃ timestamps self',
      Redis.getTimestamps redis_10_3 (at_ms 5 "b") id1 true = Return (timestamps, self')
      ∧ length timestamps = 2%nat.
Proof.
  assert (NoDup (members redis_10_3 id1).*1) as Hmembers
    by (apply (bool_decide_unpack _); vm_compute; exact I).
  split; [exact Hmembers|].
  destruct (token_decides_count redis_10_3 (at_ms 5 "b") id1 Hmembers)
    as (timestamps & self' & Hget & _ & Hlength).
  exists timestamps, self'. split; [exact Hget|].
  rewrite Hlength. vm_compute. reflexivity.
Defined.

Lemma getTimestamps_well_kept
    (self : Redis.RedisRateLimiter) (tick : Tick) (id : Id) (addNew : bool) :
  well_kept self →
  ∃ timestamps self',
    Redis.getTimestamps self tick id addNew = Return (Some <$> timestamps, self')
    ∧ StronglySorted Z.le timestamps
    ∧ well_kept self'.
Proof.
  intros Hkept.
  destruct (Redis_getTimestamps_spec self tick id addNew)
    as (self' & Hget & _ & Hnamespace & _ & _ & Hset & Hother).
  cbv zeta in Hget, Hset.
  destruct (Hkept id) as [Hsorted Hmembers].
  assert (StronglySorted Z.le (members self' id).*2 ∧ NoDup (members self' id).*1)
    as [Hsorted' Hmembers'].
  { rewrite Hset. unfold survivors. destruct addNew.
    - split.
      + by apply place_ordered, filter_ordered, filter_ordered.
      + rewrite (place_Permutation (uuid tick, now tick)). rewrite fmap_cons.
        apply NoDup_cons. split; [|by apply filter_members, filter_members].
        intros Hin. apply list_elem_of_fmap in Hin as (e & He & Hin).
        apply list_elem_of_filter in Hin as [Hne _]. by apply Hne.
    - split; [by apply filter_ordered|by apply filter_members]. }
  eexists _, self'. split; [exact Hget|]. split; [by rewrite <- Hset|].
  intros id'. destruct (decide (keyOf id' = keyOf id)) as [Heq|Hne].
  - by rewrite (members_keyOf self' id' id Heq).
  - rewrite (Hother id' Hne). apply Hkept.
Qed.

Lemma perform_well_kept (self : Redis.RedisRateLimiter) (tick : Tick) (c : Call) :
  well_kept self → well_kept (perform self tick c).2.
Proof.
  intros Hkept.
  assert (c = Clear (call_id c) ∨ c ≠ Clear (call_id c)) as [->|Hc]
    by (destruct c; (by left) || (by right)).
  - cbn [call_id]. change (perform self tick (Clear (call_id c))).2
      with (Redis.clear self (call_id c)).
    intros id'. destruct (Redis_clear_members self (call_id c) id') as [_ ->].
    case_decide; [|apply Hkept].
    split; [apply SSorted_nil|apply NoDup_nil_2].
  - destruct (getTimestamps_well_kept self tick (call_id c) (call_adds c) Hkept)
      as (timestamps & self' & Hget & _ & Hkept').
    assert (getTimestamps self tick (call_id c) (call_adds c)
            = Return (Some <$> timestamps, self')) as Hread by exact Hget.
    by rewrite (perform_read self self' tick c _ Hc Hread).
Qed.

(** X16. Redis keeps the timestamps in order whatever the clock does.  When
    every set of the limiter is ordered by score and holds each member once,
    this is still so after any sequence of calls, with any clock readings and
    any tokens, and the list a read then returns is ascending. *)
Theorem redis_sets_stay_ordered
    (self : Redis.RedisRateLimiter) (calls : list (Tick * Call)) :
  well_kept self →
  well_kept (run self calls).2
  ∧ ∀ tick id addNew,
      ∃ timestamps self',
        Redis.getTimestamps (run self calls).2 tick id addNew
        = Return (Some <$> timestamps, self')
        ∧ StronglySorted Z.le timestamps.
Proof.
  intros Hkept.
  assert (well_kept (run self calls).2) as Hfinal.
  { revert self Hkept. induction calls as [|[tick c] calls IH]; intros self Hkept; [done|].
    rewrite run_cons. cbn [snd]. by apply IH, perform_well_kept. }
  split; [done|]. intros tick id addNew.
  destruct (getTimestamps_well_kept _ tick id addNew Hfinal)
    as (timestamps & self' & Hget & Hsorted & _).
  by exists timestamps, self'.
Qed.

Lemma redis_sets_stay_ordered_witness :
  well_kept redis_10_3_2
  ∧ ∃ timestamps self',
      Redis.getTimestamps (run redis_10_3_2 clock_runs_backwards).2 (at_ms 4 "c") id1 true
      = Return (Some <$> timestamps, self')
      ∧ StronglySorted Z.le timestamps.
Proof.
  assert (well_kept redis_10_3_2) as Hkept.
  { intros id. unfold members, Server.lookup_set. cbn. rewrite lookup_empty. cbn.
    split; [apply SSorted_nil|apply NoDup_nil_2]. }
  split; [exact Hkept|].
  destruct (redis_sets_stay_ordered redis_10_3_2 clock_runs_backwards Hkept) as [_ Hread].
  exact (Hread (at_ms 4 "c") id1 true).
Defined.

(** ** Units and the wait of a speculative call *)

(** X17. The conversions between the units fit together.  Milliseconds
    turned into microseconds and back are unchanged; microseconds turned
    into milliseconds and back are rounded up to the next whole millisecond,
    by less than one, and are unchanged exactly when they are a whole number
    of milliseconds; the seconds of a duration are the thousands, rounded up,
    of its milliseconds, rounded up. *)
Theorem unit_conversions (milliseconds microseconds : Z) :
  microsecondsToMilliseconds (millisecondsToMicroseconds milliseconds) = milliseconds
  ∧ microseconds <= millisecondsToMicroseconds (microsecondsToMilliseconds microseconds)
    < microseconds + 1000
  ∧ (millisecondsToMicroseconds (microsecondsToMilliseconds microseconds) = microseconds
     ↔ microseconds mod 1000 = 0)
  ∧ microsecondsToSeconds microseconds
    = microsecondsToMilliseconds (microsecondsToMilliseconds microseconds)
  ∧ microsecondsToSeconds (millisecondsToMicroseconds milliseconds)
    = microsecondsToMilliseconds milliseconds.
Proof.
  pose proof (microsecondsToMilliseconds_ceiling microseconds) as Hceiling.
  assert (microsecondsToSeconds microseconds
          = microsecondsToMilliseconds (microsecondsToMilliseconds microseconds)) as Hseconds.
  { unfold microsecondsToSeconds, microsecondsToMilliseconds.
    rewrite Z.opp_involutive, Z.div_div by lia. done. }
  split; [apply microsecondsToMilliseconds_exact|].
  split; [exact Hceiling|].
  split; [|split; [exact Hseconds|]].
  - unfold millisecondsToMicroseconds in *. split.
    + intros Heq. rewrite <- Heq. rewrite Z.mul_comm. apply Z.mod_mul. lia.
    + intros Hmod.
      pose proof (Z.div_mod microseconds 1000 ltac:(lia)) as Hdm. lia.
  - unfold microsecondsToSeconds, microsecondsToMilliseconds, millisecondsToMicroseconds.
    f_equal. replace (- (1000 * milliseconds)) with (- milliseconds * 1000) by lia.
    replace 1000000 with (1000 * 1000) by lia.
    rewrite <- Z.div_div by lia. by rewrite Z.div_mul by lia.
Qed.

(** X18. What a speculative call says about the wait.  On an in-memory
    limiter whose stored timestamps do not exceed the clock reading, for an
    identifier that does not name a member of [Object.prototype], a call of
    [wouldLimitWithInfo] whose candidate timestamp is that reading reports a
    wait of at least one millisecond and at most the configured interval; for
    an identifier with no timestamp inside the window it reports the whole
    interval, and the attempt is not blocked. *)
Theorem speculative_wait_bounds
    (options : RateLimiterOptions) (self : InMemory.InMemoryRateLimiter)
    (tick : Tick) (id : Id) :
  Base.constructor options = Return (InMemory.base self) →
  plain id →
  (∀ t, t ∈ stored self id → t <= now tick) →
  ∃ info self' ms,
    wouldLimitWithInfo self tick (now tick) id = Return (info, self')
    ∧ millisecondsUntilAllowed info = Some ms
    ∧ 1 <= ms
    ∧ millisecondsToMicroseconds ms <= interval (InMemory.base self)
    ∧ (inWindow (interval (InMemory.base self)) (now tick) (stored self id) = [] →
       blocked info = false
       ∧ millisecondsToMicroseconds ms = interval (InMemory.base self)).
Proof.
  intros Hnew Hplain%(plain_own self) Hpast.
  apply constructor_Return in Hnew as (i & m & _ & Hi & _ & Hm & _ & Hbase).
  assert (interval (InMemory.base self) = millisecondsToMicroseconds i) as Hinterval
    by (by rewrite Hbase).
  assert (0 < maxInInterval (InMemory.base self)) as Hmax by (by rewrite Hbase).
  rewrite InMemory_wouldLimitWithInfo, InMemory_refresh_result, app_nil_r by done.
  set (window := inWindow (interval (InMemory.base self)) (now tick) (stored self id)).
  destruct (calculateInfo_millisecondsUntilAllowed (InMemory.base self) window (now tick) Hmax)
    as (t & Ht & Hwait).
  cbv zeta in Ht. specialize (Hwait true). cbv zeta in Hwait. cbn iota in Hwait.
  assert (now tick - interval (InMemory.base self) < t <= now tick) as Hrange.
  { apply list_elem_of_lookup_2 in Ht. apply elem_of_app in Ht as [Ht|Ht].
    - subst window. apply list_elem_of_filter in Ht as [Hlt Ht].
      split; [exact Hlt|by apply Hpast].
    - apply list_elem_of_singleton in Ht. rewrite Hinterval.
      unfold millisecondsToMicroseconds. lia. }
  pose proof (microsecondsToMilliseconds_ceiling (t - now tick + interval (InMemory.base self)))
    as Hceiling.
  pose proof (microsecondsToMilliseconds_mono
                (t - now tick + interval (InMemory.base self))
                (millisecondsToMicroseconds i) ltac:(lia)) as Hmono.
  rewrite microsecondsToMilliseconds_exact in Hmono.
  eexists _, _, _. split; [reflexivity|]. split; [exact Hwait|].
  split; [lia|]. split; [unfold millisecondsToMicroseconds in *; lia|].
  intros Hempty. rewrite Hempty in *. split.
  - by apply calculateInfo_first.
  - assert (t = now tick) as ->.
    { apply list_elem_of_lookup_2 in Ht. rewrite app_nil_l in Ht.
      by apply list_elem_of_singleton in Ht. }
    replace (now tick - now tick + interval (InMemory.base self))
      with (millisecondsToMicroseconds i) by lia.
    by rewrite microsecondsToMilliseconds_exact.
Qed.

Lemma speculative_wait_bounds_witness :
  Base.constructor options_10_3_2 = Return (InMemory.base memory_8000)
  ∧ ∃ info self' ms,
      wouldLimitWithInfo memory_8000 (at_ms 9 "a") (now (at_ms 9 "a")) id1
      = Return (info, self')
      ∧ millisecondsUntilAllowed info = Some ms
      ∧ 1 <= ms.
Proof.
  split; [reflexivity|].
  destruct (speculative_wait_bounds options_10_3_2 memory_8000 (at_ms 9 "a") id1 eq_refl
              (IdNum_plain 1))
    as (info & self' & ms & Hcall & Hwait & Hone & _).
  { intros t Ht. vm_compute in Ht. apply list_elem_of_singleton in Ht. subst t.
    vm_compute. discriminate. }
  by exists info, self', ms.
Defined.
